(** * Cartographer: repository mapping and change detection

    A shallow embedding of [src/skills/cartography/scripts/cartographer.py]
    and the properties of its selection, hashing and change-detection code.

    Conventions of the embedding:
    - a Python [str] is a [string]; each [ascii] stands for one code point
      below 256, and [encode] is the UTF-8 encoding of such a string;
    - [bytes] are [list byte];
    - a [dict] whose iteration order can matter is an association list in
      insertion order; a [set] of strings is a [gset string];
    - a [pathlib.Path] is the list of its parts;
    - the file system is an explicit tree, and reading a file is an explicit
      script of what [open] and each [read] return. *)

From Stdlib Require Import ZArith Ascii String List Bool Lia Permutation Sorted.
From stdpp Require Import base gmap strings list sorting.

Import ListNotations.
Local Open Scope string_scope.
Local Open Scope list_scope.

(** ** hashlib.md5

    The digest (RFC 1321) that [hashlib.md5] computes, on 32-bit words held
    in [Z] with the wrap-around written out. *)

Module MD5.

Local Open Scope Z_scope.

Definition mask32 (x : Z) : Z := Z.land x 0xffffffff.

Definition add32 (x y : Z) : Z := mask32 (x + y).

Definition not32 (x : Z) : Z := Z.lxor x 0xffffffff.

Definition rotl32 (x : Z) (c : Z) : Z :=
  mask32 (Z.lor (Z.shiftl x c) (Z.shiftr x (32 - c))).

Definition shifts : list Z :=
  [ 7; 12; 17; 22; 7; 12; 17; 22; 7; 12; 17; 22; 7; 12; 17; 22;
    5; 9; 14; 20; 5; 9; 14; 20; 5; 9; 14; 20; 5; 9; 14; 20;
    4; 11; 16; 23; 4; 11; 16; 23; 4; 11; 16; 23; 4; 11; 16; 23;
    6; 10; 15; 21; 6; 10; 15; 21; 6; 10; 15; 21; 6; 10; 15; 21 ].

Definition sines : list Z :=
  [ 0xd76aa478; 0xe8c7b756; 0x242070db; 0xc1bdceee;
    0xf57c0faf; 0x4787c62a; 0xa8304613; 0xfd469501;
    0x698098d8; 0x8b44f7af; 0xffff5bb1; 0x895cd7be;
    0x6b901122; 0xfd987193; 0xa679438e; 0x49b40821;
    0xf61e2562; 0xc040b340; 0x265e5a51; 0xe9b6c7aa;
    0xd62f105d; 0x02441453; 0xd8a1e681; 0xe7d3fbc8;
    0x21e1cde6; 0xc33707d6; 0xf4d50d87; 0x455a14ed;
    0xa9e3e905; 0xfcefa3f8; 0x676f02d9; 0x8d2a4c8a;
    0xfffa3942; 0x8771f681; 0x6d9d6122; 0xfde5380c;
    0xa4beea44; 0x4bdecfa9; 0xf6bb4b60; 0xbebfbc70;
    0x289b7ec6; 0xeaa127fa; 0xd4ef3085; 0x04881d05;
    0xd9d4d039; 0xe6db99e5; 0x1fa27cf8; 0xc4ac5665;
    0xf4292244; 0x432aff97; 0xab9423a7; 0xfc93a039;
    0x655b59c3; 0x8f0ccc92; 0xffeff47d; 0x85845dd1;
    0x6fa87e4f; 0xfe2ce6e0; 0xa3014314; 0x4e0811a1;
    0xf7537e82; 0xbd3af235; 0x2ad7d2bb; 0xeb86d391 ].

Record state := State { sa : Z; sb : Z; sc : Z; sd : Z }.

Definition init : state :=
  State 0x67452301 0xefcdab89 0x98badcfe 0x10325476.

(** The message with the padding bit, the zero fill and the 64-bit
    little-endian bit length appended. *)
Definition le_bytes (n : nat) (x : Z) : list Z :=
  map (fun i => Z.land (Z.shiftr x (8 * Z.of_nat i)) 0xff) (seq 0 n).

Definition pad (msg : list Z) : list Z :=
  let len := Z.of_nat (length msg) in
  let fill := Z.to_nat ((55 - len) mod 64) in
  msg ++ [0x80] ++ repeat 0 fill ++ le_bytes 8 (8 * len).

Fixpoint words (fuel : nat) (bs : list Z) : list Z :=
  match fuel, bs with
  | S fuel', b0 :: b1 :: b2 :: b3 :: rest =>
      (b0 + Z.shiftl b1 8 + Z.shiftl b2 16 + Z.shiftl b3 24) :: words fuel' rest
  | _, _ => []
  end.

Definition round (m : list Z) (st : state) (i : nat) : state :=
  let '(State a b c d) := st in
  let zi := Z.of_nat i in
  let '(f, g) :=
    if zi <? 16 then (Z.lor (Z.land b c) (Z.land (not32 b) d), zi)
    else if zi <? 32 then
      (Z.lor (Z.land d b) (Z.land (not32 d) c), (5 * zi + 1) mod 16)
    else if zi <? 48 then (Z.lxor (Z.lxor b c) d, (3 * zi + 5) mod 16)
    else (Z.lxor c (Z.lor b (not32 d)), (7 * zi) mod 16) in
  let f' := add32 (add32 (add32 f a) (nth i sines 0)) (nth (Z.to_nat g) m 0) in
  State d (add32 b (rotl32 f' (nth i shifts 0))) b c.

Definition block (st : state) (m : list Z) : state :=
  let st' := fold_left (round m) (seq 0 64) st in
  State (add32 (sa st) (sa st')) (add32 (sb st) (sb st'))
        (add32 (sc st) (sc st')) (add32 (sd st) (sd st')).

Fixpoint blocks (fuel : nat) (st : state) (ws : list Z) : state :=
  match fuel with
  | O => st
  | S fuel' =>
      match ws with
      | [] => st
      | _ => blocks fuel' (block st (firstn 16 ws)) (skipn 16 ws)
      end
  end.

Definition digest (msg : list Z) : list Z :=
  let bs := pad msg in
  let ws := words (length bs) bs in
  let st := blocks (length ws) init ws in
  le_bytes 4 (sa st) ++ le_bytes 4 (sb st) ++ le_bytes 4 (sc st)
    ++ le_bytes 4 (sd st).

Definition hex_digit (x : Z) : ascii :=
  nth (Z.to_nat x) (list_ascii_of_string "0123456789abcdef") "0"%char.

Definition hex (bs : list Z) : string :=
  string_of_list_ascii
    (flat_map (fun b => [hex_digit (Z.shiftr b 4); hex_digit (Z.land b 0xf)]) bs).

End MD5.

Definition bytes := list Byte.byte.

Definition Z_of_byte (b : Byte.byte) : Z := Z.of_N (Byte.to_N b).

(** [hashlib.md5(data).hexdigest()] *)
Definition md5_hexdigest (data : bytes) : string :=
  MD5.hex (MD5.digest (map Z_of_byte data)).

Definition ascii_bytes (s : string) : bytes := list_byte_of_string s.

Example md5_empty :
  md5_hexdigest [] = "d41d8cd98f00b204e9800998ecf8427e".
Proof. vm_compute. reflexivity. Qed.

Example md5_abc :
  md5_hexdigest (ascii_bytes "abc") = "900150983cd24fb0d6963f7d28e17f72".
Proof. vm_compute. reflexivity. Qed.

Example md5_message_digest :
  md5_hexdigest (ascii_bytes "message digest") = "f96b697d7cb7938d525a2f31aaf161d0".
Proof. vm_compute. reflexivity. Qed.

Example md5_two_blocks :
  md5_hexdigest (ascii_bytes
    "12345678901234567890123456789012345678901234567890123456789012345678901234567890")
  = "57edf4a22be3c955ac49da2e2107b67a".
Proof. vm_compute. reflexivity. Qed.

(** ** Strings

    The [str] methods the program uses. *)

Definition startswith (s pre : string) : bool := String.prefix pre s.

Fixpoint endswith (s suf : string) : bool :=
  if String.eqb s suf then true
  else match s with
       | "" => false
       | String _ s' => endswith s' suf
       end.

(** [c in s] for a one-character [c] *)
Fixpoint contains_char (c : ascii) (s : string) : bool :=
  match s with
  | "" => false
  | String c' s' => Ascii.eqb c c' || contains_char c s'
  end.

(** [s.replace(old, new)] for a non-empty [old]: the occurrences of [old]
    are found from left to right and do not overlap. [skip] counts the
    characters of an occurrence still to be passed over. *)
Fixpoint replace_go (old new : string) (skip : nat) (s : string) : string :=
  match s with
  | "" => ""
  | String c s' =>
      match skip with
      | S k => replace_go old new k s'
      | O =>
          if String.prefix old s
          then new +:+ replace_go old new (String.length old - 1) s'
          else String c (replace_go old new 0 s')
      end
  end.

Definition replace (old new s : string) : string := replace_go old new 0 s.

(** [s[1:]] *)
Definition drop1 (s : string) : string :=
  match s with
  | "" => ""
  | String _ s' => s'
  end.

(** [sep.join(parts)] *)
Fixpoint join (sep : string) (parts : list string) : string :=
  match parts with
  | [] => ""
  | [p] => p
  | p :: rest => p +:+ sep +:+ join sep rest
  end.

(** [s.split(sep)] for a one-character [sep] *)
Fixpoint split_go (sep : ascii) (cur : string) (s : string) : list string :=
  match s with
  | "" => [cur]
  | String c s' =>
      if Ascii.eqb c sep then cur :: split_go sep "" s'
      else split_go sep (cur +:+ String c "") s'
  end.

Definition split (sep : ascii) (s : string) : list string := split_go sep "" s.

(** [s.encode()]: UTF-8, for code points below 256 *)
Definition encode_char (c : ascii) : bytes :=
  let n := N_of_ascii c in
  if (n <? 128)%N then [byte_of_ascii c]
  else
    match Byte.of_N (192 + N.shiftr n 6), Byte.of_N (128 + N.land n 63) with
    | Some b1, Some b2 => [b1; b2]
    | _, _ => []
    end.

Definition encode (s : string) : bytes :=
  flat_map encode_char (list_ascii_of_string s).

Example encode_ascii : encode "a/b:c" = ascii_bytes "a/b:c".
Proof. reflexivity. Qed.

Example encode_latin1 :
  map Z_of_byte (encode (String (ascii_of_nat 233) "")) = [195%Z; 169%Z].
Proof. reflexivity. Qed.

(** ** re

    [re.escape] (Python 3.7 and later: only the characters that are special
    in a regular expression are escaped). *)

Definition re_special : list ascii :=
  list_ascii_of_string "()[]{}?*+-|^$\.&~# "
    ++ ["009"; "010"; "011"; "012"; "013"]%char.

Definition is_special (c : ascii) : bool :=
  existsb (Ascii.eqb c) re_special.

Fixpoint re_escape (s : string) : string :=
  match s with
  | "" => ""
  | String c s' =>
      if is_special c then String "\" (String c (re_escape s'))
      else String c (re_escape s')
  end.

Example re_escape_glob : re_escape "src/**/*.ts" = "src/\*\*/\*\.ts".
Proof. reflexivity. Qed.

Example replace_nonoverlapping : replace "aa" "b" "aaaaa" = "bba".
Proof. reflexivity. Qed.

Example split_path : split "/" "a//b/" = ["a"; ""; "b"; ""].
Proof. reflexivity. Qed.

(** The fragment of the regular-expression language that the compiled
    patterns use: characters, [.], [[^c]], [^], [$], non-capturing groups,
    alternation, [?] and a star on a single character or class. *)

Inductive cls :=
| CChar (c : ascii)
| CAny
| CNot (c : ascii).

Inductive regex :=
| REmpty
| RCls (k : cls)
| RBol
| REol
| RSeq (r1 r2 : regex)
| RAlt (r1 r2 : regex)
| ROpt (r : regex)
| RStar (k : cls).

Definition newline : ascii := "010"%char.

(** Without [re.DOTALL] the dot matches anything but a newline; a negated
    class matches anything but its character. *)
Definition cls_match (k : cls) (c : ascii) : bool :=
  match k with
  | CChar c' => Ascii.eqb c c'
  | CAny => negb (Ascii.eqb c newline)
  | CNot c' => negb (Ascii.eqb c c')
  end.

Definition is_meta (c : ascii) : bool :=
  existsb (Ascii.eqb c) (list_ascii_of_string ".^$*+?{}[]\|()").

Definition is_alnum (c : ascii) : bool :=
  let n := nat_of_ascii c in
  ((48 <=? n)%nat && (n <=? 57)%nat) || ((65 <=? n)%nat && (n <=? 90)%nat)
  || ((97 <=? n)%nat && (n <=? 122)%nat).

(** The parser reads the source from left to right. A frame holds what was
    read of a group so far: the alternatives that are complete and the atoms
    of the alternative being read, both latest first, and whether the latest
    atom may take a quantifier (a second quantifier, which makes the lazy
    and possessive forms, is outside the fragment, and so is a star on
    anything but a single character or class). *)
Record frame := {
  alts : list regex;
  atoms : list regex;
  quant_ok : bool
}.

Definition empty_frame : frame :=
  {| alts := []; atoms := []; quant_ok := false |}.

Definition push (f : frame) (a : regex) (q : bool) : frame :=
  {| alts := alts f; atoms := a :: atoms f; quant_ok := q |}.

Definition close_seq (atoms : list regex) : regex :=
  fold_left (fun acc a => RSeq a acc) atoms REmpty.

Fixpoint close_alts (alts : list regex) (last : regex) : regex :=
  match alts with
  | [] => last
  | r :: alts' => close_alts alts' (RAlt r last)
  end.

Definition close_frame (f : frame) : regex :=
  close_alts (alts f) (close_seq (atoms f)).

Fixpoint parse_go (cur : frame) (stack : list frame) (s : string)
    : option regex :=
  match s with
  | "" =>
      match stack with
      | [] => Some (close_frame cur)
      | _ :: _ => None
      end
  | String "(" (String "?" (String ":" s')) =>
      parse_go empty_frame (cur :: stack) s'
  | String ")" s' =>
      match stack with
      | [] => None
      | f :: stack' => parse_go (push f (close_frame cur) true) stack' s'
      end
  | String "|" s' =>
      parse_go {| alts := close_seq (atoms cur) :: alts cur;
                  atoms := [];
                  quant_ok := false |} stack s'
  | String "*" s' =>
      match atoms cur, quant_ok cur with
      | RCls k :: rest, true =>
          parse_go {| alts := alts cur; atoms := RStar k :: rest;
                      quant_ok := false |} stack s'
      | _, _ => None
      end
  | String "?" s' =>
      match atoms cur, quant_ok cur with
      | a :: rest, true =>
          parse_go {| alts := alts cur; atoms := ROpt a :: rest;
                      quant_ok := false |} stack s'
      | _, _ => None
      end
  | String "\" (String c s') =>
      if is_alnum c then None
      else parse_go (push cur (RCls (CChar c)) true) stack s'
  | String "." s' => parse_go (push cur (RCls CAny) true) stack s'
  | String "^" s' => parse_go (push cur RBol false) stack s'
  | String "$" s' => parse_go (push cur REol false) stack s'
  | String "[" (String "^" (String c (String "]" s'))) =>
      if is_meta c || Ascii.eqb c "-" then None
      else parse_go (push cur (RCls (CNot c)) true) stack s'
  | String c s' =>
      if is_meta c then None
      else parse_go (push cur (RCls (CChar c)) true) stack s'
  end.

(** [re.compile(source)]; [None] stands for [re.error] (and for a source
    outside the fragment). *)
Definition re_compile (source : string) : option regex :=
  parse_go empty_frame [] source.

(** Whether [s] is at the end of the subject or at the newline that ends
    it: the two places where [$] matches. *)
Definition at_eol (s : string) : bool :=
  match s with
  | "" => true
  | String c "" => Ascii.eqb c newline
  | _ => false
  end.

(** A backtracking matcher: [accept r bol s k] tries every way of matching
    [r] at the front of [s] and hands what is left to [k]; [bol] tells
    whether [s] is the whole subject, that is, the position is its start. *)
Fixpoint accept (r : regex) (bol : bool) (s : string)
    (k : bool -> string -> bool) : bool :=
  match r with
  | REmpty => k bol s
  | RCls c =>
      match s with
      | String x s' => cls_match c x && k false s'
      | "" => false
      end
  | RBol => bol && k bol s
  | REol => at_eol s && k bol s
  | RSeq r1 r2 => accept r1 bol s (fun b s' => accept r2 b s' k)
  | RAlt r1 r2 => accept r1 bol s k || accept r2 bol s k
  | ROpt r1 => accept r1 bol s k || k bol s
  | RStar c =>
      (fix star (b : bool) (t : string) : bool :=
         k b t
         || match t with
            | String x t' => cls_match c x && star false t'
            | "" => false
            end) bol s
  end.

(** [pattern.search(s)]: a match may start at any position. *)
Fixpoint search_from (r : regex) (bol : bool) (s : string) : bool :=
  accept r bol s (fun _ _ => true)
  || match s with
     | String _ s' => search_from r false s'
     | "" => false
     end.

Definition re_search (r : regex) (s : string) : bool := search_from r true s.

(** ** PatternMatcher *)

(** The loop body of [PatternMatcher.__init__]: one pattern to its part of
    the regular expression. *)
Definition pattern_regex (pattern : string) : string :=
  let reg := re_escape pattern in
  let reg := replace "\*\*/" "(?:.*/)?" reg in
  let reg := replace "\*\*" ".*" reg in
  let reg := replace "\*" "[^/]*" reg in
  let reg := replace "\?" "." reg in
  let reg := if endswith pattern "/" then reg +:+ ".*" else reg in
  let reg :=
    if startswith pattern "/" then "^" +:+ drop1 reg
    else "(?:^|.*/)" +:+ reg in
  "(?:" +:+ reg +:+ "$)".

(** The source handed to [re.compile]; [None] for an empty pattern list. *)
Definition matcher_source (patterns : list string) : option string :=
  match patterns with
  | [] => None
  | _ => Some (join "|" (map pattern_regex patterns))
  end.

(** A matcher holds its pattern list; [regex] is the [self.regex] that
    [__init__] computes from it. *)
Record PatternMatcher := { patterns : list string }.

Definition regex_of (m : PatternMatcher) : option regex :=
  match matcher_source (patterns m) with
  | None => None
  | Some src => re_compile src
  end.

Definition matches (m : PatternMatcher) (path : string) : bool :=
  match regex_of m with
  | None => false
  | Some r => re_search r path
  end.

Example pattern_regex_ts :
  pattern_regex "src/**/*.ts" = "(?:(?:^|.*/)src/(?:.*/)?[^/]*\.ts$)".
Proof. reflexivity. Qed.

Example pattern_regex_anchored :
  pattern_regex "/build/" = "(?:^build/.*$)".
Proof. reflexivity. Qed.

Example compile_all :
  re_compile "(?:(?:^|.*/)(?:.*/)?[^/]*$)"
  = Some (RSeq (RSeq (RAlt (RSeq RBol REmpty)
                        (RSeq (RStar CAny) (RSeq (RCls (CChar "/")) REmpty)))
                 (RSeq (ROpt (RSeq (RStar CAny) (RSeq (RCls (CChar "/")) REmpty)))
                    (RSeq (RStar (CNot "/")) (RSeq REol REmpty)))) REmpty).
Proof. reflexivity. Qed.

Example matches_ts :
  matches {| patterns := ["src/**/*.ts"] |} "pkg/src/a/b/c.ts" = true
  /\ matches {| patterns := ["src/**/*.ts"] |} "src/c.ts" = true
  /\ matches {| patterns := ["src/**/*.ts"] |} "mysrc/c.ts" = false
  /\ matches {| patterns := ["src/**/*.ts"] |} "src/c.tsx" = false
  /\ matches {| patterns := ["*.log"; "/build/"] |} "a/b/debug.log" = true
  /\ matches {| patterns := ["*.log"; "/build/"] |} "build/x/y" = true
  /\ matches {| patterns := ["*.log"; "/build/"] |} "a/build/x" = false
  /\ matches {| patterns := [] |} "a" = false.
Proof. vm_compute. repeat split. Qed.

(** ** Ordering and [sorted]

    Python orders strings by code point, and lists and tuples
    lexicographically by their elements. [sorted] is a merge sort. *)

Class Ordered (A : Type) := {
  cmp : A -> A -> comparison;
  cmp_eq : forall x y, cmp x y = Eq <-> x = y;
  cmp_opp : forall x y, cmp y x = CompOpp (cmp x y);
  cmp_trans : forall x y z, cmp x y = Lt -> cmp y z = Lt -> cmp x z = Lt
}.

Definition cmple {A} `{Ordered A} (x y : A) : Prop := cmp x y <> Gt.
Definition cmplt {A} `{Ordered A} (x y : A) : Prop := cmp x y = Lt.

Definition sorted {A} `{Ordered A} (l : list A) : list A :=
  merge_sort cmple l.

Fixpoint list_cmp {A} (c : A -> A -> comparison) (l1 l2 : list A)
    : comparison :=
  match l1, l2 with
  | [], [] => Eq
  | [], _ :: _ => Lt
  | _ :: _, [] => Gt
  | x :: l1', y :: l2' =>
      match c x y with
      | Eq => list_cmp c l1' l2'
      | ne => ne
      end
  end.

Definition pair_cmp {A B} (ca : A -> A -> comparison)
    (cb : B -> B -> comparison) (p q : A * B) : comparison :=
  match ca (fst p) (fst q) with
  | Eq => cb (snd p) (snd q)
  | ne => ne
  end.

Section OrderedFacts.
Context {A : Type} `{Ordered A}.

Lemma cmp_refl (x : A) : cmp x x = Eq.
Proof. apply cmp_eq. reflexivity. Qed.

Lemma cmp_gt_lt (x y : A) : cmp x y = Gt <-> cmp y x = Lt.
Proof.
  rewrite (cmp_opp x y). destruct (cmp x y); simpl; split; congruence.
Qed.

Global Instance cmple_dec (x y : A) : Decision (cmple x y).
Proof. unfold cmple. destruct (cmp x y); [left|left|right]; congruence. Defined.

Global Instance cmple_total : Total (cmple (A:=A)).
Proof.
  intros x y. unfold cmple. destruct (cmp x y) eqn:E.
  - left; congruence.
  - left; congruence.
  - right. apply cmp_gt_lt in E. congruence.
Qed.

Global Instance cmple_trans : Transitive (cmple (A:=A)).
Proof.
  intros x y z. unfold cmple. intros Hxy Hyz.
  destruct (cmp x y) eqn:Exy; [| |congruence].
  - apply cmp_eq in Exy. subst. exact Hyz.
  - destruct (cmp y z) eqn:Eyz; [| |congruence].
    + apply cmp_eq in Eyz. subst. congruence.
    + rewrite (cmp_trans x y z Exy Eyz). congruence.
Qed.

Global Instance cmple_antisym : AntiSymm eq (cmple (A:=A)).
Proof.
  intros x y. unfold cmple. intros Hxy Hyx.
  destruct (cmp x y) eqn:E.
  - apply cmp_eq. exact E.
  - exfalso. apply Hyx. apply cmp_gt_lt. exact E.
  - congruence.
Qed.

Lemma cmplt_le (x y : A) : cmplt x y -> cmple x y.
Proof. unfold cmplt, cmple. congruence. Qed.

Lemma cmplt_not_le (x y : A) : cmplt x y <-> ~ cmple y x.
Proof.
  unfold cmplt, cmple. rewrite cmp_gt_lt. destruct (cmp x y); split; try congruence.
  - intros Hn. exfalso. apply Hn. congruence.
  - intros Hn. exfalso. apply Hn. congruence.
Qed.

Lemma sorted_StronglySorted (l : list A) : StronglySorted cmple (sorted l).
Proof. apply StronglySorted_merge_sort; apply _. Qed.

Lemma sorted_Permutation (l : list A) : Permutation (sorted l) l.
Proof. apply merge_sort_Permutation. Qed.

Lemma sorted_In (l : list A) (x : A) : In x (sorted l) <-> In x l.
Proof.
  split; apply Permutation_in;
    [apply sorted_Permutation | symmetry; apply sorted_Permutation].
Qed.

(** The result of [sorted] does not depend on the order of its input. *)
Lemma sorted_perm_eq (l1 l2 : list A) :
  Permutation l1 l2 -> sorted l1 = sorted l2.
Proof.
  intros Hp.
  apply (StronglySorted_unique cmple); try apply sorted_StronglySorted.
  rewrite !sorted_Permutation. exact Hp.
Qed.

(** Lexicographic order on lists. *)
Lemma list_cmp_eq (l1 l2 : list A) : list_cmp cmp l1 l2 = Eq <-> l1 = l2.
Proof.
  revert l2. induction l1 as [|x l1 IH]; intros [|y l2]; simpl;
    try (split; congruence).
  destruct (cmp x y) eqn:E.
  - apply cmp_eq in E. subst. rewrite IH. split; congruence.
  - split; [congruence|]. intros [= -> _]. rewrite cmp_refl in E. congruence.
  - split; [congruence|]. intros [= -> _]. rewrite cmp_refl in E. congruence.
Qed.

Lemma list_cmp_opp (l1 l2 : list A) :
  list_cmp cmp l2 l1 = CompOpp (list_cmp cmp l1 l2).
Proof.
  revert l2. induction l1 as [|x l1 IH]; intros [|y l2]; simpl; try reflexivity.
  rewrite (cmp_opp x y). destruct (cmp x y); simpl; auto.
Qed.

Lemma list_cmp_trans (l1 l2 l3 : list A) :
  list_cmp cmp l1 l2 = Lt -> list_cmp cmp l2 l3 = Lt ->
  list_cmp cmp l1 l3 = Lt.
Proof.
  revert l2 l3.
  induction l1 as [|x l1 IH]; intros [|y l2] [|z l3]; simpl; try congruence.
  destruct (cmp x y) eqn:Exy; try congruence.
  - apply cmp_eq in Exy. subst y.
    destruct (cmp x z) eqn:Exz; try congruence. apply IH.
  - destruct (cmp y z) eqn:Eyz; try congruence.
    + apply cmp_eq in Eyz. subst z. rewrite Exy. reflexivity.
    + rewrite (cmp_trans x y z Exy Eyz). reflexivity.
Qed.
End OrderedFacts.

Section PairOrdered.
Context {A B : Type} `{Ordered A} `{Ordered B}.

Lemma pair_cmp_eq (p q : A * B) : pair_cmp cmp cmp p q = Eq <-> p = q.
Proof.
  destruct p as [a b], q as [a' b']. unfold pair_cmp. simpl.
  destruct (cmp a a') eqn:E.
  - apply cmp_eq in E. subst. rewrite cmp_eq. split; congruence.
  - split; [congruence|]. intros [= -> _]. rewrite cmp_refl in E. congruence.
  - split; [congruence|]. intros [= -> _]. rewrite cmp_refl in E. congruence.
Qed.

Lemma pair_cmp_opp (p q : A * B) :
  pair_cmp cmp cmp q p = CompOpp (pair_cmp cmp cmp p q).
Proof.
  destruct p as [a b], q as [a' b']. unfold pair_cmp. simpl.
  rewrite (cmp_opp a a'). destruct (cmp a a'); simpl; auto using cmp_opp.
Qed.

Lemma pair_cmp_trans (p q r : A * B) :
  pair_cmp cmp cmp p q = Lt -> pair_cmp cmp cmp q r = Lt ->
  pair_cmp cmp cmp p r = Lt.
Proof.
  destruct p as [a b], q as [a' b'], r as [a'' b'']. unfold pair_cmp. simpl.
  destruct (cmp a a') eqn:E1; try congruence.
  - apply cmp_eq in E1. subst a'.
    destruct (cmp a a'') eqn:E2; try congruence. apply cmp_trans.
  - destruct (cmp a' a'') eqn:E2; try congruence.
    + apply cmp_eq in E2. subst a''. rewrite E1. reflexivity.
    + rewrite (cmp_trans a a' a'' E1 E2). reflexivity.
Qed.
End PairOrdered.

Lemma ascii_compare_trans (a b c : ascii) :
  Ascii.compare a b = Lt -> Ascii.compare b c = Lt -> Ascii.compare a c = Lt.
Proof.
  unfold Ascii.compare. rewrite !N.compare_lt_iff. lia.
Qed.

Lemma ascii_compare_refl (a : ascii) : Ascii.compare a a = Eq.
Proof. unfold Ascii.compare. apply N.compare_refl. Qed.

Lemma string_compare_refl (s : string) : String.compare s s = Eq.
Proof.
  induction s as [|c s IH]; simpl; [reflexivity|].
  rewrite ascii_compare_refl. exact IH.
Qed.

Lemma string_compare_trans (s1 s2 s3 : string) :
  String.compare s1 s2 = Lt -> String.compare s2 s3 = Lt ->
  String.compare s1 s3 = Lt.
Proof.
  revert s2 s3.
  induction s1 as [|a s1 IH]; intros [|b s2] [|c s3]; simpl; try congruence.
  destruct (Ascii.compare a b) eqn:Eab; try congruence.
  - apply Ascii.compare_eq_iff in Eab. subst b.
    destruct (Ascii.compare a c) eqn:Eac; try congruence. apply IH.
  - destruct (Ascii.compare b c) eqn:Ebc; try congruence.
    + apply Ascii.compare_eq_iff in Ebc. subst c. rewrite Eab. reflexivity.
    + rewrite (ascii_compare_trans a b c Eab Ebc). reflexivity.
Qed.

#[global] Program Instance string_Ordered : Ordered string :=
  {| cmp := String.compare |}.
Next Obligation.
  intros x y. split; [apply String.compare_eq_iff|].
  intros ->. apply string_compare_refl.
Qed.
Next Obligation. intros x y. apply String.compare_antisym. Qed.
Next Obligation. exact string_compare_trans. Qed.

#[global] Instance list_Ordered {A} `{Ordered A} : Ordered (list A) :=
  {| cmp := list_cmp cmp;
     cmp_eq := list_cmp_eq;
     cmp_opp := list_cmp_opp;
     cmp_trans := list_cmp_trans |}.

#[global] Instance pair_Ordered {A B} `{Ordered A} `{Ordered B}
    : Ordered (A * B) :=
  {| cmp := pair_cmp cmp cmp;
     cmp_eq := pair_cmp_eq;
     cmp_opp := pair_cmp_opp;
     cmp_trans := pair_cmp_trans |}.

Example sorted_strings : sorted ["b"; "a/y"; "a.b"; "a"] = ["a"; "a.b"; "a/y"; "b"].
Proof. vm_compute. reflexivity. Qed.

Example sorted_parts :
  sorted [["b"]; ["a"; "y"]; ["a.b"]; ["a"]] = [["a"]; ["a"; "y"]; ["a.b"]; ["b"]].
Proof. vm_compute. reflexivity. Qed.

(** ** pathlib and os

    A [Path] is the list of its parts, as [PurePosixPath.parts] gives them:
    an absolute path starts with the part ["/"] (or ["//"]). *)

Definition Path := list string.

Definition skipped_part (x : string) : bool :=
  String.eqb x "" || String.eqb x ".".

(** [Path(s).parts]: empty and ["."] components are dropped. *)
Definition path_parts (s : string) : Path :=
  let names := List.filter (fun x => negb (skipped_part x)) (split "/" s) in
  if startswith s "/" then
    (if startswith s "//" && negb (startswith s "///") then "//" else "/")
      :: names
  else names.

(** [p / s]: an absolute [s] replaces [p]. *)
Definition path_div (p : Path) (s : string) : Path :=
  if startswith s "/" then path_parts s else p ++ path_parts s.

Inductive exn := KeyError | ValueError | TypeError | AttributeError.

Inductive result (A : Type) :=
| Ok (a : A)
| Raise (e : exn).
Arguments Ok {A} a.
Arguments Raise {A} e.

#[global] Instance result_bind : MBind result :=
  fun A B (f : A -> result B) (r : result A) =>
    match r with
    | Ok a => f a
    | Raise e => Raise e
    end.

#[global] Instance result_ret : MRet result := fun A a => Ok a.

(** [f.relative_to(root)] raises [ValueError] when [f] is not below [root]. *)
Fixpoint relative_to (f root : Path) {struct root} : result Path :=
  match root with
  | [] => Ok f
  | r :: root' =>
      match f with
      | x :: f' => if String.eqb r x then relative_to f' root' else Raise ValueError
      | [] => Raise ValueError
      end
  end.

(** [str(p)] *)
Definition path_str (p : Path) : string :=
  match p with
  | [] => "."
  | first :: rest =>
      if String.eqb first "/" || String.eqb first "//"
      then first +:+ join "/" rest
      else join "/" p
  end.

(** [os.path.join(a, b)] *)
Definition os_path_join (a b : string) : string :=
  if startswith b "/" then b
  else if String.eqb a "" || endswith a "/" then a +:+ b
  else a +:+ "/" +:+ b.

(** The tree below the tracked root, each directory with its entries in the
    order in which the file system enumerates them. *)
#[warnings="-register-all"]
Inductive entry :=
| File (name : string)
| Dir (name : string) (children : list entry).

Definition file_names (es : list entry) : list string :=
  flat_map (fun e => match e with File n => [n] | Dir _ _ => [] end) es.

(** [os.walk(top)], top-down. [keep] is the filter that the caller applies to
    [dirnames] in place after each step, which decides where the walk
    descends. A step is given by the names from [top] down to the directory
    and by the names of the files in it. *)
Fixpoint os_walk_dir (keep : string -> bool) (rel : list string) (e : entry)
    : list (list string * list string) :=
  match e with
  | File _ => []
  | Dir name children =>
      if keep name then
        (rel ++ [name], file_names children)
          :: flat_map (os_walk_dir keep (rel ++ [name])) children
      else []
  end.

Definition os_walk (keep : string -> bool) (top : list entry)
    : list (list string * list string) :=
  ([], file_names top) :: flat_map (os_walk_dir keep []) top.

(** [os.path.relpath(dirpath, root_str)] for a [dirpath] that the walk of
    [root_str] reports: the names from the root down, or ["."] . *)
Definition relpath (rel : list string) : string :=
  match rel with
  | [] => "."
  | _ => join "/" rel
  end.

(** ** select_files *)

Definition not_hidden (d : string) : bool := negb (startswith d ".").

(** The relative path that the loop computes for [filename] in the directory
    [rel]. *)
Definition rel_path_of (rel : list string) (filename : string) : string :=
  let rel_dir := relpath rel in
  let rel_dir := if String.eqb rel_dir "." then "" else rel_dir in
  let rel_path := replace "\" "/" (os_path_join rel_dir filename) in
  if startswith rel_path "./" then drop1 (drop1 rel_path) else rel_path.

Section SelectFiles.
Variable root : Path.
Variables include_patterns exclude_patterns exceptions gitignore_patterns
  : list string.

Let include_matcher := {| patterns := include_patterns |}.
Let exclude_matcher := {| patterns := exclude_patterns |}.
Let gitignore_matcher := {| patterns := gitignore_patterns |}.
Let exception_set : gset string := list_to_set exceptions.

(** The body of the inner loop; [continue] leaves [selected] as it is. *)
Definition select_file (rel : list string) (selected : list Path)
    (filename : string) : list Path :=
  let rel_path := rel_path_of rel filename in
  if matches gitignore_matcher rel_path then selected
  else if matches exclude_matcher rel_path
          && negb (bool_decide (rel_path ∈ exception_set))
  then selected
  else if matches include_matcher rel_path
          || bool_decide (rel_path ∈ exception_set)
  then selected ++ [path_div root rel_path]
  else selected.

Definition select_dir (selected : list Path)
    (step : list string * list string) : list Path :=
  fold_left (select_file (fst step)) (snd step) selected.

Definition select_files (tree : list entry) : list Path :=
  sorted (fold_left select_dir (os_walk not_hidden tree) []).

End SelectFiles.

Definition demo_tree : list entry :=
  [ File ".gitignore"; File "debug.log"; File "a.b";
    Dir "a" [File "y"; File "x.log"];
    Dir ".git" [File "config"];
    Dir "src" [Dir "lib" [File "m.py"; File ".env"]] ].

Example select_demo :
  select_files ["/"; "r"] ["**/*"] ["*.log"] ["debug.log"] [] demo_tree
  = [ ["/"; "r"; ".gitignore"]; ["/"; "r"; "a"; "y"]; ["/"; "r"; "a.b"];
      ["/"; "r"; "debug.log"]; ["/"; "r"; "src"; "lib"; ".env"];
      ["/"; "r"; "src"; "lib"; "m.py"] ].
Proof. vm_compute. reflexivity. Qed.

(** ** Hashing *)

(** What opening a file and reading it chunk by chunk gives: the chunks, then
    the end of the file or an [OSError]. *)
Inductive reads :=
| Eof
| Chunk (data : bytes) (rest : reads)
| ReadError.

Inductive file_io :=
| OpenError
| Opened (r : reads).

(** The loop [for chunk in iter(lambda: f.read(8192), b"")]: it ends at the
    first empty chunk. The hasher is the data it was fed so far. [None] is
    the [OSError] leaving the loop. *)
Fixpoint hash_chunks (hasher : bytes) (r : reads) : option bytes :=
  match r with
  | Eof => Some hasher
  | Chunk [] _ => Some hasher
  | Chunk data rest => hash_chunks (hasher ++ data) rest
  | ReadError => None
  end.

Definition compute_file_hash (io : Path -> file_io) (filepath : Path) : string :=
  match io filepath with
  | OpenError => ""
  | Opened r =>
      match hash_chunks [] r with
      | Some hasher => md5_hexdigest hasher
      | None => ""
      end
  end.

(** A [Dict[str, str]], in insertion order. *)
Definition dict := list (string * string).

Fixpoint dict_set (d : dict) (k v : string) : dict :=
  match d with
  | [] => [(k, v)]
  | (k', v') :: d' =>
      if String.eqb k k' then (k, v) :: d' else (k', v') :: dict_set d' k v
  end.

Fixpoint dict_get (d : dict) (k : string) : option string :=
  match d with
  | [] => None
  | (k', v) :: d' => if String.eqb k k' then Some v else dict_get d' k
  end.

Definition keys (d : dict) : list string := map fst d.

(** The condition of the generator in [compute_folder_hash]. *)
Definition beneath (folder path : string) : bool :=
  startswith path (folder +:+ "/")
  || (String.eqb folder "." && negb (contains_char "/" path)).

Definition canonical_line (item : string * string) : bytes :=
  encode (fst item +:+ ":" +:+ snd item +:+ String newline "").

Definition compute_folder_hash (folder : string) (file_hashes : dict) : string :=
  let folder_files :=
    sorted (List.filter (fun item => beneath folder (fst item)) file_hashes) in
  match folder_files with
  | [] => ""
  | _ =>
      md5_hexdigest
        (fold_left (fun hasher item => hasher ++ canonical_line item)
           folder_files [])
  end.

(** [parts[: i + 1]] joined, for [i] in [range(len(parts))]. *)
Definition ancestors (parts : list string) : list string :=
  map (fun i => join "/" (firstn (i + 1) parts)) (seq 0 (length parts)).

Definition get_folders_with_files (files : list Path) (root : Path)
    : result (gset string) :=
  folders ← foldl
    (fun acc f =>
       folders ← acc;
       rel ← relative_to f root;
       mret (folders ∪ list_to_set (ancestors (removelast rel))))
    (Ok ∅) files;
  mret (folders ∪ {[ "." ]}).

(** The loop that fills [file_hashes]. *)
Definition hash_files (io : Path -> file_io) (files : list Path) (root : Path)
    : result dict :=
  foldl
    (fun acc f =>
       file_hashes ← acc;
       rel ← relative_to f root;
       mret (dict_set file_hashes (path_str rel) (compute_file_hash io f)))
    (Ok []) files.

(** The loop that fills [folder_hashes]; a set is iterated in an order of
    its own. *)
Definition hash_folders (folders : gset string) (file_hashes : dict) : dict :=
  foldl
    (fun folder_hashes folder =>
       dict_set folder_hashes folder (compute_folder_hash folder file_hashes))
    [] (elements folders).

Example folder_hash_demo :
  compute_folder_hash "a" [("a/y", "11"); ("b", "22"); ("a/c/x", "33")]
  = md5_hexdigest (ascii_bytes ("a/c/x:33" +:+ String newline "a/y:11" +:+ String newline "")).
Proof. vm_compute. reflexivity. Qed.

(** ** The state file *)

Definition VERSION : string := "1.0.0".

(** What [json.load] returns. *)
#[warnings="-register-all"]
Inductive json :=
| JNull
| JBool (b : bool)
| JNum (n : Z)
| JStr (s : string)
| JArr (items : list json)
| JObj (fields : list (string * json)).

(** [bool(j)] *)
Definition truthy (j : json) : bool :=
  match j with
  | JNull => false
  | JBool b => b
  | JNum n => negb (Z.eqb n 0)
  | JStr s => negb (String.eqb s "")
  | JArr items => match items with [] => false | _ => true end
  | JObj fields => match fields with [] => false | _ => true end
  end.

Fixpoint obj_get (fields : list (string * json)) (k : string) : option json :=
  match fields with
  | [] => None
  | (k', v) :: rest => if String.eqb k k' then Some v else obj_get rest k
  end.

Fixpoint obj_set (fields : list (string * json)) (k : string) (v : json)
    : list (string * json) :=
  match fields with
  | [] => [(k, v)]
  | (k', v') :: rest =>
      if String.eqb k k' then (k, v) :: rest else (k', v') :: obj_set rest k v
  end.

(** [j.get(k, default)] *)
Definition get_default (j : json) (k : string) (default : json) : result json :=
  match j with
  | JObj fields => Ok (from_option id default (obj_get fields k))
  | _ => Raise AttributeError
  end.

(** [j[k]] for a string [k] *)
Definition getitem (j : json) (k : string) : result json :=
  match j with
  | JObj fields =>
      match obj_get fields k with
      | Some v => Ok v
      | None => Raise KeyError
      end
  | _ => Raise TypeError
  end.

(** [j[k] = v] for a string [k] *)
Definition setitem (j : json) (k : string) (v : json) : result json :=
  match j with
  | JObj fields => Ok (JObj (obj_set fields k v))
  | _ => Raise TypeError
  end.

(** A pattern list read from the state file. Only a list of strings is
    modelled; [TypeError] stands for any other value. *)
Fixpoint as_strings (items : list json) : result (list string) :=
  match items with
  | [] => Ok []
  | JStr s :: rest => l ← as_strings rest; mret (s :: l)
  | _ :: _ => Raise TypeError
  end.

Definition as_str_list (j : json) : result (list string) :=
  match j with
  | JArr items => as_strings items
  | _ => Raise TypeError
  end.

Definition json_of_strings (l : list string) : json := JArr (map JStr l).

Definition json_of_dict (d : dict) : json :=
  JObj (map (fun item => (fst item, JStr (snd item))) d).

(** ** load_gitignore *)

Definition is_space (c : ascii) : bool :=
  let n := nat_of_ascii c in
  ((9 <=? n)%nat && (n <=? 13)%nat) || ((28 <=? n)%nat && (n <=? 32)%nat)
  || (n =? 133)%nat || (n =? 160)%nat.

Fixpoint lstrip (s : string) : string :=
  match s with
  | String c s' => if is_space c then lstrip s' else s
  | "" => ""
  end.

Fixpoint rstrip (s : string) : string :=
  match s with
  | String c s' =>
      match rstrip s' with
      | "" => if is_space c then "" else String c ""
      | t => String c t
      end
  | "" => ""
  end.

Definition strip (s : string) : string := rstrip (lstrip s).

(** The lines of a file opened in text mode. *)
Definition text_lines (text : string) : list string :=
  let cr := String "013" "" in
  let nl := String newline "" in
  split newline (replace cr nl (replace (cr +:+ nl) nl text)).

(** [text] is the content of [.gitignore] at the root, [None] when there is
    no such file. *)
Definition load_gitignore (text : option string) : list string :=
  match text with
  | None => []
  | Some t =>
      List.filter
        (fun line => negb (String.eqb line "") && negb (startswith line "#"))
        (map strip (text_lines t))
  end.

Example load_gitignore_demo :
  load_gitignore
    (Some ("# build" +:+ String newline ("  dist/ " +:+ String "013"
             (String newline (String newline ("*.log"))))))
  = ["dist/"; "*.log"].
Proof. vm_compute. reflexivity. Qed.

(** ** Commands

    What a command finds outside the program: the tree at the root, the text
    of [.gitignore], what reading each file gives, what [load_state] returns
    and the clock. *)

Record world := {
  tree : list entry;
  root_is_dir : bool;
  gitignore : option string;
  io : Path -> file_io;
  saved_state : option json;
  now : string
}.

Record args := {
  arg_root : Path;
  arg_include : option (list string);
  arg_exclude : option (list string);
  arg_exception : option (list string)
}.

(** [value or default] *)
Definition or_default (value : option (list string)) (default : list string)
    : list string :=
  match value with
  | Some (x :: l) => x :: l
  | _ => default
  end.

Definition as_object (j : json) : result (list (string * json)) :=
  match j with
  | JObj fields => Ok fields
  | _ => Raise AttributeError
  end.

(** What [cmd_init] returns, saves and the folders in which it creates an
    empty codemap. *)
Definition cmd_init (w : world) (a : args)
    : result (Z * option json * list string) :=
  let root := arg_root a in
  if negb (root_is_dir w) then mret (1%Z, None, [])
  else
    let gitignore := load_gitignore (gitignore w) in
    let include_patterns := or_default (arg_include a) ["**/*"] in
    let exclude_patterns := or_default (arg_exclude a) [] in
    let exceptions := or_default (arg_exception a) [] in
    let selected_files :=
      select_files root include_patterns exclude_patterns exceptions gitignore
        (tree w) in
    file_hashes ← hash_files (io w) selected_files root;
    folders ← get_folders_with_files selected_files root;
    let folder_hashes := hash_folders folders file_hashes in
    let state :=
      JObj [ ("metadata",
              JObj [ ("version", JStr VERSION);
                     ("last_run", JStr (now w));
                     ("root", JStr (path_str root));
                     ("include_patterns", json_of_strings include_patterns);
                     ("exclude_patterns", json_of_strings exclude_patterns);
                     ("exceptions", json_of_strings exceptions) ]);
             ("file_hashes", json_of_dict file_hashes);
             ("folder_hashes", json_of_dict folder_hashes) ] in
    mret (0%Z, Some state, elements folders).

(** The selection that [cmd_changes] and [cmd_update] make from the
    configuration stored in the state. *)
Definition select_from_state (w : world) (root : Path) (state : json)
    : result (list Path) :=
  metadata ← get_default state "metadata" (JObj []);
  include_patterns ←
    get_default metadata "include_patterns" (json_of_strings ["**/*"])
      ≫= as_str_list;
  exclude_patterns ←
    get_default metadata "exclude_patterns" (json_of_strings [])
      ≫= as_str_list;
  exceptions ←
    get_default metadata "exceptions" (json_of_strings []) ≫= as_str_list;
  let gitignore := load_gitignore (gitignore w) in
  mret (select_files root include_patterns exclude_patterns exceptions
          gitignore (tree w)).

Inductive report :=
| NoChanges
| Changes (added removed modified affected : gset string).

(** [current_hashes[path] != saved_hashes[path]] *)
Definition hash_differs (current_hashes : dict)
    (saved_hashes : list (string * json)) (path : string) : bool :=
  match dict_get current_hashes path, obj_get saved_hashes path with
  | Some h, Some (JStr h') => negb (String.eqb h h')
  | _, _ => true
  end.

(** The loop that collects the affected folders. *)
Definition affected_folders (changed : gset string) : gset string :=
  foldl
    (fun affected path =>
       affected ∪ list_to_set (ancestors (removelast (path_parts path)))
         ∪ {[ "." ]})
    ∅ (elements changed).

(** The comparison in [cmd_changes], from the two mappings on. *)
Definition detect_changes (current_hashes : dict)
    (saved_hashes : list (string * json)) : report :=
  let current_keys : gset string := list_to_set (keys current_hashes) in
  let saved_keys : gset string := list_to_set (map fst saved_hashes) in
  let added := current_keys ∖ saved_keys in
  let removed := saved_keys ∖ current_keys in
  let modified :=
    filter (fun path => hash_differs current_hashes saved_hashes path = true)
      (current_keys ∩ saved_keys) in
  if bool_decide (added = ∅) && bool_decide (removed = ∅)
     && bool_decide (modified = ∅)
  then NoChanges
  else Changes added removed modified
         (affected_folders (added ∪ removed ∪ modified)).

(** What [cmd_changes] returns and reports. *)
Definition cmd_changes (w : world) (root : Path)
    : result (Z * option report) :=
  match saved_state w with
  | None => mret (1%Z, None)
  | Some state =>
      if negb (truthy state) then mret (1%Z, None)
      else
        current_files ← select_from_state w root state;
        current_hashes ← hash_files (io w) current_files root;
        saved_hashes ← get_default state "file_hashes" (JObj []) ≫= as_object;
        mret (0%Z, Some (detect_changes current_hashes saved_hashes))
  end.

(** What [cmd_update] returns and saves. *)
Definition cmd_update (w : world) (root : Path) : result (Z * option json) :=
  match saved_state w with
  | None => mret (1%Z, None)
  | Some state =>
      if negb (truthy state) then mret (1%Z, None)
      else
        selected_files ← select_from_state w root state;
        file_hashes ← hash_files (io w) selected_files root;
        folders ← get_folders_with_files selected_files root;
        let folder_hashes := hash_folders folders file_hashes in
        metadata ← getitem state "metadata";
        metadata ← setitem metadata "last_run" (JStr (now w));
        state ← setitem state "metadata" metadata;
        state ← setitem state "file_hashes" (json_of_dict file_hashes);
        state ← setitem state "folder_hashes" (json_of_dict folder_hashes);
        mret (0%Z, Some state)
  end.

(** * Properties *)

(** ** Selection *)

(** The files that the walk meets: each with the directory it is in. *)
Definition walk_files (tree : list entry) : list (list string * string) :=
  flat_map (fun step => map (pair (fst step)) (snd step))
    (os_walk not_hidden tree).

(** [has_file tree rel filename]: the tree has a file [filename] in the
    directory reached from the root by the names [rel]. *)
Fixpoint has_file (tree : list entry) (rel : list string) (filename : string)
    : Prop :=
  match rel with
  | [] => In (File filename) tree
  | d :: rel' =>
      exists children, In (Dir d children) tree /\ has_file children rel' filename
  end.

Section SelectionFacts.
Variable root : Path.
Variables inc exc excs gi : list string.

Lemma in_exception_set (p : string) :
  bool_decide (p ∈ (list_to_set excs : gset string)) = true <-> In p excs.
Proof.
  rewrite bool_decide_eq_true, elem_of_list_to_set. apply list_elem_of_In.
Qed.

Lemma select_file_app (rel : list string) (selected : list Path) (fn : string) :
  select_file root inc exc excs gi rel selected fn
  = selected ++ select_file root inc exc excs gi rel [] fn.
Proof.
  unfold select_file.
  destruct (matches _ (rel_path_of rel fn)); [now rewrite app_nil_r|].
  destruct (matches {| patterns := exc |} _ && _); [now rewrite app_nil_r|].
  destruct (matches {| patterns := inc |} _ || _); [reflexivity|].
  now rewrite app_nil_r.
Qed.

Lemma select_dir_app (selected : list Path) (step : list string * list string) :
  select_dir root inc exc excs gi selected step
  = selected
    ++ flat_map (fun fn => select_file root inc exc excs gi (fst step) [] fn)
         (snd step).
Proof.
  unfold select_dir. generalize (snd step) as fns. intros fns.
  revert selected. induction fns as [|fn fns IH]; intros selected; simpl.
  - now rewrite app_nil_r.
  - rewrite IH, select_file_app, <- app_assoc. reflexivity.
Qed.

Lemma select_walk_app (selected : list Path)
    (steps : list (list string * list string)) :
  fold_left (select_dir root inc exc excs gi) steps selected
  = selected
    ++ flat_map (fun f => select_file root inc exc excs gi (fst f) [] (snd f))
         (flat_map (fun step => map (pair (fst step)) (snd step)) steps).
Proof.
  revert selected. induction steps as [|step steps IH]; intros selected; simpl.
  - now rewrite app_nil_r.
  - rewrite IH, select_dir_app, <- app_assoc. f_equal.
    rewrite flat_map_app. f_equal.
    generalize (snd step) as fns. induction fns as [|fn fns IHf]; simpl;
      [reflexivity|]. now rewrite IHf.
Qed.

(** The selected files before they are sorted. *)
Lemma select_files_unsorted (tree : list entry) :
  select_files root inc exc excs gi tree
  = sorted
      (flat_map (fun f => select_file root inc exc excs gi (fst f) [] (snd f))
         (walk_files tree)).
Proof. unfold select_files. rewrite select_walk_app. reflexivity. Qed.

Lemma select_file_In (rel : list string) (fn : string) (f : Path) :
  In f (select_file root inc exc excs gi rel [] fn) <->
  f = path_div root (rel_path_of rel fn)
  /\ matches {| patterns := gi |} (rel_path_of rel fn) = false
  /\ (matches {| patterns := exc |} (rel_path_of rel fn) = true ->
      In (rel_path_of rel fn) excs)
  /\ (matches {| patterns := inc |} (rel_path_of rel fn) = true
      \/ In (rel_path_of rel fn) excs).
Proof.
  unfold select_file. set (p := rel_path_of rel fn).
  pose proof (in_exception_set p) as Hin.
  destruct (matches {| patterns := gi |} p); simpl.
  { split; [tauto|]. intros (_ & Hgi & _). discriminate. }
  destruct (matches {| patterns := exc |} p),
    (bool_decide (p ∈ (list_to_set excs : gset string))),
    (matches {| patterns := inc |} p); simpl;
    intuition (try discriminate; auto).
Qed.

Lemma select_files_In (tree : list entry) (f : Path) :
  In f (select_files root inc exc excs gi tree) <->
  exists rel fn,
    In (rel, fn) (walk_files tree)
    /\ In f (select_file root inc exc excs gi rel [] fn).
Proof.
  rewrite select_files_unsorted, sorted_In, in_flat_map. split.
  - intros ([rel fn] & Hw & Hf). exists rel, fn. auto.
  - intros (rel & fn & Hw & Hf). exists (rel, fn). auto.
Qed.

End SelectionFacts.

(** Induction on a tree, with the hypothesis for every child. *)
Section EntryInduction.
Variable P : entry -> Prop.
Hypothesis HFile : forall n, P (File n).
Hypothesis HDir : forall n children, Forall P children -> P (Dir n children).

Fixpoint entry_induction (e : entry) : P e :=
  match e with
  | File n => HFile n
  | Dir n children =>
      HDir n children
        ((fix all (l : list entry) : Forall P l :=
            match l with
            | [] => List.Forall_nil P
            | x :: l' => List.Forall_cons P x l' (entry_induction x) (all l')
            end) children)
  end.
End EntryInduction.

Definition files_of_steps (steps : list (list string * list string))
    : list (list string * string) :=
  flat_map (fun step => map (pair (fst step)) (snd step)) steps.

Lemma files_of_steps_app (s1 s2 : list (list string * list string)) :
  files_of_steps (s1 ++ s2) = files_of_steps s1 ++ files_of_steps s2.
Proof. unfold files_of_steps. apply flat_map_app. Qed.

Lemma files_of_steps_flat_map {A} (g : A -> list (list string * list string))
    (l : list A) (x : list string * string) :
  In x (files_of_steps (flat_map g l))
  <-> exists a, In a l /\ In x (files_of_steps (g a)).
Proof.
  induction l as [|a l IH]; simpl.
  - split; [tauto|]. intros (a & [] & _).
  - rewrite files_of_steps_app, in_app_iff, IH. split.
    + intros [Ha|(b & Hb & Hx)]; [exists a; auto|exists b; auto].
    + intros (b & [<-|Hb] & Hx); [auto|right; exists b; auto].
Qed.

Lemma file_names_In (es : list entry) (fn : string) :
  In fn (file_names es) <-> In (File fn) es.
Proof.
  unfold file_names. rewrite in_flat_map. split.
  - intros ([n|n c] & He & Hin); simpl in Hin; [|tauto].
    destruct Hin as [<-|[]]. exact He.
  - intros He. exists (File fn). split; [exact He|left; reflexivity].
Qed.

Lemma walk_dir_In (e : entry) :
  forall rel0 rel fn,
    In (rel, fn) (files_of_steps (os_walk_dir not_hidden rel0 e)) <->
    exists name children rel',
      e = Dir name children /\ not_hidden name = true
      /\ rel = rel0 ++ name :: rel'
      /\ has_file children rel' fn
      /\ Forall (fun d => not_hidden d = true) rel'.
Proof.
  induction e as [n|n children IH] using entry_induction; intros rel0 rel fn.
  - simpl. split; [tauto|]. intros (name & cs & rel' & He & _). discriminate.
  - simpl. destruct (not_hidden n) eqn:Hn.
    2:{ simpl. split; [tauto|].
        intros (name & cs & rel' & [= -> ->] & Hk & _). congruence. }
    change (files_of_steps (?s :: ?l)) with
      (map (pair (fst s)) (snd s) ++ files_of_steps l).
    rewrite in_app_iff, files_of_steps_flat_map. simpl. split.
    + intros [Hhere|(c & Hc & Hin)].
      * apply in_map_iff in Hhere as (fn' & [= <- <-] & Hfn).
        exists n, children, []. repeat split; auto.
        simpl. now apply file_names_In.
      * rewrite List.Forall_forall in IH. apply (IH c Hc) in Hin.
        destruct Hin as (name & cs & rel' & -> & Hk & -> & Hhas & Hall).
        exists n, children, (name :: rel'). repeat split; auto.
        -- now rewrite <- app_assoc.
        -- simpl. exists cs. auto.
    + intros (name & cs & rel' & [= <- <-] & _ & -> & Hhas & Hall).
      destruct rel' as [|d rel'].
      * left. apply in_map_iff. exists fn. split; [reflexivity|].
        now apply file_names_In.
      * right. simpl in Hhas. destruct Hhas as (cs & Hcs & Hhas).
        exists (Dir d cs). split; [exact Hcs|].
        rewrite List.Forall_forall in IH. apply (IH _ Hcs).
        inversion Hall; subst.
        exists d, cs, rel'. repeat split; auto. now rewrite <- app_assoc.
Qed.

(** The walk meets exactly the files that no hidden directory leads to; the
    name of the file itself plays no part. *)
Lemma walk_files_In (tree : list entry) (rel : list string) (fn : string) :
  In (rel, fn) (walk_files tree) <->
  has_file tree rel fn /\ Forall (fun d => not_hidden d = true) rel.
Proof.
  unfold walk_files, os_walk.
  change (flat_map _ (?s :: ?l)) with
    (map (pair (fst s)) (snd s) ++ files_of_steps l).
  rewrite in_app_iff, files_of_steps_flat_map. simpl. split.
  - intros [Hhere|(c & Hc & Hin)].
    + apply in_map_iff in Hhere as (fn' & [= <- <-] & Hfn).
      split; [|constructor]. simpl. now apply file_names_In.
    + apply walk_dir_In in Hin.
      destruct Hin as (name & cs & rel' & -> & Hk & -> & Hhas & Hall).
      split; [|constructor; auto]. simpl. exists cs. auto.
  - intros [Hhas Hall]. destruct rel as [|d rel].
    + left. apply in_map_iff. exists fn. split; [reflexivity|].
      now apply file_names_In.
    + right. simpl in Hhas. destruct Hhas as (cs & Hcs & Hhas).
      exists (Dir d cs). split; [exact Hcs|]. apply walk_dir_In.
      inversion Hall; subst. exists d, cs, rel. repeat split; auto.
Qed.

(** C1. A file that the walk meets is selected exactly when the ignore-file
    matcher does not match its relative path (whether or not the path is an
    exception), the exclude matcher does not match it unless the path is a
    literal member of the exceptions, and the include matcher matches it or
    the path is a literal member of the exceptions. The result holds nothing
    that does not come from such a file. *)
Theorem select_files_precedence (root : Path) (inc exc excs gi : list string)
    (tree : list entry) (f : Path) :
  In f (select_files root inc exc excs gi tree) <->
  exists rel fn,
    In (rel, fn) (walk_files tree)
    /\ f = path_div root (rel_path_of rel fn)
    /\ matches {| patterns := gi |} (rel_path_of rel fn) = false
    /\ (matches {| patterns := exc |} (rel_path_of rel fn) = true ->
        In (rel_path_of rel fn) excs)
    /\ (matches {| patterns := inc |} (rel_path_of rel fn) = true
        \/ In (rel_path_of rel fn) excs).
Proof.
  rewrite select_files_In. split.
  - intros (rel & fn & Hw & Hf). exists rel, fn. split; [exact Hw|].
    now apply select_file_In.
  - intros (rel & fn & Hw & Hf). exists rel, fn. split; [exact Hw|].
    now apply select_file_In.
Qed.




(** C10. Only directories are pruned by name. A file whose name begins with
    a dot, in a directory that no hidden directory leads to (the root
    included), is met by the walk, and it is selected when an include pattern
    matches its relative path and no ignore-file or exclude pattern does. *)
Theorem hidden_file_selected (root : Path) (inc exc excs gi : list string)
    (tree : list entry) (rel : list string) (fn : string) :
  has_file tree rel fn ->
  Forall (fun d => not_hidden d = true) rel ->
  startswith fn "." = true ->
  In (rel, fn) (walk_files tree)
  /\ (matches {| patterns := inc |} (rel_path_of rel fn) = true ->
      matches {| patterns := gi |} (rel_path_of rel fn) = false ->
      matches {| patterns := exc |} (rel_path_of rel fn) = false ->
      In (path_div root (rel_path_of rel fn))
        (select_files root inc exc excs gi tree)).
Proof.
  intros Hhas Hdirs _.
  assert (Hw : In (rel, fn) (walk_files tree)) by (apply walk_files_In; auto).
  split; [exact Hw|]. intros Hinc Hgi Hexc.
  apply select_files_In. exists rel, fn. split; [exact Hw|].
  apply select_file_In. repeat split; auto. congruence.
Qed.

Lemma hidden_file_selected_witness :
  In (["src"; "lib"], ".env") (walk_files demo_tree)
  /\ In ["/"; "r"; "src"; "lib"; ".env"]
       (select_files ["/"; "r"] ["**/*"] ["*.log"] [] ["*.tmp"] demo_tree).
Proof.
  destruct (hidden_file_selected ["/"; "r"] ["**/*"] ["*.log"] [] ["*.tmp"]
              demo_tree ["src"; "lib"] ".env") as [Hw Hsel].
  - simpl. eexists. split; [do 5 right; left; reflexivity|].
    eexists. split; [left; reflexivity|]. simpl. auto.
  - repeat constructor.
  - reflexivity.
  - split; [exact Hw|]. apply Hsel; vm_compute; reflexivity.
Defined.

(** ** Order of the selection *)

Lemma relative_to_app (f root rel : Path) :
  relative_to f root = Ok rel -> f = root ++ rel.
Proof.
  revert f. induction root as [|r root IH]; intros f; simpl.
  - now intros [= ->].
  - destruct f as [|x f]; [discriminate|].
    destruct (String.eqb r x) eqn:E; [|discriminate].
    apply String.eqb_eq in E. subst x. intros Hrel. f_equal. now apply IH.
Qed.

Lemma relative_to_below (root rel : Path) :
  relative_to (root ++ rel) root = Ok rel.
Proof.
  induction root as [|r root IH]; simpl; [reflexivity|].
  now rewrite String.eqb_refl.
Qed.

(** Paths below the same root compare as what follows the root. *)
Lemma cmp_cons {A} `{Ordered A} (x y : A) (l1 l2 : list A) :
  cmp (x :: l1) (y :: l2) = match cmp x y with Eq => cmp l1 l2 | ne => ne end.
Proof. reflexivity. Qed.

Lemma cmp_below_root (root x y : Path) : cmp (root ++ x) (root ++ y) = cmp x y.
Proof.
  induction root as [|r root IH]; [reflexivity|].
  rewrite <- !app_comm_cons, cmp_cons, (cmp_refl r). exact IH.
Qed.

Lemma StronglySorted_lookup_le {A} `{Ordered A} (l : list A) (i j : nat) (a b : A) :
  StronglySorted cmple l -> l !! i = Some a -> l !! j = Some b -> i < j ->
  cmple a b.
Proof.
  intros Hs. revert i j. induction Hs as [|x l Hs IH Hx]; intros i j Hi Hj Hlt.
  - discriminate.
  - destruct j as [|j]; [lia|]. destruct i as [|i]; simpl in *.
    + injection Hi as <-. rewrite List.Forall_forall in Hx. apply Hx.
      apply list_elem_of_In. eapply list_elem_of_lookup_2. exact Hj.
    + apply (IH i j); auto. lia.
Qed.

(** In a sorted list, two different elements stand in their order. *)
Lemma sorted_lookup_lt {A} `{Ordered A} (l : list A) (i j : nat) (a b : A) :
  sorted l !! i = Some a -> sorted l !! j = Some b -> a <> b ->
  (i < j <-> cmplt a b).
Proof.
  intros Hi Hj Hne. pose proof (sorted_StronglySorted l) as Hs. split.
  - intros Hlt. pose proof (StronglySorted_lookup_le _ _ _ _ _ Hs Hi Hj Hlt) as Hle.
    unfold cmple in Hle. unfold cmplt. destruct (cmp a b) eqn:E; try congruence.
    apply cmp_eq in E. contradiction.
  - intros Hlt. destruct (Nat.lt_trichotomy i j) as [Hij|[Hij|Hij]]; [exact Hij| |].
    + subst j. congruence.
    + pose proof (StronglySorted_lookup_le _ _ _ _ _ Hs Hj Hi Hij) as Hle.
      apply cmplt_not_le in Hlt. contradiction.
Qed.

(** Two trees that differ only in the order in which directories list their
    entries. *)
Inductive reordered : list entry -> list entry -> Prop :=
| reordered_nil : reordered [] []
| reordered_file n es es' :
    reordered es es' -> reordered (File n :: es) (File n :: es')
| reordered_dir n c c' es es' :
    reordered c c' -> reordered es es' ->
    reordered (Dir n c :: es) (Dir n c' :: es')
| reordered_swap e1 e2 es : reordered (e1 :: e2 :: es) (e2 :: e1 :: es)
| reordered_trans es1 es2 es3 :
    reordered es1 es2 -> reordered es2 es3 -> reordered es1 es3.

(** The files met from a directory [rel0] with the entries [es] on. *)
Definition walk_from (rel0 : list string) (es : list entry)
    : list (list string * string) :=
  map (pair rel0) (file_names es)
    ++ files_of_steps (flat_map (os_walk_dir not_hidden rel0) es).

Definition walk_entry (rel0 : list string) (e : entry)
    : list (list string * string) :=
  match e with
  | File n => [(rel0, n)]
  | Dir n c => if not_hidden n then walk_from (rel0 ++ [n]) c else []
  end.

Lemma walk_files_from (tree : list entry) : walk_files tree = walk_from [] tree.
Proof. reflexivity. Qed.

Lemma walk_from_cons (rel0 : list string) (e : entry) (es : list entry) :
  Permutation (walk_from rel0 (e :: es)) (walk_entry rel0 e ++ walk_from rel0 es).
Proof.
  unfold walk_from. destruct e as [n|n c]; simpl.
  - reflexivity.
  - rewrite files_of_steps_app.
    destruct (not_hidden n); simpl; [|reflexivity].
    change (files_of_steps (?s :: ?l)) with
      (map (pair (fst s)) (snd s) ++ files_of_steps l). simpl.
    unfold walk_from. apply Permutation_app_swap_app.
Qed.

Lemma reordered_walk_from (es es' : list entry) :
  reordered es es' ->
  forall rel0, Permutation (walk_from rel0 es) (walk_from rel0 es').
Proof.
  induction 1 as [|n es es' _ IH|n c c' es es' _ IHc _ IH|e1 e2 es
                  |es1 es2 es3 _ IH1 _ IH2]; intros rel0.
  - reflexivity.
  - rewrite !walk_from_cons. apply Permutation_app_head, IH.
  - rewrite !walk_from_cons. apply Permutation_app; [|apply IH].
    simpl. destruct (not_hidden n); [apply IHc|reflexivity].
  - rewrite !walk_from_cons. rewrite !app_assoc.
    apply Permutation_app_tail, Permutation_app_comm.
  - etransitivity; [apply IH1|apply IH2].
Qed.

Lemma select_files_perm (root : Path) (inc exc excs gi : list string)
    (tree tree' : list entry) :
  Permutation (walk_files tree) (walk_files tree') ->
  select_files root inc exc excs gi tree = select_files root inc exc excs gi tree'.
Proof.
  intros Hp. rewrite !select_files_unsorted. apply sorted_perm_eq.
  now apply Permutation_flat_map.
Qed.

(** C7, as the specification states it, fails: below the root the file
    [a.b] and the directory [a] with a file [y] are selected in the order
    [a/y], [a.b], while the string ["a.b"] is smaller than ["a/y"]. *)
Lemma select_files_string_order_counterexample :
  ~ (forall (root : Path) (inc exc excs gi : list string) (tree : list entry)
       (i j : nat) (a b ra rb : Path),
        select_files root inc exc excs gi tree !! i = Some a ->
        select_files root inc exc excs gi tree !! j = Some b ->
        relative_to a root = Ok ra ->
        relative_to b root = Ok rb ->
        (i < j <-> cmplt (path_str ra) (path_str rb))).
Proof.
  intros H.
  destruct (H ["/"; "r"] ["**/*"] [] [] [] [File "a.b"; Dir "a" [File "y"]]
              0 1 ["/"; "r"; "a"; "y"] ["/"; "r"; "a.b"] ["a"; "y"] ["a.b"])
    as [Hlt _]; try (vm_compute; reflexivity).
  specialize (Hlt ltac:(lia)). vm_compute in Hlt. discriminate.
Qed.

(** C7, amended. The selected files are in the lexicographic order of their
    relative paths taken as sequences of components, each component compared
    as a string: of two different selected files the one with the smaller
    sequence comes first. The result is the same for every order in which
    the directories list their entries. *)
Theorem select_files_component_order (root : Path) (inc exc excs gi : list string)
    (tree : list entry) :
  (forall (i j : nat) (a b ra rb : Path),
      select_files root inc exc excs gi tree !! i = Some a ->
      select_files root inc exc excs gi tree !! j = Some b ->
      relative_to a root = Ok ra ->
      relative_to b root = Ok rb ->
      ra <> rb ->
      (i < j <-> cmplt ra rb))
  /\ (forall tree',
        reordered tree tree' ->
        select_files root inc exc excs gi tree'
        = select_files root inc exc excs gi tree).
Proof.
  split.
  - intros i j a b ra rb Hi Hj Ha Hb Hne.
    apply relative_to_app in Ha, Hb. subst a b.
    unfold select_files in Hi, Hj.
    rewrite (sorted_lookup_lt _ i j _ _ Hi Hj)
      by (intros Heq; apply app_inv_head in Heq; contradiction).
    unfold cmplt. now rewrite cmp_below_root.
  - intros tree' Hre. symmetry. apply select_files_perm.
    rewrite !walk_files_from. now apply reordered_walk_from.
Qed.

Lemma select_files_component_order_witness :
  (0 < 1 <-> cmplt ["a"; "y"] ["a.b"])
  /\ select_files ["/"; "r"] ["**/*"] [] [] [] [Dir "a" [File "y"]; File "a.b"]
     = select_files ["/"; "r"] ["**/*"] [] [] [] [File "a.b"; Dir "a" [File "y"]].
Proof.
  destruct (select_files_component_order ["/"; "r"] ["**/*"] [] [] []
              [File "a.b"; Dir "a" [File "y"]]) as [Hord Hperm].
  split.
  - apply (Hord 0 1 ["/"; "r"; "a"; "y"] ["/"; "r"; "a.b"]);
      try (vm_compute; reflexivity).
    vm_compute. discriminate.
  - apply Hperm. apply reordered_swap.
Defined.

(** ** Hashing of files *)

Lemma dict_set_fresh (d : dict) (k v : string) :
  ~ In k (keys d) -> dict_set d k v = d ++ [(k, v)].
Proof.
  unfold keys. induction d as [|[k' v'] d IH]; simpl; intros Hk; [reflexivity|].
  destruct (String.eqb k k') eqn:E.
  - apply String.eqb_eq in E. subst k'. tauto.
  - rewrite IH by tauto. reflexivity.
Qed.

Lemma dict_get_In (d : dict) (k v : string) :
  NoDup (keys d) -> In (k, v) d -> dict_get d k = Some v.
Proof.
  unfold keys. induction d as [|[k' v'] d IH]; simpl; intros Hnd Hin; [tauto|].
  apply NoDup_cons in Hnd as [Hk' Hnd].
  destruct Hin as [[= -> ->]|Hin].
  - now rewrite String.eqb_refl.
  - destruct (String.eqb k k') eqn:E; [|auto].
    apply String.eqb_eq in E. subst k'. exfalso. apply Hk'.
    apply list_elem_of_In, in_map_iff. exists (k, v). auto.
Qed.

Lemma hash_files_from (io : Path -> file_io) (root : Path) (rels : list Path)
    (d : dict) :
  NoDup (keys d ++ map path_str rels) ->
  foldl
    (fun acc f =>
       file_hashes ← acc;
       rel ← relative_to f root;
       mret (dict_set file_hashes (path_str rel) (compute_file_hash io f)))
    (Ok d) (map (app root) rels)
  = Ok (d ++ map (fun rel => (path_str rel, compute_file_hash io (root ++ rel)))
               rels).
Proof.
  revert d. induction rels as [|rel rels IH]; intros d Hnd; simpl.
  - now rewrite app_nil_r.
  - rewrite relative_to_below. simpl.
    rewrite dict_set_fresh.
    2:{ apply NoDup_app in Hnd as (_ & Hdis & _). intros Hin.
        apply (Hdis (path_str rel)); [now apply list_elem_of_In|].
        simpl. left. }
    rewrite IH.
    + now rewrite <- app_assoc.
    + unfold keys in *. rewrite map_app. simpl. now rewrite <- app_assoc.
Qed.

(** Every file below the root gets its entry, in the order of the files. *)
Lemma hash_files_below (io : Path -> file_io) (root : Path) (rels : list Path) :
  NoDup (map path_str rels) ->
  hash_files io (map (app root) rels) root
  = Ok (map (fun rel => (path_str rel, compute_file_hash io (root ++ rel))) rels).
Proof. intros Hnd. unfold hash_files. now rewrite hash_files_from. Qed.

(** C8. When a file cannot be opened, or a read of it fails, its hash is the
    empty string, and the loop over the files goes on: it returns a mapping
    in which every file has its entry and the unreadable one has the empty
    string. *)
Theorem unreadable_file_hash (io : Path -> file_io) (root : Path)
    (rels : list Path) (f : Path) :
  NoDup (map path_str rels) ->
  In f rels ->
  (io (root ++ f) = OpenError
   \/ exists r, io (root ++ f) = Opened r /\ hash_chunks [] r = None) ->
  compute_file_hash io (root ++ f) = ""
  /\ exists file_hashes,
       hash_files io (map (app root) rels) root = Ok file_hashes
       /\ dict_get file_hashes (path_str f) = Some ""
       /\ forall g, In g rels ->
            dict_get file_hashes (path_str g)
            = Some (compute_file_hash io (root ++ g)).
Proof.
  intros Hnd Hf Hfail.
  assert (Hempty : compute_file_hash io (root ++ f) = "").
  { unfold compute_file_hash.
    destruct Hfail as [->|(r & -> & ->)]; reflexivity. }
  split; [exact Hempty|]. eexists. split; [now apply hash_files_below|].
  assert (Hget : forall g, In g rels ->
            dict_get
              (map (fun rel => (path_str rel, compute_file_hash io (root ++ rel)))
                 rels) (path_str g)
            = Some (compute_file_hash io (root ++ g))).
  { intros g Hg. apply dict_get_In.
    - unfold keys. rewrite map_map. exact Hnd.
    - apply in_map_iff. exists g. auto. }
  split; [|exact Hget]. rewrite Hget by exact Hf. now rewrite Hempty.
Qed.

Definition demo_io (p : Path) : file_io :=
  if bool_decide (p = ["/"; "r"; "a"]) then OpenError
  else if bool_decide (p = ["/"; "r"; "b"])
       then Opened (Chunk (ascii_bytes "x") ReadError)
       else Opened (Chunk (ascii_bytes "ab") (Chunk (ascii_bytes "c") Eof)).

Lemma unreadable_file_hash_witness :
  compute_file_hash demo_io ["/"; "r"; "b"] = ""
  /\ exists file_hashes,
       hash_files demo_io [["/"; "r"; "a"]; ["/"; "r"; "b"]; ["/"; "r"; "c"]]
         ["/"; "r"] = Ok file_hashes
       /\ dict_get file_hashes "b" = Some ""
       /\ forall g, In g [["a"]; ["b"]; ["c"]] ->
            dict_get file_hashes (path_str g)
            = Some (compute_file_hash demo_io (["/"; "r"] ++ g)).
Proof.
  apply (unreadable_file_hash demo_io ["/"; "r"] [["a"]; ["b"]; ["c"]] ["b"]).
  - apply (bool_decide_unpack (NoDup (map path_str [["a"]; ["b"]; ["c"]]))).
    vm_compute. exact I.
  - simpl. auto.
  - right. eexists. split; reflexivity.
Defined.

Example hash_files_demo :
  hash_files demo_io [["/"; "r"; "a"]; ["/"; "r"; "b"]; ["/"; "r"; "c"]] ["/"; "r"]
  = Ok [("a", ""); ("b", ""); ("c", "900150983cd24fb0d6963f7d28e17f72")].
Proof. vm_compute. reflexivity. Qed.

(** ** Hashing of folders *)

(** The digest of a list of (path, digest) pairs: the hash of their canonical
    lines in sorted order, and the empty string for no pair. *)
Definition digest_of_items (items : dict) : string :=
  match sorted items with
  | [] => ""
  | folder_files => md5_hexdigest (concat (map canonical_line folder_files))
  end.

(** From the specification: [path] lies directly or transitively under
    [folder]; every path lies under the root ["."]. *)
Definition lies_under (folder path : string) : bool :=
  String.eqb folder "." || startswith path (folder +:+ "/").

Lemma fold_hasher (items : dict) (hasher : bytes) :
  fold_left (fun hasher item => hasher ++ canonical_line item) items hasher
  = hasher ++ concat (map canonical_line items).
Proof.
  revert hasher. induction items as [|item items IH]; intros hasher; simpl.
  - now rewrite app_nil_r.
  - rewrite IH. now rewrite <- app_assoc.
Qed.

Lemma compute_folder_hash_digest (folder : string) (file_hashes : dict) :
  compute_folder_hash folder file_hashes
  = digest_of_items
      (List.filter (fun item => beneath folder (fst item)) file_hashes).
Proof.
  unfold compute_folder_hash, digest_of_items.
  destruct (sorted _) as [|item items]; [reflexivity|].
  now rewrite fold_hasher.
Qed.

Lemma append_cons (c : ascii) (s t : string) :
  String c s +:+ t = String c (s +:+ t).
Proof. reflexivity. Qed.

Lemma append_nil (t : string) : "" +:+ t = t.
Proof. reflexivity. Qed.

Lemma append_assoc (s t u : string) : (s +:+ t) +:+ u = s +:+ t +:+ u.
Proof.
  induction s as [|c s IH]; [reflexivity|].
  rewrite !append_cons. now rewrite IH.
Qed.

Lemma startswith_app (s pre : string) :
  startswith s pre = true <-> exists rest, s = pre +:+ rest.
Proof.
  unfold startswith. revert s. induction pre as [|c pre IH]; intros s; simpl.
  - destruct s; split; eauto.
  - destruct s as [|c' s]; simpl.
    + split; [discriminate|]. intros (rest & Hrest). discriminate.
    + destruct (ascii_dec c c') as [->|Hne].
      * rewrite IH. split; intros (rest & Hrest); exists rest;
          rewrite append_cons in *; congruence.
      * split; [discriminate|]. intros (rest & Hrest).
        rewrite append_cons in Hrest. congruence.
Qed.

Lemma filter_ext_Forall {A} (f g : A -> bool) (l : list A) :
  Forall (fun x => f x = g x) l -> List.filter f l = List.filter g l.
Proof.
  induction 1 as [|x l Hx _ IH]; simpl; [reflexivity|].
  rewrite Hx, IH. reflexivity.
Qed.

Lemma Permutation_list_filter {A} (f : A -> bool) (l1 l2 : list A) :
  Permutation l1 l2 -> Permutation (List.filter f l1) (List.filter f l2).
Proof.
  induction 1 as [|x l1 l2 _ IH|x y l|l1 l2 l3 _ IH1 _ IH2]; simpl.
  - reflexivity.
  - destruct (f x); [now apply perm_skip|exact IH].
  - destruct (f x), (f y); try reflexivity. apply perm_swap.
  - etransitivity; eassumption.
Qed.

Lemma sorted_nil_inv {A} `{Ordered A} (l : list A) : sorted l = [] -> l = [].
Proof.
  intros Hs. apply Permutation_nil_r. rewrite <- Hs. symmetry.
  apply sorted_Permutation.
Qed.

Lemma sorted_by_path (items : dict) :
  StronglySorted (fun a b => cmple (fst a) (fst b)) (sorted items).
Proof.
  pose proof (sorted_StronglySorted items) as Hs.
  induction Hs as [|x l _ IH Hx]; constructor; [exact IH|].
  eapply Forall_impl; [exact Hx|]. intros [p d]. destruct x as [p' d'].
  unfold cmple. simpl. unfold pair_cmp. simpl.
  destruct (String.compare p' p); congruence.
Qed.

Lemma dict_get_set (d : dict) (k v k' : string) :
  dict_get (dict_set d k v) k'
  = if String.eqb k' k then Some v else dict_get d k'.
Proof.
  induction d as [|[k0 v0] d IH]; simpl.
  - reflexivity.
  - destruct (String.eqb k k0) eqn:E; simpl.
    + apply String.eqb_eq in E. subst k0. destruct (String.eqb k' k); reflexivity.
    + rewrite IH. destruct (String.eqb k' k0) eqn:E0; [|reflexivity].
      apply String.eqb_eq in E0. subst k0.
      rewrite String.eqb_sym, E. reflexivity.
Qed.

Lemma hash_folders_get (folders : gset string) (file_hashes : dict)
    (folder : string) :
  folder ∈ folders ->
  dict_get (hash_folders folders file_hashes) folder
  = Some (compute_folder_hash folder file_hashes).
Proof.
  intros Hin. apply elem_of_elements in Hin. unfold hash_folders.
  assert (Hgen : forall l d,
    folder ∈ l \/ dict_get d folder = Some (compute_folder_hash folder file_hashes) ->
    dict_get
      (foldl (fun folder_hashes folder =>
                dict_set folder_hashes folder
                  (compute_folder_hash folder file_hashes)) d l) folder
    = Some (compute_folder_hash folder file_hashes)).
  { induction l as [|x l IH]; intros d Hor; simpl.
    - destruct Hor as [Hl|Hd]; [inversion Hl|exact Hd].
    - apply IH. rewrite dict_get_set.
      destruct (String.eqb folder x) eqn:E.
      + apply String.eqb_eq in E. subst x. auto.
      + destruct Hor as [Hl|Hd]; [|auto].
        apply elem_of_cons in Hl as [->|Hl]; [|auto].
        rewrite String.eqb_refl in E. discriminate. }
  apply Hgen. auto.
Qed.

(** C2, as the specification states it, fails for the root: with one file,
    nested in [a], the digest of ["."] is the empty string and not the
    digest of the pair of that file. *)
Lemma root_digest_counterexample :
  ~ (forall (folder : string) (file_hashes : dict),
        compute_folder_hash folder file_hashes
        = digest_of_items
            (List.filter (fun item => lies_under folder (fst item)) file_hashes)).
Proof.
  intros H. specialize (H "." [("a/b.txt", "d1")]).
  vm_compute in H. discriminate.
Qed.

(** C2, amended. The digest of a folder other than the root is derived from
    all the pairs whose path lies directly or transitively under the folder,
    that is, begins with the folder's path and a slash. The digest of the
    root ["."] is derived from the pairs whose path has no slash only: a file
    nested in a subdirectory does not enter it. *)
Theorem folder_hash_scope (folder : string) (file_hashes : dict) :
  (folder <> "." ->
   compute_folder_hash folder file_hashes
   = digest_of_items
       (List.filter (fun item => lies_under folder (fst item)) file_hashes)
   /\ forall path,
        lies_under folder path = true
        <-> exists rest, path = folder +:+ "/" +:+ rest)
  /\ (Forall (fun item => startswith (fst item) "./" = false) file_hashes ->
      compute_folder_hash "." file_hashes
      = digest_of_items
          (List.filter (fun item => negb (contains_char "/" (fst item)))
             file_hashes))
  /\ (forall path digest,
        contains_char "/" path = true ->
        startswith path "./" = false ->
        compute_folder_hash "." ((path, digest) :: file_hashes)
        = compute_folder_hash "." file_hashes).
Proof.
  split; [|split].
  - intros Hne.
    assert (Heqb : String.eqb folder "." = false)
      by now apply String.eqb_neq.
    split.
    + rewrite compute_folder_hash_digest. f_equal. apply filter_ext_Forall.
      apply List.Forall_forall. intros [p d] _. unfold beneath, lies_under.
      rewrite Heqb. simpl. now rewrite orb_false_r.
    + intros path. unfold lies_under. rewrite Heqb. simpl.
      rewrite startswith_app. split; intros (rest & ->); exists rest;
        now rewrite append_assoc.
  - intros Hall. rewrite compute_folder_hash_digest. f_equal.
    apply filter_ext_Forall. eapply Forall_impl; [exact Hall|].
    intros [p d] Hp. unfold beneath. simpl in *.
    change ("." +:+ "/") with "./". now rewrite Hp.
  - intros path digest Hslash Hdot. rewrite !compute_folder_hash_digest.
    simpl. unfold beneath at 1. change ("." +:+ "/") with "./".
    now rewrite Hdot, Hslash.
Qed.

Lemma folder_hash_scope_witness :
  compute_folder_hash "a" [("a/y", "11"); ("b", "22"); ("a/c/x", "33")]
  = digest_of_items [("a/y", "11"); ("a/c/x", "33")]
  /\ compute_folder_hash "." [("a/y", "11"); ("b", "22"); ("a/c/x", "33")]
     = digest_of_items [("b", "22")]
  /\ compute_folder_hash "." [("a/y", "11"); ("b", "22")]
     = compute_folder_hash "." [("b", "22")].
Proof.
  destruct (folder_hash_scope "a" [("a/y", "11"); ("b", "22"); ("a/c/x", "33")])
    as (Ha & Hroot & _).
  destruct (folder_hash_scope "." [("b", "22")]) as (_ & _ & Hnested).
  split; [|split].
  - apply Ha. discriminate.
  - apply Hroot. repeat constructor.
  - apply Hnested; reflexivity.
Defined.

(** C3. The digest of a folder is the empty string when no pair qualifies;
    otherwise it is the hash of the canonical lines [path:digest] of the
    qualifying pairs, each ended by a newline, in the order of their paths.
    It is the same for every order of the mapping, and the mapping of the
    folder digests has an entry for every folder, the empty ones included. *)
Theorem folder_hash_canonical (folder : string) (file_hashes : dict) :
  let qualifying :=
    List.filter (fun item => beneath folder (fst item)) file_hashes in
  (qualifying = [] -> compute_folder_hash folder file_hashes = "")
  /\ (qualifying <> [] ->
      exists folder_files,
        Permutation folder_files qualifying
        /\ StronglySorted (fun a b => cmple (fst a) (fst b)) folder_files
        /\ compute_folder_hash folder file_hashes
           = md5_hexdigest
               (concat
                  (map (fun item =>
                          encode (fst item +:+ ":" +:+ snd item
                                    +:+ String newline ""))
                     folder_files)))
  /\ (forall file_hashes',
        Permutation file_hashes file_hashes' ->
        compute_folder_hash folder file_hashes'
        = compute_folder_hash folder file_hashes)
  /\ (forall folders : gset string,
        folder ∈ folders ->
        dict_get (hash_folders folders file_hashes) folder
        = Some (compute_folder_hash folder file_hashes)).
Proof.
  intros qualifying. split; [|split; [|split]].
  - intros Hq. rewrite compute_folder_hash_digest. fold qualifying.
    now rewrite Hq.
  - intros Hq. exists (sorted qualifying).
    split; [apply sorted_Permutation|]. split; [apply sorted_by_path|].
    rewrite compute_folder_hash_digest. fold qualifying.
    unfold digest_of_items. destruct (sorted qualifying) eqn:Hs; [|reflexivity].
    apply sorted_nil_inv in Hs. contradiction.
  - intros file_hashes' Hp. rewrite !compute_folder_hash_digest.
    unfold digest_of_items.
    rewrite (sorted_perm_eq _ (List.filter (fun item => beneath folder (fst item))
                                 file_hashes)); [reflexivity|].
    apply Permutation_list_filter. now symmetry.
  - intros folders. apply hash_folders_get.
Qed.

Lemma folder_hash_canonical_witness :
  compute_folder_hash "lib" [("a/y", "11"); ("b", "22")] = ""
  /\ compute_folder_hash "a" [("a/y", "11"); ("b", "22"); ("a/c/x", "33")]
     = compute_folder_hash "a" [("a/c/x", "33"); ("b", "22"); ("a/y", "11")]
  /\ dict_get (hash_folders {[ "lib"; "." ]} [("a/y", "11"); ("b", "22")]) "lib"
     = Some "".
Proof.
  destruct (folder_hash_canonical "lib" [("a/y", "11"); ("b", "22")])
    as (Hempty & _ & _ & Hkey).
  destruct (folder_hash_canonical "a" [("a/c/x", "33"); ("b", "22"); ("a/y", "11")])
    as (_ & _ & Hperm & _).
  split; [|split].
  - apply Hempty. reflexivity.
  - apply Hperm.
    apply (Permutation_rev [("a/c/x", "33"); ("b", "22"); ("a/y", "11")]).
  - rewrite Hkey by set_solver. rewrite Hempty by reflexivity. reflexivity.
Defined.

(** ** Change detection *)

(** The digests of [path] in the two mappings differ. *)
Definition digests_differ (current_hashes : dict)
    (saved_hashes : list (string * json)) (path : string) : Prop :=
  forall h, dict_get current_hashes path = Some h ->
            obj_get saved_hashes path <> Some (JStr h).

Lemma hash_differs_spec (current_hashes : dict)
    (saved_hashes : list (string * json)) (path : string) :
  hash_differs current_hashes saved_hashes path = true
  <-> digests_differ current_hashes saved_hashes path.
Proof.
  unfold hash_differs, digests_differ.
  destruct (dict_get current_hashes path) as [h|]; [|split; [discriminate|auto]].
  destruct (obj_get saved_hashes path) as [[| | |h'| |]|];
    try (split; [intros _ h0 _; discriminate|reflexivity]).
  destruct (String.eqb h h') eqn:E; simpl.
  - apply String.eqb_eq in E. subst h'. split; [discriminate|].
    intros H. exfalso. now apply (H h).
  - apply String.eqb_neq in E. split; [|reflexivity].
    intros _ h0 [= <-] [= ->]. contradiction.
Qed.

(** The ancestors of a path are the proper non-empty prefixes of its parts,
    joined. *)
Lemma ancestors_In (parts : list string) (x : string) :
  In x (ancestors (removelast parts))
  <-> exists k, 0 < k < length parts /\ x = join "/" (firstn k parts).
Proof.
  unfold ancestors. rewrite in_map_iff. split.
  - intros (i & <- & Hi). apply in_seq in Hi.
    assert (Hlen : length (removelast parts) = length parts - 1).
    { destruct parts as [|p parts]; [reflexivity|].
      rewrite (app_removelast_last p (l:=p :: parts)) at 2 by discriminate.
      rewrite length_app. simpl. lia. }
    exists (i + 1). split; [lia|]. f_equal. apply firstn_removelast. lia.
  - intros (k & Hk & ->). exists (k - 1).
    assert (Hlen : length (removelast parts) = length parts - 1).
    { destruct parts as [|p parts]; [reflexivity|].
      rewrite (app_removelast_last p (l:=p :: parts)) at 2 by discriminate.
      rewrite length_app. simpl. lia. }
    split.
    + replace (k - 1 + 1) with k by lia. f_equal. apply firstn_removelast. lia.
    + apply in_seq. lia.
Qed.

Lemma affected_folders_from (l : list string) (acc : gset string) (x : string) :
  x ∈ foldl
        (fun affected path =>
           affected ∪ list_to_set (ancestors (removelast (path_parts path)))
             ∪ {[ "." ]})
        acc l
  <-> x ∈ acc \/ (l <> [] /\ x = ".")
      \/ exists p, In p l /\ In x (ancestors (removelast (path_parts p))).
Proof.
  revert acc. induction l as [|p l IH]; intros acc; simpl.
  - split; [auto|]. intros [H|[[H _]|(p & [] & _)]]; [exact H|congruence].
  - rewrite IH, !elem_of_union, elem_of_singleton, elem_of_list_to_set,
      list_elem_of_In.
    split.
    + intros [[[H|H]|H]|[[_ H]|(q & Hq & H)]]; eauto 6.
    + intros [H|[[_ H]|(q & [<-|Hq] & H)]]; eauto 6.
Qed.

Lemma affected_folders_spec (changed : gset string) (x : string) :
  changed <> ∅ ->
  (x ∈ affected_folders changed
   <-> x = "."
       \/ exists p, p ∈ changed
            /\ exists k, 0 < k < length (path_parts p)
                 /\ x = join "/" (firstn k (path_parts p))).
Proof.
  intros Hne. unfold affected_folders. rewrite affected_folders_from.
  assert (Hl : elements changed <> []).
  { intros He. apply elements_empty_inv in He. apply leibniz_equiv in He.
    contradiction. }
  split.
  - intros [H|[[_ H]|(p & Hp & H)]];
      [now apply not_elem_of_empty in H|auto|].
    right. exists p. split; [now apply elem_of_elements, list_elem_of_In|].
    now apply ancestors_In.
  - intros [->|(p & Hp & H)]; [auto|].
    right. right. exists p.
    split; [now apply list_elem_of_In, elem_of_elements|].
    now apply ancestors_In.
Qed.

(** C4. From the current and the saved mapping the change detector reports
    as added the keys of the current mapping that the saved one lacks, as
    removed the keys of the saved mapping that the current one lacks, and as
    modified the keys of both whose digests differ. When there is a change,
    the affected folders are ["."] and every ancestor folder of every changed
    path; when there is none, no set of affected folders is reported. *)
Theorem change_detection (current_hashes : dict)
    (saved_hashes : list (string * json)) :
  match detect_changes current_hashes saved_hashes with
  | NoChanges =>
      (forall p, In p (keys current_hashes) <-> In p (map fst saved_hashes))
      /\ (forall p, In p (keys current_hashes) ->
            ~ digests_differ current_hashes saved_hashes p)
  | Changes added removed modified affected =>
      (forall p, p ∈ added
         <-> In p (keys current_hashes) /\ ~ In p (map fst saved_hashes))
      /\ (forall p, p ∈ removed
            <-> In p (map fst saved_hashes) /\ ~ In p (keys current_hashes))
      /\ (forall p, p ∈ modified
            <-> In p (keys current_hashes) /\ In p (map fst saved_hashes)
                /\ digests_differ current_hashes saved_hashes p)
      /\ (exists p, p ∈ added ∪ removed ∪ modified)
      /\ (forall x, x ∈ affected
            <-> x = "."
                \/ exists p, p ∈ added ∪ removed ∪ modified
                     /\ exists k, 0 < k < length (path_parts p)
                          /\ x = join "/" (firstn k (path_parts p)))
  end.
Proof.
  unfold detect_changes.
  set (current_keys := list_to_set (keys current_hashes) : gset string).
  set (saved_keys := list_to_set (map fst saved_hashes) : gset string).
  set (modified :=
         filter (fun path => hash_differs current_hashes saved_hashes path = true)
           (current_keys ∩ saved_keys)).
  assert (Hcur : forall p, p ∈ current_keys <-> In p (keys current_hashes)).
  { intros p. unfold current_keys. rewrite elem_of_list_to_set.
    apply list_elem_of_In. }
  assert (Hsav : forall p, p ∈ saved_keys <-> In p (map fst saved_hashes)).
  { intros p. unfold saved_keys. rewrite elem_of_list_to_set.
    apply list_elem_of_In. }
  assert (Hmod : forall p, p ∈ modified
            <-> In p (keys current_hashes) /\ In p (map fst saved_hashes)
                /\ digests_differ current_hashes saved_hashes p).
  { intros p. unfold modified.
    rewrite elem_of_filter, elem_of_intersection, Hcur, Hsav, hash_differs_spec.
    tauto. }
  assert (Hsub : forall (X Y : gset string) p, X ∖ Y = ∅ -> p ∈ X -> p ∈ Y).
  { intros X Y p HXY Hp. destruct (decide (p ∈ Y)) as [HY|HY]; [exact HY|].
    exfalso. apply (not_elem_of_empty (C:=gset string) p). rewrite <- HXY.
    apply elem_of_difference. auto. }
  assert (Hchanged : forall (X : gset string) p, p ∈ X -> X <> ∅).
  { intros X p Hp ->. now apply not_elem_of_empty in Hp. }
  assert (Hreport : forall q,
    q ∈ (current_keys ∖ saved_keys) ∪ (saved_keys ∖ current_keys) ∪ modified ->
    (forall p, p ∈ current_keys ∖ saved_keys
       <-> In p (keys current_hashes) /\ ~ In p (map fst saved_hashes))
    /\ (forall p, p ∈ saved_keys ∖ current_keys
          <-> In p (map fst saved_hashes) /\ ~ In p (keys current_hashes))
    /\ (forall p, p ∈ modified
          <-> In p (keys current_hashes) /\ In p (map fst saved_hashes)
              /\ digests_differ current_hashes saved_hashes p)
    /\ (exists p, p ∈ (current_keys ∖ saved_keys) ∪ (saved_keys ∖ current_keys)
                     ∪ modified)
    /\ (forall x,
          x ∈ affected_folders
                ((current_keys ∖ saved_keys) ∪ (saved_keys ∖ current_keys)
                   ∪ modified)
          <-> x = "."
              \/ exists p, p ∈ (current_keys ∖ saved_keys)
                               ∪ (saved_keys ∖ current_keys) ∪ modified
                   /\ exists k, 0 < k < length (path_parts p)
                        /\ x = join "/" (firstn k (path_parts p)))).
  { intros q Hq. split; [|split; [|split; [|split]]].
    - intros p. rewrite elem_of_difference, Hcur, Hsav. tauto.
    - intros p. rewrite elem_of_difference, Hcur, Hsav. tauto.
    - exact Hmod.
    - exists q. exact Hq.
    - intros x. apply affected_folders_spec. now apply (Hchanged _ q). }
  destruct (bool_decide (current_keys ∖ saved_keys = ∅)) eqn:Ha;
    [destruct (bool_decide (saved_keys ∖ current_keys = ∅)) eqn:Hr;
     [destruct (bool_decide (modified = ∅)) eqn:Hm|]|]; simpl.
  - apply bool_decide_eq_true in Ha, Hr, Hm. split.
    + intros p. rewrite <- Hcur, <- Hsav. split; eauto.
    + intros p Hp Hd.
      apply (not_elem_of_empty (C:=gset string) p). rewrite <- Hm.
      apply Hmod. split; [exact Hp|]. split; [|exact Hd].
      apply Hsav, (Hsub _ _ _ Ha), Hcur, Hp.
  - apply bool_decide_eq_false in Hm.
    apply set_choose_L in Hm as (q & Hq). apply (Hreport q).
    apply elem_of_union. now right.
  - apply bool_decide_eq_false in Hr.
    apply set_choose_L in Hr as (q & Hq). apply (Hreport q).
    apply elem_of_union. left. apply elem_of_union. now right.
  - apply bool_decide_eq_false in Ha.
    apply set_choose_L in Ha as (q & Hq). apply (Hreport q).
    apply elem_of_union. left. apply elem_of_union. now left.
Qed.

Example detect_changes_demo :
  detect_changes [("a/b/c.txt", "1"); ("d", "2"); ("e", "3")]
    [("d", JStr "2"); ("e", JStr "4"); ("x/y", JStr "5")]
  = Changes {[ "a/b/c.txt" ]} {[ "x/y" ]} {[ "e" ]} {[ "."; "a"; "a/b"; "x" ]}.
Proof. vm_compute. reflexivity. Qed.

Example detect_no_changes_demo :
  detect_changes [("a/b/c.txt", "1"); ("d", "2")]
    [("d", JStr "2"); ("a/b/c.txt", JStr "1")]
  = NoChanges.
Proof. vm_compute. reflexivity. Qed.

(** ** The compiled pattern *)

Lemma prefix_app (old s : string) : String.prefix old (old +:+ s) = true.
Proof.
  induction old as [|c old IH]; simpl; [now destruct s|].
  destruct (ascii_dec c c); [exact IH|contradiction].
Qed.

Lemma replace_go_skip (old new u s : string) :
  replace_go old new (String.length u) (u +:+ s) = replace_go old new 0 s.
Proof.
  induction u as [|c u IH]; simpl; [reflexivity|]. exact IH.
Qed.

(** An occurrence at the front is replaced. *)
Lemma replace_here (old new s : string) :
  old <> "" -> replace old new (old +:+ s) = new +:+ replace old new s.
Proof.
  intros Hne. destruct old as [|c old]; [contradiction|].
  unfold replace. rewrite append_cons.
  change (replace_go (String c old) new 0 (String c (old +:+ s)))
    with (if String.prefix (String c old) (String c (old +:+ s))
          then new +:+ replace_go (String c old) new
                         (String.length (String c old) - 1) (old +:+ s)
          else String c (replace_go (String c old) new 0 (old +:+ s))).
  rewrite <- append_cons, prefix_app.
  replace (String.length (String c old) - 1) with (String.length old)
    by (simpl; lia).
  now rewrite replace_go_skip.
Qed.

(** Characters at which no occurrence starts are kept. *)
Lemma replace_pass (old new u s : string) :
  (forall u1 u2, u = u1 +:+ u2 -> u2 <> "" ->
     String.prefix old (u2 +:+ s) = false) ->
  replace old new (u +:+ s) = u +:+ replace old new s.
Proof.
  induction u as [|c u IH]; intros Hno; [reflexivity|].
  rewrite !append_cons. unfold replace.
  change (replace_go old new 0 (String c (u +:+ s)))
    with (if String.prefix old (String c (u +:+ s))
          then new +:+ replace_go old new (String.length old - 1) (u +:+ s)
          else String c (replace_go old new 0 (u +:+ s))).
  rewrite <- append_cons, (Hno "" (String c u)) by (reflexivity || discriminate).
  f_equal. apply IH. intros u1 u2 -> Hu2.
  apply (Hno (String c u1) u2); [reflexivity|exact Hu2].
Qed.

(** The pieces of a compiled pattern: a character of the pattern, or what
    one of the four replacements put in. *)
Inductive tok :=
| TLit (c : ascii)
| TDirs
| TAll
| TStar
| TQuest.

Definition render_tok (t : tok) : string :=
  match t with
  | TLit c => if is_special c then String "\" (String c "") else String c ""
  | TDirs => "(?:.*/)?"
  | TAll => ".*"
  | TStar => "[^/]*"
  | TQuest => "."
  end.

Fixpoint render (ts : list tok) : string :=
  match ts with
  | [] => ""
  | t :: ts' => render_tok t +:+ render ts'
  end.

Definition lits (s : string) : list tok := map TLit (list_ascii_of_string s).

Fixpoint tok_prefix (old : list ascii) (ts : list tok) : bool :=
  match old with
  | [] => true
  | c :: old' =>
      match ts with
      | TLit c' :: ts' => Ascii.eqb c c' && tok_prefix old' ts'
      | _ => false
      end
  end.

(** One replacement, on the pieces: the run of characters [old] becomes the
    piece [new]. *)
Fixpoint tok_replace_go (old : list ascii) (new : tok) (skip : nat)
    (ts : list tok) : list tok :=
  match ts with
  | [] => []
  | t :: ts' =>
      match skip with
      | S k => tok_replace_go old new k ts'
      | O =>
          if tok_prefix old ts
          then new :: tok_replace_go old new (length old - 1) ts'
          else t :: tok_replace_go old new 0 ts'
      end
  end.

Definition tok_replace (old : string) (new : tok) (ts : list tok) : list tok :=
  tok_replace_go (list_ascii_of_string old) new 0 ts.

Lemma render_app (ts1 ts2 : list tok) :
  render (ts1 ++ ts2) = render ts1 +:+ render ts2.
Proof.
  induction ts1 as [|t ts1 IH]; simpl; [reflexivity|].
  now rewrite IH, append_assoc.
Qed.

Lemma re_escape_render (s : string) : re_escape s = render (lits s).
Proof.
  unfold lits. induction s as [|c s IH]; simpl; [reflexivity|].
  rewrite IH. destruct (is_special c); reflexivity.
Qed.

Lemma prefix_cons (a b : ascii) (s t : string) :
  String.prefix (String a s) (String b t) = Ascii.eqb a b && String.prefix s t.
Proof.
  simpl. destruct (ascii_dec a b) as [->|Hne].
  - now rewrite Ascii.eqb_refl.
  - apply Ascii.eqb_neq in Hne. now rewrite Hne.
Qed.

Lemma prefix_nil_r (a : ascii) (s : string) : String.prefix (String a s) "" = false.
Proof. reflexivity. Qed.

Lemma special_eqb (c c' : ascii) :
  is_special c = true -> is_special c' = false -> Ascii.eqb c c' = false.
Proof.
  intros Hc Hc'. apply Ascii.eqb_neq. intros ->. congruence.
Qed.

Lemma special_eqb_r (c c' : ascii) :
  is_special c = false -> is_special c' = true -> Ascii.eqb c c' = false.
Proof.
  intros Hc Hc'. apply Ascii.eqb_neq. intros ->. congruence.
Qed.

(** Where a piece begins, an occurrence in the text is an occurrence in the
    pieces. *)
Lemma prefix_render (old : list ascii) (ts : list tok) :
  String.prefix (render (map TLit old)) (render ts) = tok_prefix old ts.
Proof.
  revert ts. induction old as [|c old IH]; intros ts.
  - simpl. now destruct (render ts).
  - cbn [map render tok_prefix render_tok].
    destruct ts as [|[c'| | | |] ts]; cbn [render render_tok].
    + destruct (is_special c); reflexivity.
    + destruct (is_special c) eqn:Hc, (is_special c') eqn:Hc';
        rewrite !append_cons, !append_nil, !prefix_cons.
      * now rewrite IH.
      * rewrite (special_eqb "\" c') by (exact Hc' || reflexivity).
        now rewrite (special_eqb c c').
      * rewrite (special_eqb_r c "\") by (exact Hc || reflexivity).
        now rewrite (special_eqb_r c c').
      * now rewrite IH.
    + destruct (is_special c) eqn:Hc; rewrite !append_cons, !prefix_cons;
        [reflexivity|].
      now rewrite (special_eqb_r c "(").
    + destruct (is_special c) eqn:Hc; rewrite !append_cons, !prefix_cons;
        [reflexivity|].
      now rewrite (special_eqb_r c ".").
    + destruct (is_special c) eqn:Hc; rewrite !append_cons, !prefix_cons;
        [reflexivity|].
      now rewrite (special_eqb_r c "[").
    + destruct (is_special c) eqn:Hc; rewrite !append_cons, !prefix_cons;
        [reflexivity|].
      now rewrite (special_eqb_r c ".").
Qed.

Fixpoint suffixes (s : string) : list string :=
  s :: match s with
       | "" => []
       | String _ s' => suffixes s'
       end.

Definition proper_suffixes (s : string) : list string :=
  match s with
  | "" => []
  | String _ s' => suffixes s'
  end.

Lemma suffixes_In (u1 u2 : string) : In u2 (suffixes (u1 +:+ u2)).
Proof.
  induction u1 as [|c u1 IH].
  - rewrite append_nil. destruct u2; left; reflexivity.
  - rewrite append_cons. right. exact IH.
Qed.

Lemma proper_suffixes_In (s u1 u2 : string) :
  s = u1 +:+ u2 -> u1 <> "" -> In u2 (proper_suffixes s).
Proof.
  intros -> Hne. destruct u1 as [|c u1]; [contradiction|].
  rewrite append_cons. apply suffixes_In.
Qed.

Definition wildcard (c : ascii) : Prop := c = "*"%char \/ c = "?"%char.

(** No piece begins with a star or a question mark. *)
Lemma prefix_wildcard (c1 : ascii) (rest : string) (ts : list tok) :
  wildcard c1 -> String.prefix (String c1 rest) (render ts) = false.
Proof.
  intros Hw. destruct ts as [|[c'| | | |] ts]; cbn [render render_tok].
  - reflexivity.
  - destruct (is_special c') eqn:Hc'; rewrite !append_cons, prefix_cons.
    + destruct Hw as [-> | ->]; reflexivity.
    + rewrite (special_eqb c1 c'); [reflexivity| |exact Hc'].
      destruct Hw as [-> | ->]; reflexivity.
  - rewrite append_cons, prefix_cons. destruct Hw as [-> | ->]; reflexivity.
  - rewrite append_cons, prefix_cons. destruct Hw as [-> | ->]; reflexivity.
  - rewrite append_cons, prefix_cons. destruct Hw as [-> | ->]; reflexivity.
  - rewrite append_cons, prefix_cons. destruct Hw as [-> | ->]; reflexivity.
Qed.

(** Inside a piece no occurrence of a run that begins with a wildcard
    starts. *)
Lemma prefix_inside (c1 : ascii) (old : list ascii) (t : tok) (ts : list tok)
    (u2 : string) :
  wildcard c1 ->
  In u2 (proper_suffixes (render_tok t)) ->
  u2 <> "" ->
  String.prefix (render (map TLit (c1 :: old))) (u2 +:+ render ts) = false.
Proof.
  intros Hw Hin Hne.
  assert (Hs : is_special c1 = true) by (destruct Hw as [-> | ->]; reflexivity).
  cbn [map render render_tok]. rewrite Hs, !append_cons, append_nil.
  destruct t as [c| | | |]; cbn [render_tok] in Hin.
  - destruct (is_special c) eqn:Hc; simpl in Hin.
    + destruct Hin as [<-|[<-|[]]]; [|contradiction].
      rewrite append_cons, append_nil, prefix_cons.
      rewrite (prefix_wildcard c1 _ ts Hw). apply andb_false_r.
    + destruct Hin as [<-|[]]. contradiction.
  - simpl in Hin.
    repeat (destruct Hin as [<-|Hin]; [try contradiction; reflexivity|]).
    destruct Hin.
  - simpl in Hin.
    repeat (destruct Hin as [<-|Hin]; [try contradiction; reflexivity|]).
    destruct Hin.
  - simpl in Hin.
    repeat (destruct Hin as [<-|Hin]; [try contradiction; reflexivity|]).
    destruct Hin.
  - simpl in Hin.
    repeat (destruct Hin as [<-|Hin]; [try contradiction; reflexivity|]).
    destruct Hin.
Qed.

Lemma tok_replace_go_skip (old : list ascii) (new : tok) (k : nat)
    (ts : list tok) :
  tok_replace_go old new k ts = tok_replace_go old new 0 (skipn k ts).
Proof.
  revert ts. induction k as [|k IH]; intros ts; [reflexivity|].
  destruct ts as [|t ts]; [reflexivity|]. simpl. apply IH.
Qed.

Lemma tok_prefix_split (old : list ascii) (ts : list tok) :
  tok_prefix old ts = true -> ts = map TLit old ++ skipn (length old) ts.
Proof.
  revert ts. induction old as [|c old IH]; intros ts; simpl; [reflexivity|].
  destruct ts as [|[c'| | | |] ts]; try discriminate.
  intros H. apply andb_true_iff in H as [Hc H].
  apply Ascii.eqb_eq in Hc. subst c'. simpl. f_equal. now apply IH.
Qed.

Lemma replace_render (c1 : ascii) (old : string) (new : tok) (ts : list tok) :
  wildcard c1 ->
  replace (re_escape (String c1 old)) (render_tok new) (render ts)
  = render (tok_replace (String c1 old) new ts).
Proof.
  intros Hw. rewrite re_escape_render. unfold tok_replace, lits.
  set (o := list_ascii_of_string (String c1 old)).
  assert (Ho : o = c1 :: list_ascii_of_string old) by reflexivity.
  assert (Hne : render (map TLit o) <> "").
  { rewrite Ho. cbn [map render render_tok].
    destruct (is_special c1); discriminate. }
  remember (length ts) as n eqn:Hn. revert ts Hn.
  induction n as [n IH] using lt_wf_ind. intros ts Hn.
  destruct ts as [|t ts]; [reflexivity|].
  cbn [tok_replace_go]. destruct (tok_prefix o (t :: ts)) eqn:Hp.
  - pose proof (tok_prefix_split _ _ Hp) as Hsplit.
    rewrite Hsplit at 1. rewrite render_app, replace_here by exact Hne.
    cbn [render]. f_equal.
    rewrite tok_replace_go_skip.
    replace (skipn (length o - 1) ts) with (skipn (length o) (t :: ts))
      by (rewrite Ho; simpl; now rewrite Nat.sub_0_r).
    apply (IH (length (skipn (length o) (t :: ts)))); [|reflexivity].
    subst n. rewrite Ho. simpl. rewrite length_skipn. lia.
  - cbn [render]. rewrite replace_pass.
    + f_equal. apply (IH (length ts)); [subst n; simpl; lia|reflexivity].
    + intros u1 u2 Hu Hu2. destruct u1 as [|a u1].
      * rewrite append_nil in Hu. subst u2.
        change (render_tok t +:+ render ts) with (render (t :: ts)).
        now rewrite prefix_render.
      * rewrite Ho. apply (prefix_inside c1 _ t); [exact Hw| |exact Hu2].
        eapply proper_suffixes_In; [exact Hu|discriminate].
Qed.

(** The pieces of a pattern after the four replacements, in their order. *)
Definition glob_pieces (pattern : string) : list tok :=
  tok_replace "?" TQuest
    (tok_replace "*" TStar
       (tok_replace "**" TAll (tok_replace "**/" TDirs (lits pattern)))).

(** The pieces between the anchor at the front and the [$] at the end. *)
Definition pattern_pieces (pattern : string) : list tok :=
  let body :=
    glob_pieces pattern ++ (if endswith pattern "/" then [TAll] else []) in
  if startswith pattern "/" then tl body else body.

Definition anchor_source (pattern : string) : string :=
  if startswith pattern "/" then "^" else "(?:^|.*/)".

Lemma tok_replace_slash (c1 : ascii) (old : string) (new : tok) (ts : list tok) :
  wildcard c1 ->
  tok_replace (String c1 old) new (TLit "/" :: ts)
  = TLit "/" :: tok_replace (String c1 old) new ts.
Proof. intros [-> | ->]; reflexivity. Qed.

Lemma glob_pieces_render (pattern : string) :
  replace "\?" "."
    (replace "\*" "[^/]*"
       (replace "\*\*" ".*" (replace "\*\*/" "(?:.*/)?" (re_escape pattern))))
  = render (glob_pieces pattern).
Proof.
  unfold glob_pieces. rewrite re_escape_render.
  change "\*\*/" with (re_escape "**/").
  change "(?:.*/)?" with (render_tok TDirs).
  rewrite replace_render by (left; reflexivity).
  change "\*\*" with (re_escape "**").
  change ".*" with (render_tok TAll).
  rewrite replace_render by (left; reflexivity).
  change "\*" with (re_escape "*").
  change "[^/]*" with (render_tok TStar).
  rewrite replace_render by (left; reflexivity).
  change "\?" with (re_escape "?").
  change "." with (render_tok TQuest).
  rewrite replace_render by (right; reflexivity).
  reflexivity.
Qed.

(** What [pattern_regex] builds, piece by piece. *)
Lemma pattern_regex_render (pattern : string) :
  pattern_regex pattern
  = "(?:" +:+ anchor_source pattern +:+ render (pattern_pieces pattern) +:+ "$)".
Proof.
  unfold pattern_regex, pattern_pieces, anchor_source.
  rewrite glob_pieces_render.
  assert (Hbody :
    (if endswith pattern "/" then render (glob_pieces pattern) +:+ ".*"
     else render (glob_pieces pattern))
    = render (glob_pieces pattern
                ++ (if endswith pattern "/" then [TAll] else []))).
  { rewrite render_app. destruct (endswith pattern "/"); simpl.
    - reflexivity.
    - clear. induction (render (glob_pieces pattern)) as [|c s IH];
        [reflexivity|]. now rewrite append_cons, <- IH. }
  rewrite Hbody. clear Hbody.
  destruct (startswith pattern "/") eqn:Hs.
  - rewrite append_assoc. do 2 f_equal.
    apply startswith_app in Hs as (rest & ->).
    unfold glob_pieces, lits. rewrite append_cons, append_nil.
    cbn [list_ascii_of_string map].
    rewrite !tok_replace_slash by (left; reflexivity || right; reflexivity).
    reflexivity.
  - now rewrite !append_assoc.
Qed.

(** ** Compiling the pieces *)

Definition tok_regex (t : tok) : regex :=
  match t with
  | TLit c => RCls (CChar c)
  | TDirs => ROpt (RSeq (RStar CAny) (RSeq (RCls (CChar "/")) REmpty))
  | TAll => RStar CAny
  | TStar => RStar (CNot "/")
  | TQuest => RCls CAny
  end.

Definition tok_quant (t : tok) : bool :=
  match t with
  | TLit _ | TQuest => true
  | _ => false
  end.

Definition push_tok (f : frame) (t : tok) : frame :=
  push f (tok_regex t) (tok_quant t).

Lemma parse_escaped (c : ascii) (cur : frame) (stack : list frame) (s : string) :
  is_special c = true ->
  parse_go cur stack (String "\" (String c s))
  = parse_go (push cur (RCls (CChar c)) true) stack s.
Proof.
  intros Hc.
  destruct c as [[] [] [] [] [] [] [] []]; try discriminate Hc; reflexivity.
Qed.

Lemma parse_plain (c : ascii) (cur : frame) (stack : list frame) (s : string) :
  is_special c = false ->
  parse_go cur stack (String c s)
  = parse_go (push cur (RCls (CChar c)) true) stack s.
Proof.
  intros Hc.
  destruct c as [[] [] [] [] [] [] [] []]; try discriminate Hc; reflexivity.
Qed.

Lemma parse_tok (t : tok) (cur : frame) (stack : list frame) (s : string) :
  parse_go cur stack (render_tok t +:+ s) = parse_go (push_tok cur t) stack s.
Proof.
  destruct t as [c| | | |]; cbn [render_tok].
  - destruct (is_special c) eqn:Hc.
    + rewrite !append_cons, append_nil. now apply parse_escaped.
    + rewrite append_cons, append_nil. now apply parse_plain.
  - reflexivity.
  - reflexivity.
  - reflexivity.
  - reflexivity.
Qed.

Lemma parse_render (ts : list tok) (cur : frame) (stack : list frame)
    (s : string) :
  parse_go cur stack (render ts +:+ s)
  = parse_go (fold_left push_tok ts cur) stack s.
Proof.
  revert cur. induction ts as [|t ts IH]; intros cur; [reflexivity|].
  cbn [render fold_left]. rewrite append_assoc, parse_tok. apply IH.
Qed.

Definition seq_of (rs : list regex) : regex := fold_right RSeq REmpty rs.

Fixpoint alt_of (rs : list regex) : regex :=
  match rs with
  | [] => REmpty
  | [r] => r
  | r :: rs' => RAlt r (alt_of rs')
  end.

Definition anchor_regex (pattern : string) : regex :=
  if startswith pattern "/" then RBol
  else RAlt (RSeq RBol REmpty)
         (RSeq (RStar CAny) (RSeq (RCls (CChar "/")) REmpty)).

(** The regular expression of one pattern: the anchor, the pieces, [$]. *)
Definition part_regex (pattern : string) : regex :=
  seq_of (anchor_regex pattern
            :: map tok_regex (pattern_pieces pattern) ++ [REol]).

Lemma fold_push_tok (ts : list tok) (f : frame) :
  alts (fold_left push_tok ts f) = alts f
  /\ atoms (fold_left push_tok ts f) = rev (map tok_regex ts) ++ atoms f.
Proof.
  revert f. induction ts as [|t ts IH]; intros f; [auto|].
  cbn [fold_left map rev]. destruct (IH (push_tok f t)) as [Ha Hb].
  rewrite Ha, Hb. split; [reflexivity|]. now rewrite <- app_assoc.
Qed.

Lemma close_seq_rev (rs : list regex) : close_seq (rev rs) = seq_of rs.
Proof.
  unfold close_seq, seq_of. rewrite <- fold_left_rev_right.
  now rewrite rev_involutive.
Qed.

Lemma parse_part (pattern : string) (cur : frame) (stack : list frame)
    (s : string) :
  parse_go cur stack (pattern_regex pattern +:+ s)
  = parse_go (push cur (part_regex pattern) true) stack s.
Proof.
  rewrite pattern_regex_render, !append_assoc.
  rewrite !append_cons, append_nil. cbn [parse_go].
  assert (Hanchor : forall rest,
    parse_go empty_frame (cur :: stack) (anchor_source pattern +:+ rest)
    = parse_go (push empty_frame (anchor_regex pattern)
                  (negb (startswith pattern "/")))
        (cur :: stack) rest).
  { intros rest. unfold anchor_source, anchor_regex.
    destruct (startswith pattern "/"); reflexivity. }
  rewrite Hanchor, parse_render.
  set (f := fold_left push_tok (pattern_pieces pattern) _).
  rewrite ?append_cons, ?append_nil. cbn [parse_go].
  do 2 f_equal. unfold close_frame, push. cbn [alts atoms].
  destruct (fold_push_tok (pattern_pieces pattern)
              (push empty_frame (anchor_regex pattern)
                 (negb (startswith pattern "/")))) as [Ha Hb].
  fold f in Ha, Hb. rewrite Ha, Hb. cbn [alts atoms push empty_frame close_alts].
  unfold part_regex. rewrite <- close_seq_rev. f_equal.
  cbn [rev]. rewrite rev_app_distr. reflexivity.
Qed.

Lemma parse_parts (pat : string) (pats : list string) (A : list regex)
    (q : bool) :
  parse_go {| alts := A; atoms := []; quant_ok := q |} []
    (join "|" (map pattern_regex (pat :: pats)))
  = Some (close_alts A
            (alt_of (map (fun p => RSeq (part_regex p) REmpty) (pat :: pats)))).
Proof.
  revert pat A q. induction pats as [|pat' pats IH]; intros pat A q.
  - cbn [map join alt_of].
    rewrite <- (append_nil (pattern_regex pat)) at 1.
    replace ("" +:+ pattern_regex pat) with (pattern_regex pat +:+ "").
    + rewrite parse_part. reflexivity.
    + rewrite append_nil. clear.
      induction (pattern_regex pat) as [|c s IH]; [reflexivity|].
      now rewrite append_cons, IH.
  - change (join "|" (map pattern_regex (pat :: pat' :: pats)))
      with (pattern_regex pat +:+ "|"
              +:+ join "|" (map pattern_regex (pat' :: pats))).
    rewrite parse_part, append_cons, append_nil.
    cbn [parse_go push atoms alts]. rewrite IH. reflexivity.
Qed.

(** Every non-empty pattern list compiles, to the alternatives of its
    patterns. *)
Lemma regex_of_patterns (pat : string) (pats : list string) :
  regex_of {| patterns := pat :: pats |}
  = Some (alt_of (map (fun p => RSeq (part_regex p) REmpty) (pat :: pats))).
Proof.
  unfold regex_of, matcher_source, re_compile, empty_frame.
  cbn [patterns]. now rewrite parse_parts.
Qed.

(** ** What the compiled pattern matches *)

(** The paths that a list of pieces matches up to the end, or up to the
    newline that ends the path. *)
Inductive glob_match : list tok -> string -> Prop :=
| glob_end s : at_eol s = true -> glob_match [] s
| glob_lit c ts s : glob_match ts s -> glob_match (TLit c :: ts) (String c s)
| glob_quest c ts s :
    c <> newline -> glob_match ts s -> glob_match (TQuest :: ts) (String c s)
| glob_star u ts s :
    contains_char "/" u = false -> glob_match ts s ->
    glob_match (TStar :: ts) (u +:+ s)
| glob_all u ts s :
    contains_char newline u = false -> glob_match ts s ->
    glob_match (TAll :: ts) (u +:+ s)
| glob_dirs_none ts s : glob_match ts s -> glob_match (TDirs :: ts) s
| glob_dirs u ts s :
    contains_char newline u = false -> glob_match ts s ->
    glob_match (TDirs :: ts) (u +:+ String "/" s).

(** A pattern matches a path when its pieces match what follows a segment
    boundary of the path: the start of the path, or a slash when the
    pattern does not begin with one. *)
Definition pattern_matches (pattern path : string) : Prop :=
  exists pre rest,
    path = pre +:+ rest
    /\ (pre = "" \/ (startswith pattern "/" = false
                     /\ exists pre', pre = pre' +:+ "/"))
    /\ glob_match (pattern_pieces pattern) rest.

Definition bol_after (b : bool) (u : string) : bool :=
  match u with
  | "" => b
  | _ => false
  end.

Lemma bol_after_false (u : string) : bol_after false u = false.
Proof. now destruct u. Qed.

Lemma accept_star_unfold (c : cls) (b : bool) (s : string)
    (k : bool -> string -> bool) :
  accept (RStar c) b s k
  = k b s
    || match s with
       | String x t => cls_match c x && accept (RStar c) false t k
       | "" => false
       end.
Proof. destruct s; reflexivity. Qed.

Lemma contains_char_cons (c x : ascii) (u : string) :
  contains_char c (String x u) = Ascii.eqb c x || contains_char c u.
Proof. reflexivity. Qed.

(** A star on the dot takes any run without a newline, a star on [[^/]] any
    run without a slash. *)
Lemma accept_star_any (b : bool) (s : string) (k : bool -> string -> bool) :
  accept (RStar CAny) b s k = true
  <-> exists u s', s = u +:+ s' /\ contains_char newline u = false
                   /\ k (bol_after b u) s' = true.
Proof.
  revert b. induction s as [|x s IH]; intros b; rewrite accept_star_unfold.
  - rewrite orb_false_r. split.
    + intros Hk. exists "", "". auto.
    + intros (u & s' & Hs & _ & Hk). destruct u; [|discriminate].
      rewrite append_nil in Hs. subst s'. exact Hk.
  - rewrite orb_true_iff, andb_true_iff, IH. split.
    + intros [Hk|[Hx (u & s' & -> & Hu & Hk)]].
      * exists "", (String x s). auto.
      * exists (String x u), s'. rewrite append_cons, contains_char_cons.
        rewrite bol_after_false in Hk.
        repeat split; [|exact Hk]. simpl in Hx.
        apply negb_true_iff in Hx. rewrite Ascii.eqb_sym, Hx. exact Hu.
    + intros (u & s' & Hs & Hu & Hk). destruct u as [|y u].
      * left. rewrite append_nil in Hs. subst s'. exact Hk.
      * right. rewrite append_cons in Hs. injection Hs as <- ->.
        rewrite contains_char_cons in Hu. apply orb_false_iff in Hu as [Hy Hu].
        split; [simpl; now rewrite Ascii.eqb_sym, Hy|].
        exists u, s'. rewrite bol_after_false. auto.
Qed.

Lemma accept_star_not (c : ascii) (b : bool) (s : string)
    (k : bool -> string -> bool) :
  accept (RStar (CNot c)) b s k = true
  <-> exists u s', s = u +:+ s' /\ contains_char c u = false
                   /\ k (bol_after b u) s' = true.
Proof.
  revert b. induction s as [|x s IH]; intros b; rewrite accept_star_unfold.
  - rewrite orb_false_r. split.
    + intros Hk. exists "", "". auto.
    + intros (u & s' & Hs & _ & Hk). destruct u; [|discriminate].
      rewrite append_nil in Hs. subst s'. exact Hk.
  - rewrite orb_true_iff, andb_true_iff, IH. split.
    + intros [Hk|[Hx (u & s' & -> & Hu & Hk)]].
      * exists "", (String x s). auto.
      * exists (String x u), s'. rewrite append_cons, contains_char_cons.
        rewrite bol_after_false in Hk.
        repeat split; [|exact Hk]. simpl in Hx.
        apply negb_true_iff in Hx. rewrite Ascii.eqb_sym, Hx. exact Hu.
    + intros (u & s' & Hs & Hu & Hk). destruct u as [|y u].
      * left. rewrite append_nil in Hs. subst s'. exact Hk.
      * right. rewrite append_cons in Hs. injection Hs as <- ->.
        rewrite contains_char_cons in Hu. apply orb_false_iff in Hu as [Hy Hu].
        split; [simpl; now rewrite Ascii.eqb_sym, Hy|].
        exists u, s'. rewrite bol_after_false. auto.
Qed.

(** The pieces and the final [$], as the matcher runs them. *)
Definition pieces_accept (ts : list tok) (b : bool) (s : string) : bool :=
  accept (seq_of (map tok_regex ts ++ [REol])) b s (fun _ _ => true).

Lemma pieces_accept_cons (t : tok) (ts : list tok) (b : bool) (s : string) :
  pieces_accept (t :: ts) b s = accept (tok_regex t) b s (pieces_accept ts).
Proof. reflexivity. Qed.

Lemma pieces_accept_spec (ts : list tok) :
  forall b s, pieces_accept ts b s = true <-> glob_match ts s.
Proof.
  induction ts as [|t ts IH]; intros b s.
  - unfold pieces_accept. simpl. rewrite andb_true_r. split.
    + now constructor.
    + now inversion 1.
  - rewrite pieces_accept_cons. destruct t as [c| | | |]; cbn [tok_regex].
    + destruct s as [|x s]; simpl.
      * split; [discriminate|inversion 1].
      * rewrite andb_true_iff, IH, Ascii.eqb_eq. split.
        -- intros [-> H]. now constructor.
        -- inversion 1; subst. auto.
    + change (accept (RStar CAny) b s
                (fun b1 s1 =>
                   accept (RCls (CChar "/")) b1 s1
                     (fun b2 s2 => pieces_accept ts b2 s2))
              || pieces_accept ts b s = true
              <-> glob_match (TDirs :: ts) s).
      rewrite orb_true_iff, accept_star_any, IH. split.
      * intros [(u & s' & -> & Hu & Hk)|H].
        -- destruct s' as [|x s']; [discriminate|]. simpl in Hk.
           apply andb_true_iff in Hk as [Hx Hk]. apply Ascii.eqb_eq in Hx.
           subst x. apply glob_dirs; [exact Hu|]. now apply (IH false).
        -- now apply glob_dirs_none.
      * inversion 1; subst; [now right|]. left.
        eexists _, _. split; [reflexivity|]. split; [assumption|].
        simpl. now apply IH.
    + rewrite accept_star_any. split.
      * intros (u & s' & -> & Hu & Hk). apply glob_all; [exact Hu|].
        now apply IH in Hk.
      * inversion 1; subst. eexists _, _. split; [reflexivity|].
        split; [assumption|]. now apply IH.
    + rewrite accept_star_not. split.
      * intros (u & s' & -> & Hu & Hk). apply glob_star; [exact Hu|].
        now apply IH in Hk.
      * inversion 1; subst. eexists _, _. split; [reflexivity|].
        split; [assumption|]. now apply IH.
    + destruct s as [|x s]; simpl.
      * split; [discriminate|inversion 1].
      * rewrite andb_true_iff, negb_true_iff, IH. split.
        -- intros [Hx H]. apply glob_quest; [|exact H].
           intros ->. now rewrite Ascii.eqb_refl in Hx.
        -- inversion 1; subst. split; [|assumption].
           now apply Ascii.eqb_neq.
Qed.

Lemma search_from_spec (r : regex) (b : bool) (s : string) :
  search_from r b s = true
  <-> exists pre rest,
        s = pre +:+ rest
        /\ accept r (bol_after b pre) rest (fun _ _ => true) = true.
Proof.
  revert b. induction s as [|x s IH]; intros b; simpl.
  - rewrite orb_false_r. split.
    + intros H. exists "", "". auto.
    + intros (pre & rest & Hs & H). destruct pre; [|discriminate].
      rewrite append_nil in Hs. subst rest. exact H.
  - rewrite orb_true_iff, IH. split.
    + intros [H|(pre & rest & -> & H)].
      * exists "", (String x s). auto.
      * exists (String x pre), rest. rewrite bol_after_false in H. auto.
    + intros (pre & rest & Hs & H). destruct pre as [|y pre].
      * left. rewrite append_nil in Hs. subst rest. exact H.
      * right. rewrite append_cons in Hs. injection Hs as <- ->.
        exists pre, rest. rewrite bol_after_false. auto.
Qed.

Lemma accept_alt_of (r : regex) (rs : list regex) (b : bool) (s : string)
    (k : bool -> string -> bool) :
  accept (alt_of (r :: rs)) b s k = existsb (fun r => accept r b s k) (r :: rs).
Proof.
  revert r. induction rs as [|r' rs IH]; intros r.
  - simpl. now rewrite orb_false_r.
  - change (alt_of (r :: r' :: rs)) with (RAlt r (alt_of (r' :: rs))).
    cbn [accept existsb]. now rewrite IH.
Qed.

Lemma accept_part (pattern : string) (b : bool) (s : string) :
  accept (RSeq (part_regex pattern) REmpty) b s (fun _ _ => true) = true
  <-> (b = true /\ glob_match (pattern_pieces pattern) s)
      \/ (startswith pattern "/" = false
          /\ exists u s',
               s = u +:+ String "/" s' /\ contains_char newline u = false
               /\ glob_match (pattern_pieces pattern) s').
Proof.
  unfold part_regex, anchor_regex. destruct (startswith pattern "/").
  - change (accept _ b s _)
      with (b && pieces_accept (pattern_pieces pattern) b s).
    rewrite andb_true_iff, pieces_accept_spec. split; [auto|].
    intros [H|[H _]]; [exact H|discriminate].
  - change (accept _ b s _)
      with ((b && pieces_accept (pattern_pieces pattern) b s)
            || accept (RStar CAny) b s
                 (fun b1 s1 =>
                    accept (RCls (CChar "/")) b1 s1
                      (fun b2 s2 =>
                         pieces_accept (pattern_pieces pattern) b2 s2))).
    rewrite orb_true_iff, andb_true_iff, pieces_accept_spec, accept_star_any.
    split.
    + intros [H|(u & s' & -> & Hu & H)]; [auto|]. right.
      split; [reflexivity|].
      destruct s' as [|x s']; [discriminate|]. simpl in H.
      apply andb_true_iff in H as [Hx H]. apply Ascii.eqb_eq in Hx. subst x.
      exists u, s'. repeat split; auto. now apply pieces_accept_spec in H.
    + intros [H|(_ & u & s' & -> & Hu & H)]; [auto|]. right.
      exists u, (String "/" s'). repeat split; auto.
      simpl. now apply pieces_accept_spec.
Qed.

(** The matcher of a pattern list matches a path exactly when one of the
    patterns does: its pieces match from a segment boundary of the path (the
    start of the path only, for a pattern that begins with a slash) up to the
    end of the path or to the newline that ends it. The matcher of the empty
    list matches nothing. *)
Lemma matches_spec (pats : list string) (path : string) :
  matches {| patterns := pats |} path = true
  <-> exists pattern, In pattern pats /\ pattern_matches pattern path.
Proof.
  unfold matches. destruct pats as [|pat pats].
  - simpl. split; [discriminate|]. intros (p & [] & _).
  - rewrite regex_of_patterns. unfold re_search.
    rewrite search_from_spec. split.
    + intros (pre & rest & -> & H).
      change (map (fun p => RSeq (part_regex p) REmpty) (pat :: pats))
        with (RSeq (part_regex pat) REmpty
                :: map (fun p => RSeq (part_regex p) REmpty) pats) in H.
      rewrite accept_alt_of in H. apply existsb_exists in H as (r & Hr & H).
      change (RSeq (part_regex pat) REmpty
                :: map (fun p => RSeq (part_regex p) REmpty) pats)
        with (map (fun p => RSeq (part_regex p) REmpty) (pat :: pats)) in Hr.
      apply in_map_iff in Hr as (p & <- & Hp). exists p. split; [exact Hp|].
      apply accept_part in H as [[Hb H]|(Hs & u & s' & -> & Hu & H)].
      * exists pre, rest. split; [reflexivity|]. split; [|exact H].
        left. destruct pre; [reflexivity|discriminate].
      * exists (pre +:+ u +:+ "/"), s'. split.
        { rewrite !append_assoc, append_cons, append_nil. reflexivity. }
        split; [|exact H]. right. split; [exact Hs|].
        exists (pre +:+ u). now rewrite append_assoc.
    + intros (p & Hp & pre & rest & -> & Hpre & H).
      assert (Hin : In (RSeq (part_regex p) REmpty)
                      (map (fun p => RSeq (part_regex p) REmpty) (pat :: pats))).
      { apply in_map_iff. exists p. auto. }
      destruct Hpre as [->|(Hs & pre' & ->)].
      * exists "", rest. split; [reflexivity|].
        change (map (fun p => RSeq (part_regex p) REmpty) (pat :: pats))
          with (RSeq (part_regex pat) REmpty
                  :: map (fun p => RSeq (part_regex p) REmpty) pats) in *.
        rewrite accept_alt_of. apply existsb_exists.
        eexists. split; [exact Hin|]. apply accept_part. left. auto.
      * exists pre', (String "/" rest). split.
        { rewrite append_assoc, append_cons, append_nil. reflexivity. }
        change (map (fun p => RSeq (part_regex p) REmpty) (pat :: pats))
          with (RSeq (part_regex pat) REmpty
                  :: map (fun p => RSeq (part_regex p) REmpty) pats) in *.
        rewrite accept_alt_of. apply existsb_exists.
        eexists. split; [exact Hin|]. apply accept_part. right.
        split; [exact Hs|]. exists "", rest. auto.
Qed.

(** ** Ordinary names

    The names that a file system gives to its entries have no slash and are
    neither empty nor ["."]; the names met in practice have no backslash
    either. For such names the relative path that the loop computes is the
    names joined by slashes, and the selected path is below the root. *)

Definition ordinary_name (n : string) : Prop :=
  n <> "" /\ n <> "."
  /\ contains_char "/" n = false /\ contains_char "\" n = false.

Lemma contains_char_app (c : ascii) (a b : string) :
  contains_char c (a +:+ b) = contains_char c a || contains_char c b.
Proof.
  induction a as [|x a IH]; [reflexivity|].
  rewrite append_cons. simpl. rewrite IH. now rewrite orb_assoc.
Qed.

Lemma append_nil_r (s : string) : s +:+ "" = s.
Proof.
  induction s as [|c s IH]; [reflexivity|]. now rewrite append_cons, IH.
Qed.

Lemma replace_absent (c : ascii) (new s : string) :
  contains_char c s = false -> replace (String c "") new s = s.
Proof.
  intros Hc. rewrite <- (append_nil_r s) at 1.
  rewrite replace_pass; [now rewrite append_nil_r|].
  intros u1 u2 -> Hu2. rewrite contains_char_app in Hc.
  apply orb_false_iff in Hc as [_ Hc].
  destruct u2 as [|x u2]; [contradiction|].
  rewrite append_cons, prefix_cons. simpl in Hc.
  apply orb_false_iff in Hc as [Hx _]. now rewrite Hx.
Qed.

Lemma contains_char_join (c : ascii) (names : list string) :
  c <> "/"%char ->
  Forall (fun n => contains_char c n = false) names ->
  contains_char c (join "/" names) = false.
Proof.
  intros Hc. induction 1 as [|n names Hn _ IH]; [reflexivity|].
  destruct names as [|n' names]; [exact Hn|].
  change (join "/" (n :: n' :: names))
    with (n +:+ "/" +:+ join "/" (n' :: names)).
  rewrite !contains_char_app, Hn, IH. simpl.
  apply Ascii.eqb_neq in Hc. now rewrite Hc.
Qed.

Fixpoint last_char (s : string) : option ascii :=
  match s with
  | "" => None
  | String c "" => Some c
  | String _ s' => last_char s'
  end.

Lemma last_char_app (a b : string) : b <> "" -> last_char (a +:+ b) = last_char b.
Proof.
  intros Hb. induction a as [|x a IH]; [reflexivity|].
  rewrite append_cons. simpl. rewrite IH.
  destruct (a +:+ b) eqn:E; [|reflexivity].
  destruct a; [rewrite append_nil in E; contradiction|discriminate].
Qed.

Lemma last_char_contains (s : string) (c : ascii) :
  last_char s = Some c -> contains_char c s = true.
Proof.
  induction s as [|x s IH]; [discriminate|]. simpl.
  destruct s as [|y s].
  - intros [= ->]. now rewrite Ascii.eqb_refl.
  - intros H. rewrite (IH H). apply orb_true_r.
Qed.

Lemma endswith_cons (x : ascii) (s suf : string) :
  endswith (String x s) suf
  = if String.eqb (String x s) suf then true else endswith s suf.
Proof. reflexivity. Qed.

Lemma endswith_last (s : string) (c : ascii) :
  endswith s (String c "") = true -> last_char s = Some c.
Proof.
  induction s as [|x s IH].
  - discriminate.
  - rewrite endswith_cons.
    destruct (String.eqb (String x s) (String c "")) eqn:E.
    + apply String.eqb_eq in E. injection E as -> ->. reflexivity.
    + intros H. specialize (IH H). destruct s as [|y s]; [discriminate IH|].
      exact IH.
Qed.

Lemma join_cons (n n' : string) (names : list string) :
  join "/" (n :: n' :: names) = n +:+ "/" +:+ join "/" (n' :: names).
Proof. reflexivity. Qed.

Lemma join_snoc (names : list string) (n : string) :
  names <> [] -> join "/" (names ++ [n]) = join "/" names +:+ "/" +:+ n.
Proof.
  induction names as [|x names IH]; [contradiction|]. intros _.
  destruct names as [|y names]; [reflexivity|].
  change ((x :: y :: names) ++ [n]) with (x :: y :: (names ++ [n])).
  rewrite !join_cons, !append_assoc. do 2 f_equal.
  apply IH. discriminate.
Qed.

Lemma ordinary_head (n : string) :
  ordinary_name n ->
  exists c n', n = String c n' /\ c <> "/"%char /\ c <> "\"%char
               /\ (c = "."%char -> exists d n'', n' = String d n''
                                     /\ d <> "/"%char).
Proof.
  intros (Hne & Hdot & Hs & Hb). destruct n as [|c n']; [contradiction|].
  simpl in Hs, Hb. apply orb_false_iff in Hs as [Hc Hs].
  apply orb_false_iff in Hb as [Hc' Hb].
  exists c, n'. split; [reflexivity|].
  split; [intros ->; discriminate|]. split; [intros ->; discriminate|].
  intros ->. destruct n' as [|d n'']; [contradiction|].
  simpl in Hs. apply orb_false_iff in Hs as [Hd _].
  exists d, n''. split; [reflexivity|]. intros ->. discriminate.
Qed.

Lemma join_head (n : string) (names : list string) :
  exists rest, join "/" (n :: names) = n +:+ rest.
Proof.
  destruct names as [|n' names].
  - exists "". simpl. now rewrite append_nil_r.
  - eexists. apply join_cons.
Qed.

Lemma join_not_absolute (n : string) (names : list string) :
  ordinary_name n ->
  startswith (join "/" (n :: names)) "/" = false
  /\ startswith (join "/" (n :: names)) "./" = false
  /\ join "/" (n :: names) <> "".
Proof.
  intros Hn. destruct (join_head n names) as (rest & ->).
  destruct (ordinary_head n Hn) as (c & n' & -> & Hc & _ & Hdot).
  rewrite append_cons. unfold startswith. rewrite !prefix_cons.
  split; [|split; [|discriminate]].
  - apply Ascii.eqb_neq in Hc. now rewrite Ascii.eqb_sym, Hc.
  - destruct (Ascii.eqb "." c) eqn:E; [|reflexivity].
    apply Ascii.eqb_eq in E. symmetry in E.
    destruct (Hdot E) as (d & n'' & -> & Hd).
    rewrite append_cons, prefix_cons.
    apply Ascii.eqb_neq in Hd. now rewrite Ascii.eqb_sym, Hd.
Qed.

Lemma join_last_char (names : list string) (c : ascii) :
  Forall (fun n => n <> "") names ->
  last_char (join "/" names) = Some c ->
  exists n, In n names /\ last_char n = Some c.
Proof.
  induction 1 as [|n names Hn Hall IH]; [discriminate|].
  destruct names as [|n' names].
  - intros H. exists n. split; [left; reflexivity|exact H].
  - rewrite join_cons. intros H.
    assert (Hj : join "/" (n' :: names) <> "").
    { destruct (join_head n' names) as (rest & ->).
      inversion Hall; subst. destruct n'; [contradiction|discriminate]. }
    rewrite last_char_app in H by discriminate.
    rewrite (last_char_app "/") in H by exact Hj.
    destruct (IH H) as (m & Hm & Hl). exists m. split; [right; exact Hm|exact Hl].
Qed.

Lemma join_not_dot (names : list string) :
  names <> [] -> Forall ordinary_name names -> join "/" names <> ".".
Proof.
  intros Hne Hall. destruct names as [|n names]; [contradiction|].
  inversion Hall as [|? ? Hn _]; subst.
  destruct names as [|n' names].
  - simpl. apply Hn.
  - rewrite join_cons. intros Heq.
    assert (Hc : contains_char "/" (n +:+ "/" +:+ join "/" (n' :: names)) = true).
    { rewrite !contains_char_app. simpl. apply orb_true_r. }
    rewrite Heq in Hc. discriminate.
Qed.

(** For ordinary names the loop computes the names joined by slashes. *)
Lemma rel_path_ordinary (rel : list string) (fn : string) :
  Forall ordinary_name rel -> ordinary_name fn ->
  rel_path_of rel fn = join "/" (rel ++ [fn]).
Proof.
  intros Hrel Hfn. unfold rel_path_of.
  assert (Hall : Forall ordinary_name (rel ++ [fn])).
  { apply Forall_app. split; [exact Hrel|]. now constructor. }
  assert (Hjoin : os_path_join
                    (if String.eqb (relpath rel) "." then "" else relpath rel) fn
                  = join "/" (rel ++ [fn])).
  { destruct rel as [|d rel].
    - simpl. unfold os_path_join.
      destruct (join_not_absolute fn [] Hfn) as (Hs & _). simpl in Hs.
      rewrite Hs. reflexivity.
    - change (relpath (d :: rel)) with (join "/" (d :: rel)).
      pose proof (join_not_dot (d :: rel) ltac:(discriminate) Hrel) as Hdot.
      apply String.eqb_neq in Hdot. rewrite Hdot.
      rewrite join_snoc by discriminate. unfold os_path_join.
      destruct (join_not_absolute fn [] Hfn) as (Hs & _). simpl in Hs.
      rewrite Hs.
      inversion Hrel as [|? ? Hd Hrel']; subst.
      destruct (join_not_absolute d rel Hd) as (_ & _ & Hne).
      apply String.eqb_neq in Hne. rewrite Hne, orb_false_l.
      destruct (endswith (join "/" (d :: rel)) "/") eqn:He; [|reflexivity].
      apply endswith_last in He. apply join_last_char in He.
      + destruct He as (n & Hn & Hl). apply last_char_contains in Hl.
        rewrite List.Forall_forall in Hrel. destruct (Hrel n Hn) as (_ & _ & H & _).
        congruence.
      + eapply Forall_impl; [exact Hrel|]. intros n Hn. apply Hn. }
  rewrite Hjoin.
  rewrite replace_absent.
  - destruct (rel ++ [fn]) as [|n names] eqn:E; [now destruct rel|].
    inversion Hall; subst.
    destruct (join_not_absolute n names) as (_ & Hs & _); [assumption|].
    now rewrite Hs.
  - apply contains_char_join; [discriminate|].
    eapply Forall_impl; [exact Hall|]. intros n Hn. apply Hn.
Qed.

Lemma split_go_cons (sep c : ascii) (cur s : string) :
  split_go sep cur (String c s)
  = if Ascii.eqb c sep then cur :: split_go sep "" s
    else split_go sep (cur +:+ String c "") s.
Proof. reflexivity. Qed.

Lemma split_go_free (a cur rest : string) :
  contains_char "/" a = false ->
  split_go "/" cur (a +:+ rest) = split_go "/" (cur +:+ a) rest.
Proof.
  revert cur. induction a as [|x a IH]; intros cur Ha.
  - now rewrite append_nil, append_nil_r.
  - rewrite contains_char_cons in Ha. apply orb_false_iff in Ha as [Hx Ha].
    rewrite append_cons, split_go_cons, Ascii.eqb_sym, Hx.
    rewrite IH by exact Ha. f_equal.
    now rewrite append_assoc, append_cons, append_nil.
Qed.

Lemma split_go_join (n : string) (names : list string) (cur : string) :
  Forall (fun n => contains_char "/" n = false) (n :: names) ->
  split_go "/" cur (join "/" (n :: names)) = (cur +:+ n) :: names.
Proof.
  revert n cur. induction names as [|n' names IH]; intros n cur Hall.
  - inversion Hall; subst. simpl join.
    rewrite <- (append_nil_r n) at 1. now rewrite split_go_free.
  - inversion Hall as [|? ? Hn Hall']; subst.
    rewrite join_cons, split_go_free by exact Hn.
    rewrite append_cons, append_nil, split_go_cons, Ascii.eqb_refl.
    f_equal. rewrite IH by exact Hall'. reflexivity.
Qed.

Lemma filter_ordinary (names : list string) :
  Forall ordinary_name names ->
  List.filter (fun x => negb (skipped_part x)) names = names.
Proof.
  induction 1 as [|m ms Hm _ IH]; [reflexivity|].
  cbn [List.filter].
  assert (Hk : skipped_part m = false).
  { unfold skipped_part. destruct Hm as (Hm1 & Hm2 & _).
    apply String.eqb_neq in Hm1, Hm2. now rewrite Hm1, Hm2. }
  rewrite Hk. simpl. now rewrite IH.
Qed.

(** The parts of ordinary names joined by slashes are the names. *)
Lemma path_parts_join (names : list string) :
  names <> [] -> Forall ordinary_name names ->
  path_parts (join "/" names) = names
  /\ startswith (join "/" names) "/" = false.
Proof.
  intros Hne Hall. destruct names as [|n names]; [contradiction|].
  inversion Hall as [|? ? Hn _]; subst.
  destruct (join_not_absolute n names Hn) as (Hs & _ & _).
  split; [|exact Hs]. unfold path_parts, split. rewrite Hs.
  rewrite split_go_join, append_nil.
  - now rewrite filter_ordinary.
  - eapply Forall_impl; [exact Hall|]. intros m Hm. apply Hm.
Qed.

Lemma path_div_ordinary (root : Path) (rel : list string) (fn : string) :
  Forall ordinary_name rel -> ordinary_name fn ->
  path_div root (rel_path_of rel fn) = root ++ rel ++ [fn].
Proof.
  intros Hrel Hfn. rewrite rel_path_ordinary by assumption.
  destruct (path_parts_join (rel ++ [fn])) as (Hp & Hs).
  - now destruct rel.
  - apply Forall_app. split; [exact Hrel|]. now constructor.
  - unfold path_div. now rewrite Hs, Hp.
Qed.

(** A tree in which the walk meets ordinary names only. *)
Definition ordinary_tree (tree : list entry) : Prop :=
  forall rel fn, In (rel, fn) (walk_files tree) ->
                 Forall ordinary_name rel /\ ordinary_name fn.

(** In such a tree every selected file is the root followed by the names
    that lead to the file. *)
Lemma select_files_below (root : Path) (inc exc excs gi : list string)
    (tree : list entry) (f : Path) :
  ordinary_tree tree ->
  In f (select_files root inc exc excs gi tree) ->
  exists rel fn, In (rel, fn) (walk_files tree) /\ f = root ++ rel ++ [fn].
Proof.
  intros Hord Hf. apply select_files_In in Hf as (rel & fn & Hw & Hf).
  apply select_file_In in Hf as (-> & _).
  destruct (Hord rel fn Hw) as (Hrel & Hfn).
  exists rel, fn. split; [exact Hw|]. now apply path_div_ordinary.
Qed.

Lemma hash_files_total (io : Path -> file_io) (root : Path) (files : list Path) :
  Forall (fun f => exists rel, f = root ++ rel) files ->
  exists file_hashes, hash_files io files root = Ok file_hashes.
Proof.
  intros Hall. unfold hash_files. generalize (@nil (string * string)).
  induction Hall as [|f files (rel & ->) _ IH]; intros acc; simpl.
  - eauto.
  - rewrite relative_to_below. simpl. apply IH.
Qed.

Lemma get_folders_total (root : Path) (files : list Path) :
  Forall (fun f => exists rel, f = root ++ rel) files ->
  exists folders, get_folders_with_files files root = Ok folders.
Proof.
  unfold get_folders_with_files. intros Hall.
  assert (H : forall acc : gset string, exists folders,
    foldl
      (fun acc f =>
         folders ← acc;
         rel ← relative_to f root;
         mret (folders ∪ list_to_set (ancestors (removelast rel))))
      (Ok acc) files = Ok folders).
  { induction Hall as [|f files (rel & ->) _ IH]; intros acc; simpl.
    - eauto.
    - rewrite relative_to_below. simpl. apply IH. }
  destruct (H ∅) as (folders & ->). simpl. eauto.
Qed.


Lemma as_str_list_strings (l : list string) :
  as_str_list (json_of_strings l) = Ok l.
Proof.
  unfold json_of_strings. simpl. induction l as [|s l IH]; [reflexivity|].
  simpl. now rewrite IH.
Qed.


Lemma bind_Ok {A B} (a : A) (f : A -> result B) : Ok a ≫= f = f a.
Proof. reflexivity. Qed.


(** ** Update *)



Ltac bind_inv H :=
  match type of H with
  | mbind _ ?r = Ok _ =>
      let E := fresh "E" in
      destruct r eqn:E; [|discriminate H];
      unfold mbind at 1, result_bind at 1 in H
  end.


Definition demo_state : json :=
  JObj [ ("metadata",
          JObj [ ("version", JStr "1.0.0");
                 ("last_run", JStr "2026-01-01T00:00:00Z");
                 ("root", JStr "/r");
                 ("include_patterns", json_of_strings ["**/*"]);
                 ("exclude_patterns", json_of_strings ["*.log"]);
                 ("exceptions", json_of_strings ["debug.log"]) ]);
         ("file_hashes", json_of_dict [("a/y", "11"); ("gone", "22")]);
         ("folder_hashes", json_of_dict [(".", "33")]) ].

Definition demo_world : world :=
  {| tree := demo_tree;
     root_is_dir := true;
     gitignore := Some "*.tmp";
     io := demo_io;
     saved_state := Some demo_state;
     now := "2026-02-02T00:00:00Z" |}.


Example cmd_changes_demo :
  cmd_changes demo_world ["/"; "r"]
  = Ok (0%Z,
        Some (Changes {[ ".gitignore"; "a.b"; "debug.log"; "src/lib/.env";
                         "src/lib/m.py" ]}
                {[ "gone" ]} {[ "a/y" ]} {[ "."; "a"; "src"; "src/lib" ]})).
Proof. vm_compute. reflexivity. Qed.

(** ** The matcher at the end of the path *)

(** C6. The pattern [a] is compiled with a final [$], which also matches
    before a newline that ends the path: the matcher accepts the path made
    of [a] and a newline, without consuming it to its end. *)
Theorem trailing_newline_matches :
  pattern_regex "a" = "(?:(?:^|.*/)a$)"
  /\ matches {| patterns := ["a"] |} (String "a" (String newline "")) = true
  /\ matches {| patterns := ["*.py"] |} ("x.py" +:+ String newline "") = true
  /\ matches {| patterns := ["a"] |} (String "a" (String newline "b")) = false.
Proof. vm_compute. auto. Qed.

(** * Further properties *)

(** ** The matcher *)

(** X1. [PatternMatcher.__init__] leaves [self.regex] unset exactly for the
    empty pattern list: every other list compiles, whatever characters its
    patterns hold, so [re.compile] never raises. *)
Theorem regex_none_iff_empty (pats : list string) :
  regex_of {| patterns := pats |} = None <-> pats = [].
Proof.
  destruct pats as [|pat pats].
  - split; reflexivity.
  - rewrite regex_of_patterns. split; discriminate.
Qed.

(** X2. The matcher of a pattern list matches a path exactly when one of
    its patterns does: the pieces of that pattern match from the start of
    the path, or after a slash of the path when the pattern does not begin
    with one, up to the end of the path or the newline that ends it. *)
Theorem matcher_any_pattern (pats : list string) (path : string) :
  matches {| patterns := pats |} path = true
  <-> exists pattern, In pattern pats /\ pattern_matches pattern path.
Proof. apply matches_spec. Qed.

Lemma matches_incl (pats pats' : list string) (path : string) :
  (forall p, In p pats -> In p pats') ->
  matches {| patterns := pats |} path = true ->
  matches {| patterns := pats' |} path = true.
Proof.
  intros Hincl Hm. apply matches_spec in Hm as (p & Hp & Hm).
  apply matches_spec. exists p. auto.
Qed.

(** X3. Only the set of the patterns counts: a list with more patterns
    matches at least the same paths, and the order of the patterns and their
    repetition change nothing. *)
Theorem matcher_monotone (pats pats' : list string) (path : string) :
  (forall p, In p pats -> In p pats') ->
  (matches {| patterns := pats |} path = true ->
   matches {| patterns := pats' |} path = true)
  /\ ((forall p, In p pats' -> In p pats) ->
      matches {| patterns := pats |} path = matches {| patterns := pats' |} path).
Proof.
  intros Hincl. split; [now apply matches_incl|]. intros Hincl'.
  destruct (matches {| patterns := pats |} path) eqn:E1,
    (matches {| patterns := pats' |} path) eqn:E2; try reflexivity.
  - rewrite (matches_incl pats pats' path Hincl E1) in E2. discriminate.
  - rewrite (matches_incl pats' pats path Hincl' E2) in E1. discriminate.
Qed.

Lemma matcher_monotone_witness :
  matches {| patterns := ["*.py"; "*.log"] |} "a/x.log"
  = matches {| patterns := ["*.log"; "*.py"; "*.log"] |} "a/x.log".
Proof.
  apply (matcher_monotone ["*.py"; "*.log"] ["*.log"; "*.py"; "*.log"] "a/x.log").
  - simpl. intuition.
  - simpl. intuition.
Defined.

(** A pattern without a star and without a question mark. *)
Definition wildcard_free (s : string) : Prop :=
  contains_char "*" s = false /\ contains_char "?" s = false.

Lemma tok_replace_absent (c1 : ascii) (old : string) (new : tok)
    (s : string) :
  contains_char c1 s = false ->
  tok_replace (String c1 old) new (lits s) = lits s.
Proof.
  unfold tok_replace, lits. cbn [list_ascii_of_string].
  induction s as [|c s IH]; intros Hc; [reflexivity|].
  rewrite contains_char_cons in Hc. apply orb_false_iff in Hc as [Hc Hs].
  cbn [list_ascii_of_string map tok_replace_go tok_prefix].
  rewrite Hc. cbn [andb]. f_equal. now apply IH.
Qed.

Lemma glob_pieces_literal (s : string) :
  wildcard_free s -> glob_pieces s = lits s.
Proof.
  intros [Hstar Hq]. unfold glob_pieces.
  now rewrite !tok_replace_absent.
Qed.

Lemma glob_match_literal (s rest : string) (ts : list tok) :
  glob_match (lits s ++ ts) rest
  <-> exists tail, rest = s +:+ tail /\ glob_match ts tail.
Proof.
  unfold lits. revert rest. induction s as [|c s IH]; intros rest.
  - simpl. split; [intros H; exists rest; auto|].
    intros (tail & -> & H). now rewrite append_nil.
  - cbn [list_ascii_of_string map app]. split.
    + inversion 1 as [|c' ts' s' Hm| | | | |]; subst.
      apply IH in Hm as (tail & -> & Ht).
      exists tail. split; [now rewrite append_cons|exact Ht].
    + intros (tail & -> & Ht). rewrite append_cons. constructor.
      apply IH. eauto.
Qed.

Lemma glob_match_nil (s : string) : glob_match [] s <-> at_eol s = true.
Proof. split; [now inversion 1|now constructor]. Qed.

Lemma glob_match_all (s : string) :
  glob_match [TAll] s
  <-> exists u tail, s = u +:+ tail /\ contains_char newline u = false
                     /\ at_eol tail = true.
Proof.
  split.
  - inversion 1 as [| | | |u ts' s' Hu Hm| |]; subst.
    exists u, s'. rewrite <- glob_match_nil. auto.
  - intros (u & tail & -> & Hu & Ht). apply glob_all; [exact Hu|].
    now apply glob_match_nil.
Qed.

Lemma startswith_cons (c : ascii) (s : string) :
  startswith (String c s) "/" = Ascii.eqb "/" c.
Proof.
  unfold startswith. rewrite prefix_cons. destruct s; simpl; apply andb_true_r.
Qed.

Lemma matches_single (s path : string) :
  matches {| patterns := [s] |} path = true <-> pattern_matches s path.
Proof.
  rewrite matches_spec. split.
  - now intros (p & [<-|[]] & H).
  - intros H. exists s. split; [now left|exact H].
Qed.

(** X4. A pattern without wildcards matches as a literal: without a
    leading slash it matches the paths that end with it after a segment
    boundary, with a leading slash the one path that is the rest of it; the
    characters that are special in a regular expression stand for
    themselves, and nothing below a directory of that name is matched. In
    both cases a newline may end the path after the pattern. *)
Theorem literal_pattern (s path : string) :
  wildcard_free s ->
  endswith s "/" = false ->
  (startswith s "/" = false ->
   (matches {| patterns := [s] |} path = true
    <-> exists pre tail,
          path = pre +:+ s +:+ tail
          /\ (pre = "" \/ exists pre', pre = pre' +:+ "/")
          /\ at_eol tail = true))
  /\ (s <> "" ->
      (matches {| patterns := [String "/" s] |} path = true
       <-> exists tail, path = s +:+ tail /\ at_eol tail = true)).
Proof.
  intros Hw He. split.
  - intros Hs. rewrite matches_single. unfold pattern_matches, pattern_pieces.
    rewrite Hs, He, app_nil_r, glob_pieces_literal by exact Hw. split.
    + intros (pre & rest & -> & Hpre & Hm).
      rewrite <- (app_nil_r (lits s)) in Hm.
      apply glob_match_literal in Hm as (tail & -> & Ht).
      apply glob_match_nil in Ht. exists pre, tail. split; [reflexivity|].
      split; [|exact Ht]. destruct Hpre as [->|(_ & H)]; auto.
    + intros (pre & tail & -> & Hpre & Ht).
      exists pre, (s +:+ tail). split; [reflexivity|]. split.
      * destruct Hpre as [->|H]; auto.
      * rewrite <- (app_nil_r (lits s)). apply glob_match_literal.
        exists tail. split; [reflexivity|]. now apply glob_match_nil.
  - intros Hne. rewrite matches_single. unfold pattern_matches, pattern_pieces.
    assert (Hs : startswith (String "/" s) "/" = true)
      by now rewrite startswith_cons.
    assert (He' : endswith (String "/" s) "/" = false).
    { rewrite endswith_cons. destruct s as [|c s]; [contradiction|].
      exact He. }
    assert (Hw' : wildcard_free (String "/" s)).
    { destruct Hw as [H1 H2]. split; rewrite contains_char_cons;
        [now rewrite H1|now rewrite H2]. }
    rewrite Hs, He', app_nil_r, glob_pieces_literal by exact Hw'.
    change (tl (lits (String "/" s))) with (lits s). split.
    + intros (pre & rest & -> & Hpre & Hm).
      destruct Hpre as [->|(Hf & _)]; [|congruence].
      rewrite append_nil. rewrite <- (app_nil_r (lits s)) in Hm.
      apply glob_match_literal in Hm as (tail & -> & Ht).
      apply glob_match_nil in Ht. eauto.
    + intros (tail & -> & Ht).
      exists "", (s +:+ tail). split; [reflexivity|]. split; [now left|].
      rewrite <- (app_nil_r (lits s)). apply glob_match_literal.
      exists tail. split; [reflexivity|]. now apply glob_match_nil.
Qed.

Lemma literal_pattern_witness :
  matches {| patterns := ["a.b"] |} "x/a.b" = true
  /\ matches {| patterns := ["/a.b"] |} "a.b" = true.
Proof.
  destruct (literal_pattern "a.b" "x/a.b") as [Hfree _];
    [split; reflexivity|reflexivity|].
  destruct (literal_pattern "a.b" "a.b") as [_ Hroot];
    [split; reflexivity|reflexivity|].
  split.
  - apply Hfree; [reflexivity|]. exists "x/", "".
    split; [reflexivity|]. split; [|reflexivity].
    right. exists "x". reflexivity.
  - apply Hroot; [discriminate|]. exists "". auto.
Defined.

Lemma endswith_app (a suf : string) : endswith (a +:+ suf) suf = true.
Proof.
  induction a as [|c a IH].
  - rewrite append_nil. destruct suf as [|x suf]; [reflexivity|].
    now rewrite endswith_cons, String.eqb_refl.
  - rewrite append_cons, endswith_cons, IH. now destruct (String.eqb _ suf).
Qed.

(** X5. A pattern that ends with a slash matches everything below the
    directory it names, at any depth, and the directory may itself be at any
    depth: for a directory name [d] without wildcards the pattern [d/]
    matches exactly the paths with [d/] after a segment boundary, followed
    by anything without a newline. *)
Theorem directory_pattern (d path : string) :
  wildcard_free d ->
  d <> "" ->
  startswith d "/" = false ->
  (matches {| patterns := [d +:+ "/"] |} path = true
   <-> exists pre u tail,
         path = pre +:+ d +:+ "/" +:+ u +:+ tail
         /\ (pre = "" \/ exists pre', pre = pre' +:+ "/")
         /\ contains_char newline u = false
         /\ at_eol tail = true).
Proof.
  intros Hw Hne Hs. rewrite matches_single.
  unfold pattern_matches, pattern_pieces.
  assert (Hs' : startswith (d +:+ "/") "/" = false).
  { destruct d as [|c d]; [contradiction|].
    rewrite append_cons, startswith_cons. now rewrite startswith_cons in Hs. }
  assert (Hw' : wildcard_free (d +:+ "/")).
  { destruct Hw as [H1 H2]. split; rewrite contains_char_app;
      [now rewrite H1|now rewrite H2]. }
  rewrite Hs', endswith_app, glob_pieces_literal by exact Hw'. split.
  - intros (pre & rest & -> & Hpre & Hm).
    apply glob_match_literal in Hm as (tail0 & -> & Ht).
    apply glob_match_all in Ht as (u & tail & -> & Hu & Ht).
    exists pre, u, tail. rewrite !append_assoc.
    split; [reflexivity|]. split; [|auto].
    destruct Hpre as [->|(_ & H)]; auto.
  - intros (pre & u & tail & -> & Hpre & Hu & Ht).
    exists pre, (d +:+ "/" +:+ u +:+ tail). split; [reflexivity|]. split.
    + destruct Hpre as [->|H]; auto.
    + apply glob_match_literal. exists (u +:+ tail).
      split; [now rewrite append_assoc|]. apply glob_match_all. eauto.
Qed.

Lemma directory_pattern_witness :
  matches {| patterns := ["build/"] |} "pkg/build/out/a.o" = true.
Proof.
  apply (directory_pattern "build" "pkg/build/out/a.o").
  - split; reflexivity.
  - discriminate.
  - reflexivity.
  - exists "pkg/", "out/a.o", "". split; [reflexivity|].
    split; [right; exists "pkg"; reflexivity|]. split; reflexivity.
Defined.

(** Every path splits at its last slash. *)
Lemma last_segment (path : string) :
  exists pre rest,
    path = pre +:+ rest
    /\ (pre = "" \/ exists pre', pre = pre' +:+ "/")
    /\ contains_char "/" rest = false.
Proof.
  induction path as [|c path (pre & rest & -> & Hpre & Hrest)].
  - exists "", "". auto.
  - destruct Hpre as [->|(pre' & ->)].
    + rewrite append_nil. destruct (Ascii.eqb "/" c) eqn:E.
      * apply Ascii.eqb_eq in E. subst c.
        exists "/", rest. split; [reflexivity|]. split; [|exact Hrest].
        right. exists "". reflexivity.
      * exists "", (String c rest). split; [reflexivity|]. split; [now left|].
        now rewrite contains_char_cons, E.
    + exists (String c pre' +:+ "/"), rest. rewrite !append_cons.
      split; [reflexivity|]. split; [|exact Hrest].
      right. exists (String c pre'). now rewrite append_cons.
Qed.

(** X6. The default include pattern [**/*] matches every path, so with it
    every file that the walk meets is selected unless an ignore-file or an
    exclude pattern matches it. *)
Theorem default_include_selects_all (root : Path) (exc excs gi : list string)
    (tree : list entry) :
  (forall path, matches {| patterns := ["**/*"] |} path = true)
  /\ (forall rel fn,
        In (rel, fn) (walk_files tree) ->
        matches {| patterns := gi |} (rel_path_of rel fn) = false ->
        matches {| patterns := exc |} (rel_path_of rel fn) = false ->
        In (path_div root (rel_path_of rel fn))
          (select_files root ["**/*"] exc excs gi tree)).
Proof.
  assert (Hall : forall path, matches {| patterns := ["**/*"] |} path = true).
  { intros path. apply matches_single.
    destruct (last_segment path) as (pre & rest & -> & Hpre & Hrest).
    exists pre, rest. split; [reflexivity|]. split.
    - destruct Hpre as [->|H]; [now left|right; split; [reflexivity|exact H]].
    - change (pattern_pieces "**/*") with [TDirs; TStar].
      apply glob_dirs_none. rewrite <- (append_nil_r rest).
      apply glob_star; [exact Hrest|]. now constructor. }
  split; [exact Hall|]. intros rel fn Hw Hgi Hexc.
  apply select_files_In. exists rel, fn. split; [exact Hw|].
  apply select_file_In. repeat split; auto. congruence.
Qed.

(** ** Selection, further *)

(** X7. Without include patterns and without exceptions nothing is
    selected, whatever the tree holds. *)
Theorem no_include_selects_nothing (root : Path) (exc gi : list string)
    (tree : list entry) :
  select_files root [] exc [] gi tree = [].
Proof.
  destruct (select_files root [] exc [] gi tree) as [|f l] eqn:E;
    [reflexivity|].
  assert (Hf : In f (select_files root [] exc [] gi tree))
    by (rewrite E; now left).
  apply select_files_In in Hf as (rel & fn & _ & Hf).
  apply select_file_In in Hf as (_ & _ & _ & [Hinc|[]]).
  discriminate Hinc.
Qed.



Example hidden_exception_not_selected :
  select_files ["/"; "r"] [] [] [".git/config"] [] demo_tree = [].
Proof. vm_compute. reflexivity. Qed.

(** X9. More ignore-file patterns or more exclude patterns never add a
    file to the selection, and more include patterns never remove one. *)
Theorem selection_monotone (root : Path) (inc inc' exc exc' excs gi gi' : list string)
    (tree : list entry) (f : Path) :
  (forall p, In p inc -> In p inc') ->
  (forall p, In p exc' -> In p exc) ->
  (forall p, In p gi' -> In p gi) ->
  In f (select_files root inc exc excs gi tree) ->
  In f (select_files root inc' exc' excs gi' tree).
Proof.
  intros Hinc Hexc Hgi Hf.
  apply select_files_In in Hf as (rel & fn & Hw & Hf).
  apply select_file_In in Hf as (-> & Hg & He & Hi).
  apply select_files_In. exists rel, fn. split; [exact Hw|].
  apply select_file_In. split; [reflexivity|]. split; [|split].
  - destruct (matches {| patterns := gi' |} (rel_path_of rel fn)) eqn:E;
      [|reflexivity].
    rewrite (matches_incl gi' gi _ Hgi E) in Hg. discriminate.
  - intros E. apply He. exact (matches_incl exc' exc _ Hexc E).
  - destruct Hi as [Hi|Hi]; [left|now right].
    exact (matches_incl inc inc' _ Hinc Hi).
Qed.

Lemma selection_monotone_witness :
  In ["/"; "r"; "a"; "y"]
    (select_files ["/"; "r"] ["*.md"; "**/*"] [] [] [] demo_tree).
Proof.
  apply (selection_monotone ["/"; "r"] ["**/*"] ["*.md"; "**/*"] ["*.log"] []
           [] ["*.tmp"] [] demo_tree).
  - simpl. intuition.
  - simpl. intuition.
  - simpl. intuition.
  - vm_compute. auto.
Defined.

Lemma replace_char_cons (c x : ascii) (new s : string) :
  replace (String c "") new (String x s)
  = if Ascii.eqb c x then new +:+ replace (String c "") new s
    else String x (replace (String c "") new s).
Proof.
  unfold replace.
  change (replace_go (String c "") new 0 (String x s))
    with (if String.prefix (String c "") (String x s)
          then new +:+ replace_go (String c "") new 0 s
          else String x (replace_go (String c "") new 0 s)).
  rewrite prefix_cons. destruct s; simpl; now rewrite andb_true_r.
Qed.

Lemma replace_char_gone (c : ascii) (new s : string) :
  contains_char c new = false ->
  contains_char c (replace (String c "") new s) = false.
Proof.
  intros Hnew. induction s as [|x s IH]; [reflexivity|].
  rewrite replace_char_cons. destruct (Ascii.eqb c x) eqn:E.
  - now rewrite contains_char_app, Hnew, IH.
  - now rewrite contains_char_cons, E, IH.
Qed.

Lemma contains_char_drop1 (c : ascii) (s : string) :
  contains_char c s = false -> contains_char c (drop1 s) = false.
Proof.
  destruct s as [|x s]; [auto|]. rewrite contains_char_cons.
  intros H. now apply orb_false_iff in H as [_ H].
Qed.

(** X10. The relative path computed for a file never holds a backslash,
    whatever the names of the file and of its directories are. *)
Theorem rel_path_posix (rel : list string) (fn : string) :
  contains_char "\" (rel_path_of rel fn) = false.
Proof.
  unfold rel_path_of.
  set (joined := os_path_join _ fn).
  pose proof (replace_char_gone "\" "/" joined eq_refl) as H.
  destruct (startswith (replace "\" "/" joined) "./"); [|exact H].
  now apply contains_char_drop1, contains_char_drop1.
Qed.

Lemma path_str_ordinary (names : list string) :
  Forall ordinary_name names -> names <> [] ->
  path_str names = join "/" names.
Proof.
  intros Hall Hne. destruct names as [|n names]; [contradiction|].
  inversion Hall as [|? ? Hn _]; subst. unfold path_str.
  destruct Hn as (_ & _ & Hs & _).
  assert (H1 : String.eqb n "/" = false).
  { apply String.eqb_neq. intros ->. discriminate Hs. }
  assert (H2 : String.eqb n "//" = false).
  { apply String.eqb_neq. intros ->. discriminate Hs. }
  now rewrite H1, H2.
Qed.

(** X11. In a tree of ordinary names (no slash, no backslash, neither empty
    nor a single dot) every selected path lies below the root, and the key
    under which its hash is stored, the string of the path relative to the
    root, is the relative path that the matchers were asked about. *)
Theorem selected_key_is_rel_path (root : Path) (inc exc excs gi : list string)
    (tree : list entry) (f : Path) :
  ordinary_tree tree ->
  In f (select_files root inc exc excs gi tree) ->
  exists rel fn,
    In (rel, fn) (walk_files tree)
    /\ relative_to f root = Ok (rel ++ [fn])
    /\ path_str (rel ++ [fn]) = rel_path_of rel fn.
Proof.
  intros Hord Hf. apply select_files_In in Hf as (rel & fn & Hw & Hf).
  apply select_file_In in Hf as (-> & _).
  destruct (Hord rel fn Hw) as (Hrel & Hfn).
  exists rel, fn. split; [exact Hw|].
  rewrite path_div_ordinary by assumption. split.
  - apply relative_to_below.
  - rewrite rel_path_ordinary by assumption. apply path_str_ordinary.
    + apply Forall_app. split; [exact Hrel|]. now constructor.
    + now destruct rel.
Qed.

Lemma demo_tree_ordinary : ordinary_tree demo_tree.
Proof.
  intros rel fn Hin. vm_compute in Hin.
  repeat (destruct Hin as [Heq|Hin];
          [injection Heq as <- <-;
           split; [repeat constructor; repeat split; discriminate || reflexivity
                  |repeat split; discriminate || reflexivity]|]).
  destruct Hin.
Qed.

Lemma selected_key_is_rel_path_witness :
  exists rel fn,
    In (rel, fn) (walk_files demo_tree)
    /\ relative_to ["/"; "r"; "src"; "lib"; "m.py"] ["/"; "r"] = Ok (rel ++ [fn])
    /\ path_str (rel ++ [fn]) = rel_path_of rel fn.
Proof.
  apply (selected_key_is_rel_path ["/"; "r"] ["**/*"] [] [] [] demo_tree).
  - exact demo_tree_ordinary.
  - vm_compute. auto 10.
Defined.

(** ** Hashing, further *)

Lemma le_bytes_length (n : nat) (x : Z) : length (MD5.le_bytes n x) = n.
Proof. unfold MD5.le_bytes. now rewrite length_map, length_seq. Qed.

Lemma hex_length (bs : list Z) : String.length (MD5.hex bs) = 2 * length bs.
Proof.
  unfold MD5.hex. induction bs as [|b bs IH]; [reflexivity|].
  cbn [flat_map app string_of_list_ascii String.length length].
  rewrite IH. lia.
Qed.

(** A digest in hexadecimal has 32 characters. *)
Lemma md5_hexdigest_length (data : bytes) :
  String.length (md5_hexdigest data) = 32.
Proof.
  unfold md5_hexdigest, MD5.digest. rewrite hex_length.
  cbv zeta. rewrite !length_app, !le_bytes_length. reflexivity.
Qed.

Lemma md5_hexdigest_nonempty (data : bytes) : md5_hexdigest data <> "".
Proof.
  intros H. pose proof (md5_hexdigest_length data) as Hl.
  rewrite H in Hl. discriminate Hl.
Qed.

(** X12. The empty string is the hash of a file exactly when the file cannot
    be opened or a read of it fails: a file that is read to its end, an empty
    one included, never has the empty string as its hash. *)
Theorem file_hash_empty_iff (io : Path -> file_io) (filepath : Path) :
  compute_file_hash io filepath = ""
  <-> io filepath = OpenError
      \/ exists r, io filepath = Opened r /\ hash_chunks [] r = None.
Proof.
  unfold compute_file_hash. destruct (io filepath) as [|r].
  - split; auto.
  - destruct (hash_chunks [] r) as [hasher|] eqn:E.
    + split.
      * intros H. now apply md5_hexdigest_nonempty in H.
      * intros [H|(r' & [= <-] & H)]; [discriminate|congruence].
    + split; [|reflexivity]. intros _. right. eauto.
Qed.

(** The reads of a file that give the chunks [cs] and then its end. *)
Fixpoint chunks_of (cs : list bytes) : reads :=
  match cs with
  | [] => Eof
  | c :: cs' => Chunk c (chunks_of cs')
  end.

Lemma hash_chunks_of (cs : list bytes) (hasher : bytes) :
  Forall (fun c => c <> []) cs ->
  hash_chunks hasher (chunks_of cs) = Some (hasher ++ concat cs).
Proof.
  intros Hall. revert hasher.
  induction Hall as [|c cs Hc _ IH]; intros hasher; simpl.
  - now rewrite app_nil_r.
  - destruct c as [|b c]; [contradiction|].
    rewrite IH. now rewrite <- app_assoc.
Qed.

(** X13. The hash of a file that is read to its end is the MD5 digest of its
    content, the chunks put together: it does not depend on how the reads
    split the content. *)
Theorem file_hash_of_content (io : Path -> file_io) (filepath : Path)
    (cs : list bytes) :
  Forall (fun c => c <> []) cs ->
  io filepath = Opened (chunks_of cs) ->
  compute_file_hash io filepath = md5_hexdigest (concat cs).
Proof.
  intros Hall Hio. unfold compute_file_hash. rewrite Hio.
  now rewrite hash_chunks_of.
Qed.

Lemma file_hash_of_content_witness :
  compute_file_hash demo_io ["/"; "r"; "c"] = md5_hexdigest (ascii_bytes "abc").
Proof.
  apply (file_hash_of_content demo_io ["/"; "r"; "c"]
           [ascii_bytes "ab"; ascii_bytes "c"]).
  - repeat constructor; discriminate.
  - reflexivity.
Defined.

(** An empty chunk ends the loop: what a read would give after it does not
    enter the hash. *)
Example empty_chunk_ends :
  hash_chunks [] (Chunk (ascii_bytes "ab") (Chunk [] (Chunk (ascii_bytes "c") Eof)))
  = Some (ascii_bytes "ab").
Proof. reflexivity. Qed.

(** ** Hashing of folders, further *)

Lemma sorted_nil {A} `{Ordered A} : sorted (@nil A) = [].
Proof. reflexivity. Qed.

Lemma folder_hash_empty (folder : string) (file_hashes : dict) :
  compute_folder_hash folder file_hashes = ""
  <-> forall path, In path (keys file_hashes) -> beneath folder path = false.
Proof.
  rewrite compute_folder_hash_digest. unfold digest_of_items.
  set (q := List.filter (fun item => beneath folder (fst item)) file_hashes).
  split.
  - intros H path Hin. destruct (sorted q) as [|x l] eqn:Hs.
    + apply sorted_nil_inv in Hs.
      destruct (beneath folder path) eqn:Hb; [|reflexivity].
      unfold keys in Hin. apply in_map_iff in Hin as (item & <- & Hin).
      assert (Hq : In item q) by (apply filter_In; auto).
      rewrite Hs in Hq. destruct Hq.
    + now apply md5_hexdigest_nonempty in H.
  - intros H. assert (Hq : q = []).
    { unfold q. induction file_hashes as [|item d IH]; [reflexivity|].
      simpl. rewrite (H (fst item)) by (simpl; auto).
      apply IH. intros path Hp. apply H. simpl. auto. }
    rewrite Hq. reflexivity.
Qed.

(** X14. The digest of a folder is the empty string exactly when no path of
    the mapping qualifies for the folder. *)
Theorem folder_hash_empty_iff (folder : string) (file_hashes : dict) :
  compute_folder_hash folder file_hashes = ""
  <-> forall path, In path (keys file_hashes) -> beneath folder path = false.
Proof. apply folder_hash_empty. Qed.

Lemma filter_dict_set (P : string -> bool) (d : dict) (k v : string) :
  P k = false ->
  List.filter (fun item => P (fst item)) (dict_set d k v)
  = List.filter (fun item => P (fst item)) d.
Proof.
  intros Hk. induction d as [|[k' v'] d IH]; simpl.
  - now rewrite Hk.
  - destruct (String.eqb k k') eqn:E; simpl.
    + apply String.eqb_eq in E. subst k'. now rewrite Hk.
    + now rewrite IH.
Qed.

(** X15. Setting the hash of a path that does not qualify for a folder, be
    the path new or already in the mapping, leaves the digest of the folder
    as it was. *)
Theorem folder_hash_frame (folder : string) (file_hashes : dict)
    (path digest : string) :
  beneath folder path = false ->
  compute_folder_hash folder (dict_set file_hashes path digest)
  = compute_folder_hash folder file_hashes.
Proof.
  intros Hb. rewrite !compute_folder_hash_digest.
  now rewrite (filter_dict_set (beneath folder)).
Qed.

Lemma folder_hash_frame_witness :
  compute_folder_hash "a" (dict_set [("a/y", "11"); ("ab/x", "22")] "ab/x" "33")
  = compute_folder_hash "a" [("a/y", "11"); ("ab/x", "22")].
Proof. apply folder_hash_frame. reflexivity. Defined.

(** ** Folders and components *)

Lemma join_app (ps qs : list string) :
  ps <> [] -> qs <> [] ->
  join "/" (ps ++ qs) = join "/" ps +:+ "/" +:+ join "/" qs.
Proof.
  intros Hps Hqs. induction ps as [|p ps IH]; [contradiction|].
  destruct ps as [|p' ps].
  - destruct qs as [|q qs]; [contradiction|]. reflexivity.
  - change ((p :: p' :: ps) ++ qs) with (p :: p' :: (ps ++ qs)).
    rewrite !join_cons, !append_assoc. do 2 f_equal.
    apply IH. discriminate.
Qed.

Lemma split_go_nonempty (sep : ascii) (cur s : string) : split_go sep cur s <> [].
Proof.
  revert cur. induction s as [|c s IH]; intros cur; simpl; [discriminate|].
  destruct (Ascii.eqb c sep); [discriminate|apply IH].
Qed.

Lemma split_go_join_app (n : string) (names : list string) (cur r : string) :
  Forall (fun n => contains_char "/" n = false) (n :: names) ->
  split_go "/" cur (join "/" (n :: names) +:+ "/" +:+ r)
  = (cur +:+ n) :: names ++ split "/" r.
Proof.
  revert n cur. induction names as [|n' names IH]; intros n cur Hall.
  - inversion Hall; subst. simpl join.
    rewrite split_go_free by assumption.
    rewrite append_cons, append_nil, split_go_cons, Ascii.eqb_refl. reflexivity.
  - inversion Hall as [|? ? Hn Hall']; subst.
    rewrite join_cons, !append_assoc, split_go_free by exact Hn.
    rewrite append_cons, append_nil, split_go_cons, Ascii.eqb_refl.
    f_equal. rewrite IH by exact Hall'. reflexivity.
Qed.

Lemma split_join (names : list string) :
  names <> [] ->
  Forall (fun n => contains_char "/" n = false) names ->
  split "/" (join "/" names) = names.
Proof.
  intros Hne Hall. destruct names as [|n names]; [contradiction|].
  unfold split. rewrite split_go_join by exact Hall. now rewrite append_nil.
Qed.

Lemma beneath_join (ps qs : list string) :
  ps <> [] ->
  Forall (fun n => contains_char "/" n = false) ps ->
  Forall (fun n => contains_char "/" n = false) qs ->
  join "/" ps <> "." ->
  beneath (join "/" ps) (join "/" qs) = true
  <-> exists rest, rest <> [] /\ qs = ps ++ rest.
Proof.
  intros Hps Hall Hqs Hdot. unfold beneath.
  apply String.eqb_neq in Hdot. rewrite Hdot, andb_false_l, orb_false_r.
  rewrite startswith_app. split.
  - intros (r & Hr). exists (split "/" r).
    split; [apply split_go_nonempty|].
    destruct qs as [|q qs].
    { destruct ps as [|p ps]; [contradiction|].
      exfalso. revert Hr. simpl join at 1.
      destruct ps; simpl; destruct p; discriminate. }
    rewrite <- (split_join (q :: qs)) by (discriminate || exact Hqs).
    rewrite Hr. destruct ps as [|p ps]; [contradiction|].
    unfold split at 1. rewrite append_assoc, split_go_join_app by exact Hall.
    now rewrite append_nil.
  - intros (rest & Hrest & ->). exists (join "/" rest).
    rewrite append_assoc. now apply join_app.
Qed.

(** X16. For a folder and a path made of names without a slash, the test by
    which a path qualifies for a folder other than ["."], that the path
    begins with the folder and a slash, holds exactly when the names of the
    folder are a proper prefix of the names of the path: a folder [a] does
    not take the files of a sibling [ab]. *)
Theorem beneath_components (ps qs : list string) :
  ps <> [] ->
  Forall (fun n => contains_char "/" n = false) ps ->
  Forall (fun n => contains_char "/" n = false) qs ->
  join "/" ps <> "." ->
  beneath (join "/" ps) (join "/" qs) = true
  <-> exists rest, rest <> [] /\ qs = ps ++ rest.
Proof. apply beneath_join. Qed.

Lemma beneath_components_witness :
  beneath "src/a" "src/ab/x" = true
  <-> exists rest, rest <> [] /\ ["src"; "ab"; "x"] = ["src"; "a"] ++ rest.
Proof.
  apply (beneath_components ["src"; "a"] ["src"; "ab"; "x"]).
  - discriminate.
  - repeat constructor.
  - repeat constructor.
  - discriminate.
Defined.

(** ** get_folders_with_files *)

Lemma relative_to_outside (f root : Path) :
  (forall rel, f <> root ++ rel) -> relative_to f root = Raise ValueError.
Proof.
  revert f. induction root as [|r root IH]; intros f Hout; simpl.
  - exfalso. now apply (Hout f).
  - destruct f as [|x f]; [reflexivity|].
    destruct (String.eqb r x) eqn:E; [|reflexivity].
    apply String.eqb_eq in E. subst x. apply IH.
    intros rel ->. now apply (Hout rel).
Qed.

Lemma relative_to_cases (f root : Path) :
  (exists rel, f = root ++ rel /\ relative_to f root = Ok rel)
  \/ ((forall rel, f <> root ++ rel) /\ relative_to f root = Raise ValueError).
Proof.
  destruct (relative_to f root) as [rel|e] eqn:E.
  - left. exists rel. split; [now apply relative_to_app|reflexivity].
  - right. assert (Hout : forall rel, f <> root ++ rel).
    { intros rel ->. rewrite relative_to_below in E. discriminate. }
    split; [exact Hout|]. rewrite <- E. now apply relative_to_outside.
Qed.

Definition folders_step (root : Path) (acc : result (gset string)) (f : Path)
    : result (gset string) :=
  folders ← acc;
  rel ← relative_to f root;
  mret (folders ∪ list_to_set (ancestors (removelast rel))).

Lemma folders_step_raise (root : Path) (files : list Path) :
  foldl (folders_step root) (Raise ValueError) files = Raise ValueError.
Proof. induction files as [|f files IH]; [reflexivity|exact IH]. Qed.

Lemma folders_from (root : Path) (files : list Path) (acc : gset string) :
  (Forall (fun f => exists rel, f = root ++ rel) files
   /\ exists folders,
        foldl (folders_step root) (Ok acc) files = Ok folders
        /\ forall x, x ∈ folders
             <-> x ∈ acc
                 \/ exists rel, In (root ++ rel) files
                      /\ In x (ancestors (removelast rel)))
  \/ (Exists (fun f => forall rel, f <> root ++ rel) files
      /\ foldl (folders_step root) (Ok acc) files = Raise ValueError).
Proof.
  revert acc. induction files as [|f files IH]; intros acc.
  - left. split; [constructor|]. exists acc. split; [reflexivity|].
    intros x. split; [auto|]. intros [H|(rel & [] & _)]. exact H.
  - cbn [foldl].
    destruct (relative_to_cases f root) as [(rel & -> & Hrel)|(Hout & Hrel)].
    + assert (Hstep : folders_step root (Ok acc) (root ++ rel)
                      = Ok (acc ∪ list_to_set (ancestors (removelast rel))))
        by (unfold folders_step; rewrite Hrel; reflexivity).
      rewrite Hstep.
      destruct (IH (acc ∪ list_to_set (ancestors (removelast rel))))
        as [(Hall & folders & Hf & Hx)|(Hex & Hf)].
      * left. split; [constructor; eauto|]. exists folders.
        split; [exact Hf|]. intros x. rewrite Hx, elem_of_union,
          elem_of_list_to_set, list_elem_of_In. split.
        -- intros [[H|H]|(rel' & Hin & H)]; [auto| |].
           ++ right. exists rel. split; [now left|exact H].
           ++ right. exists rel'. split; [now right|exact H].
        -- intros [H|(rel' & [Heq|Hin] & H)]; [auto| |].
           ++ apply app_inv_head in Heq. subst rel'. auto.
           ++ right. exists rel'. auto.
      * right. split; [now apply Exists_cons_tl|exact Hf].
    + assert (Hstep : folders_step root (Ok acc) f = Raise ValueError)
        by (unfold folders_step; rewrite Hrel; reflexivity).
      rewrite Hstep.
      right. split; [now apply Exists_cons_hd|]. apply folders_step_raise.
Qed.

(** X17. [get_folders_with_files] returns, for files that are all below the
    root, the set made of ["."] and of every proper non-empty prefix, joined
    by slashes, of the parts of a file relative to the root: the folder of
    each file and all the folders above it, the root always included. When a
    file is not below the root it raises [ValueError]. *)
Theorem folders_with_files_spec (files : list Path) (root : Path) :
  (Forall (fun f => exists rel, f = root ++ rel) files
   /\ exists folders,
        get_folders_with_files files root = Ok folders
        /\ forall x, x ∈ folders
             <-> x = "."
                 \/ exists rel k, In (root ++ rel) files
                      /\ 0 < k < length rel
                      /\ x = join "/" (firstn k rel))
  \/ (Exists (fun f => forall rel, f <> root ++ rel) files
      /\ get_folders_with_files files root = Raise ValueError).
Proof.
  unfold get_folders_with_files.
  change (foldl _ (Ok ∅) files) with (foldl (folders_step root) (Ok ∅) files).
  destruct (folders_from root files ∅) as [(Hall & folders & -> & Hx)|(Hex & ->)].
  - left. split; [exact Hall|]. exists (folders ∪ {[ "." ]}).
    split; [reflexivity|]. intros x.
    rewrite elem_of_union, elem_of_singleton, Hx. split.
    + intros [[H|(rel & Hin & H)]|H]; [now apply not_elem_of_empty in H| |auto].
      right. apply ancestors_In in H as (k & Hk & ->). eauto.
    + intros [->|(rel & k & Hin & Hk & ->)]; [auto|].
      left. right. exists rel. split; [exact Hin|]. apply ancestors_In. eauto.
  - right. split; [exact Hex|reflexivity].
Qed.

Example folders_demo :
  get_folders_with_files [["/"; "r"; "a"; "b"; "x"]; ["/"; "r"; "y"]] ["/"; "r"]
  = Ok {[ "a"; "a/b"; "." ]}.
Proof. vm_compute. reflexivity. Qed.

(** ** The loop over the files *)

Definition hash_step (io : Path -> file_io) (root : Path) (acc : result dict)
    (f : Path) : result dict :=
  file_hashes ← acc;
  rel ← relative_to f root;
  mret (dict_set file_hashes (path_str rel) (compute_file_hash io f)).

Lemma hash_step_raise (io : Path -> file_io) (root : Path) (files : list Path) :
  foldl (hash_step io root) (Raise ValueError) files = Raise ValueError.
Proof. induction files as [|f files IH]; [reflexivity|exact IH]. Qed.

Lemma keys_dict_set (d : dict) (k v k' : string) :
  In k' (keys (dict_set d k v)) <-> k' = k \/ In k' (keys d).
Proof.
  unfold keys. induction d as [|[k0 v0] d IH]; simpl.
  - intuition congruence.
  - destruct (String.eqb k k0) eqn:E; simpl.
    + apply String.eqb_eq in E. subst k0. intuition congruence.
    + rewrite IH. intuition congruence.
Qed.

Lemma hash_files_from_cases (io : Path -> file_io) (root : Path)
    (files : list Path) (acc : dict) :
  (Forall (fun f => exists rel, f = root ++ rel) files
   /\ exists file_hashes,
        foldl (hash_step io root) (Ok acc) files = Ok file_hashes
        /\ forall k, In k (keys file_hashes)
             <-> In k (keys acc)
                 \/ exists rel, In (root ++ rel) files /\ k = path_str rel)
  \/ (Exists (fun f => forall rel, f <> root ++ rel) files
      /\ foldl (hash_step io root) (Ok acc) files = Raise ValueError).
Proof.
  revert acc. induction files as [|f files IH]; intros acc.
  - left. split; [constructor|]. exists acc. split; [reflexivity|].
    intros k. split; [auto|]. intros [H|(rel & [] & _)]. exact H.
  - cbn [foldl].
    destruct (relative_to_cases f root) as [(rel & -> & Hrel)|(Hout & Hrel)].
    + assert (Hstep : hash_step io root (Ok acc) (root ++ rel)
                      = Ok (dict_set acc (path_str rel)
                              (compute_file_hash io (root ++ rel))))
        by (unfold hash_step; rewrite Hrel; reflexivity).
      rewrite Hstep.
      destruct (IH (dict_set acc (path_str rel)
                      (compute_file_hash io (root ++ rel))))
        as [(Hall & d & Hf & Hk)|(Hex & Hf)].
      * left. split; [constructor; eauto|]. exists d.
        split; [exact Hf|]. intros k. rewrite Hk, keys_dict_set. split.
        -- intros [[->|H]|(rel' & Hin & H)]; [|auto|].
           ++ right. exists rel. split; [now left|reflexivity].
           ++ right. exists rel'. split; [now right|exact H].
        -- intros [H|(rel' & [Heq|Hin] & H)]; [auto| |].
           ++ apply app_inv_head in Heq. subst rel'. auto.
           ++ right. exists rel'. auto.
      * right. split; [now apply Exists_cons_tl|exact Hf].
    + assert (Hstep : hash_step io root (Ok acc) f = Raise ValueError)
        by (unfold hash_step; rewrite Hrel; reflexivity).
      rewrite Hstep.
      right. split; [now apply Exists_cons_hd|]. apply hash_step_raise.
Qed.

Lemma hash_files_cases (io : Path -> file_io) (root : Path) (files : list Path) :
  (Forall (fun f => exists rel, f = root ++ rel) files
   /\ exists file_hashes,
        hash_files io files root = Ok file_hashes
        /\ forall k, In k (keys file_hashes)
             <-> exists rel, In (root ++ rel) files /\ k = path_str rel)
  \/ (Exists (fun f => forall rel, f <> root ++ rel) files
      /\ hash_files io files root = Raise ValueError).
Proof.
  unfold hash_files.
  change (foldl _ (Ok []) files) with (foldl (hash_step io root) (Ok []) files).
  destruct (hash_files_from_cases io root files [])
    as [(Hall & d & Hf & Hk)|(Hex & Hf)].
  - left. split; [exact Hall|]. exists d. split; [exact Hf|].
    intros k. rewrite Hk. simpl. tauto.
  - right. auto.
Qed.

(** X18. The loop that fills the mapping of the file hashes gives, for files
    that are all below the root, a mapping whose keys are exactly the strings
    of the files' paths relative to the root; a file that is not below the
    root makes it raise [ValueError], whatever the other files are. *)
Theorem hash_files_keys (io : Path -> file_io) (root : Path) (files : list Path) :
  (Forall (fun f => exists rel, f = root ++ rel) files
   /\ exists file_hashes,
        hash_files io files root = Ok file_hashes
        /\ forall k, In k (keys file_hashes)
             <-> exists rel, In (root ++ rel) files /\ k = path_str rel)
  \/ (Exists (fun f => forall rel, f <> root ++ rel) files
      /\ hash_files io files root = Raise ValueError).
Proof. apply hash_files_cases. Qed.

Lemma path_str_join (names : list string) :
  names <> [] ->
  Forall (fun n => contains_char "/" n = false) names ->
  path_str names = join "/" names.
Proof.
  intros Hne Hall. destruct names as [|n names]; [contradiction|].
  inversion Hall as [|? ? Hn _]; subst. unfold path_str.
  assert (H1 : String.eqb n "/" = false).
  { apply String.eqb_neq. intros ->. discriminate Hn. }
  assert (H2 : String.eqb n "//" = false).
  { apply String.eqb_neq. intros ->. discriminate Hn. }
  now rewrite H1, H2.
Qed.

(** X19. When the names below the root have no slash, every folder that
    [get_folders_with_files] returns, other than ["."], has a digest that is
    not the empty string in the mapping of the folder hashes: at least the
    file that made it a folder qualifies for it. *)
Theorem folders_have_digests (io : Path -> file_io) (root : Path)
    (files : list Path) (file_hashes : dict) (folders : gset string)
    (folder : string) :
  (forall rel, In (root ++ rel) files ->
               Forall (fun n => contains_char "/" n = false) rel) ->
  hash_files io files root = Ok file_hashes ->
  get_folders_with_files files root = Ok folders ->
  folder ∈ folders -> folder <> "." ->
  exists digest,
    dict_get (hash_folders folders file_hashes) folder = Some digest
    /\ digest <> "".
Proof.
  intros Hnames Hfh Hfo Hin Hdot.
  exists (compute_folder_hash folder file_hashes).
  split; [now apply hash_folders_get|].
  unfold get_folders_with_files in Hfo.
  change (foldl _ (Ok ∅) files) with (foldl (folders_step root) (Ok ∅) files)
    in Hfo.
  destruct (folders_from root files ∅) as [(_ & fs & Hf & Hx)|(_ & Hf)];
    rewrite Hf in Hfo; [|discriminate Hfo].
  injection Hfo as <-.
  apply elem_of_union in Hin as [Hin|Hin];
    [|apply elem_of_singleton in Hin; contradiction].
  apply Hx in Hin as [Hin|(rel & Hrel & Hanc)];
    [now apply not_elem_of_empty in Hin|].
  apply ancestors_In in Hanc as (k & Hk & ->).
  destruct (hash_files_cases io root files) as [(_ & d & Hd & Hkeys)|(_ & Hd)];
    rewrite Hd in Hfh; [|discriminate Hfh].
  injection Hfh as <-.
  intros Hempty. rewrite folder_hash_empty in Hempty.
  assert (Hkey : In (path_str rel) (keys d)) by (apply Hkeys; eauto).
  apply Hempty in Hkey.
  pose proof (Hnames rel Hrel) as Hall.
  assert (Hne : rel <> []) by (destruct rel; [simpl in Hk; lia|discriminate]).
  rewrite path_str_join in Hkey by assumption.
  assert (Hb : beneath (join "/" (firstn k rel)) (join "/" rel) = true).
  { apply beneath_join.
    - destruct rel; [contradiction|]. destruct k; [lia|discriminate].
    - rewrite <- (firstn_skipn k rel) in Hall. now apply Forall_app in Hall.
    - exact Hall.
    - exact Hdot.
    - exists (skipn k rel). split; [|now rewrite firstn_skipn].
      intros Hs. apply (f_equal (@length _)) in Hs.
      rewrite length_skipn in Hs. simpl in Hs. lia. }
  congruence.
Qed.

Lemma folders_have_digests_witness :
  exists digest,
    dict_get
      (hash_folders {[ "a"; "a/b"; "." ]}
         [("a/b/x", compute_file_hash demo_io ["/"; "r"; "a"; "b"; "x"])]) "a/b"
    = Some digest
    /\ digest <> "".
Proof.
  apply (folders_have_digests demo_io ["/"; "r"] [["/"; "r"; "a"; "b"; "x"]]).
  - intros rel [Heq|[]]. apply (app_inv_head ["/"; "r"]) in Heq. subst rel.
    repeat constructor.
  - reflexivity.
  - vm_compute. reflexivity.
  - set_solver.
  - discriminate.
Defined.

(** ** A name that begins with a backslash *)

Lemma rel_path_backslash (n : string) :
  contains_char "\" n = false ->
  rel_path_of [] (String "\" n) = String "/" n.
Proof.
  intros Hn. unfold rel_path_of, relpath.
  change (String.eqb "." ".") with true. cbv iota.
  unfold os_path_join. rewrite startswith_cons.
  change (Ascii.eqb "/" "\") with false. cbv iota.
  change (String.eqb "" "" || endswith "" "/") with true. cbv iota.
  rewrite append_nil.
  rewrite replace_char_cons, Ascii.eqb_refl, replace_absent by exact Hn.
  unfold startswith. rewrite append_cons, append_nil, prefix_cons.
  reflexivity.
Qed.

Lemma path_div_absolute (root : Path) (n : string) :
  ordinary_name n -> path_div root (String "/" n) = ["/"; n].
Proof.
  intros Hn. unfold path_div, path_parts.
  rewrite startswith_cons, Ascii.eqb_refl.
  destruct (ordinary_head n Hn) as (c & n' & -> & Hc & _).
  assert (H2 : startswith (String "/" (String c n')) "//" = false).
  { unfold startswith. rewrite !prefix_cons.
    apply Ascii.eqb_neq in Hc. rewrite Ascii.eqb_sym in Hc.
    rewrite Hc. now rewrite andb_false_r. }
  rewrite H2. cbn [andb]. f_equal.
  unfold split. rewrite split_go_cons, Ascii.eqb_refl.
  assert (Hs : split_go "/" "" (String c n') = [String c n']).
  { pose proof (split_go_free (String c n') "" "" (proj1 (proj2 (proj2 Hn))))
      as Hs.
    rewrite append_nil_r, append_nil in Hs. exact Hs. }
  rewrite Hs. cbn [List.filter]. change (skipped_part "") with true. cbn [negb].
  apply (filter_ordinary [String c n']). now constructor.
Qed.

(** X20. A file at the top of the tree whose name begins with a backslash,
    when it is selected, makes [cmd_init] raise [ValueError] before anything
    is saved: the backslash becomes a slash, the relative path is taken for
    an absolute one, and the selected path is not below the root (unless the
    root is such that it is). The name after the backslash is an ordinary
    one here. *)
Theorem init_backslash_name (w : world) (a : args) (n : string) :
  root_is_dir w = true ->
  In (File (String "\" n)) (tree w) ->
  ordinary_name n ->
  (forall rel, ["/"; n] <> arg_root a ++ rel) ->
  matches {| patterns := load_gitignore (gitignore w) |} (String "/" n) = false ->
  matches {| patterns := or_default (arg_exclude a) [] |} (String "/" n) = false ->
  matches {| patterns := or_default (arg_include a) ["**/*"] |} (String "/" n)
  = true ->
  cmd_init w a = Raise ValueError.
Proof.
  intros Hdir Hfile Hn Hout Hgi Hexc Hinc.
  unfold cmd_init. rewrite Hdir. cbn [negb].
  set (files := select_files _ _ _ _ _ _).
  assert (Hin : In ["/"; n] files).
  { apply select_files_In. exists [], (String "\" n). split.
    - apply walk_files_In. split; [exact Hfile|constructor].
    - apply select_file_In. destruct Hn as (Hn1 & Hn2 & Hn3 & Hn4).
      rewrite rel_path_backslash by exact Hn4.
      split; [symmetry; apply path_div_absolute; repeat split; assumption|].
      split; [exact Hgi|]. split; [congruence|]. now left. }
  destruct (hash_files_cases (io w) (arg_root a) files)
    as [(Hall & _)|(_ & ->)]; [|reflexivity].
  exfalso. rewrite List.Forall_forall in Hall.
  destruct (Hall _ Hin) as (rel & Hrel). now apply (Hout rel).
Qed.

Definition backslash_world : world :=
  {| tree := [File "\x"; File "y"];
     root_is_dir := true;
     gitignore := None;
     io := demo_io;
     saved_state := None;
     now := "2026-02-02T00:00:00Z" |}.

Lemma init_backslash_name_witness :
  cmd_init backslash_world
    {| arg_root := ["/"; "r"]; arg_include := None; arg_exclude := None;
       arg_exception := None |}
  = Raise ValueError.
Proof.
  apply (init_backslash_name backslash_world _ "x").
  - reflexivity.
  - simpl. auto.
  - repeat split; discriminate.
  - intros rel. discriminate.
  - reflexivity.
  - reflexivity.
  - vm_compute. reflexivity.
Defined.

(** ** One command after another *)

(** The world that a command finds after [state] was saved, at the time
    [now']: the tree, the ignore file and the files are as they were. *)
Definition with_state (w : world) (state : json) (now' : string) : world :=
  {| tree := tree w;
     root_is_dir := root_is_dir w;
     gitignore := gitignore w;
     io := io w;
     saved_state := Some state;
     now := now' |}.

Lemma obj_get_json_of_dict (d : dict) (k : string) :
  obj_get (map (fun item => (fst item, JStr (snd item))) d) k
  = option_map JStr (dict_get d k).
Proof.
  induction d as [|[k' v] d IH]; simpl; [reflexivity|].
  destruct (String.eqb k k'); [reflexivity|exact IH].
Qed.

Lemma dict_get_keys (d : dict) (k : string) :
  In k (keys d) -> exists v, dict_get d k = Some v.
Proof.
  unfold keys. induction d as [|[k' v] d IH]; simpl; [tauto|].
  intros Hin. destruct (String.eqb k k') eqn:E; [eauto|].
  apply String.eqb_neq in E. destruct Hin as [Heq|Hin]; [congruence|auto].
Qed.

(** A mapping compared with itself, as it is saved, shows no change. *)
Lemma detect_changes_same (d : dict) :
  detect_changes d (map (fun item => (fst item, JStr (snd item))) d) = NoChanges.
Proof.
  unfold detect_changes.
  assert (Hk : map fst (map (fun item => (fst item, JStr (snd item))) d) = keys d).
  { unfold keys. rewrite map_map. reflexivity. }
  rewrite Hk. set (X := list_to_set (keys d) : gset string).
  rewrite difference_diag_L.
  assert (Hm : filter
                 (fun path =>
                    hash_differs d (map (fun item => (fst item, JStr (snd item))) d)
                      path = true) (X ∩ X) = ∅).
  { apply elem_of_equiv_empty_L. intros p Hp.
    apply elem_of_filter in Hp as (Hp & Hin).
    apply elem_of_intersection in Hin as [Hin _].
    unfold X in Hin. rewrite elem_of_list_to_set, list_elem_of_In in Hin.
    apply dict_get_keys in Hin as (v & Hv).
    unfold hash_differs in Hp. rewrite obj_get_json_of_dict, Hv in Hp.
    simpl in Hp. rewrite String.eqb_refl in Hp. discriminate. }
  rewrite Hm. rewrite !bool_decide_eq_true_2 by reflexivity. reflexivity.
Qed.

Lemma changes_after_save (w : world) (root : Path) (state : json) (now' : string)
    (files : list Path) (d : dict) :
  truthy state = true ->
  select_from_state w root state = Ok files ->
  hash_files (io w) files root = Ok d ->
  get_default state "file_hashes" (JObj []) = Ok (json_of_dict d) ->
  cmd_changes (with_state w state now') root = Ok (0%Z, Some NoChanges).
Proof.
  intros Ht Hsel Hhash Hfh. unfold cmd_changes.
  change (saved_state (with_state w state now')) with (Some state).
  cbv beta iota. rewrite Ht. cbn [negb].
  change (select_from_state (with_state w state now') root state)
    with (select_from_state w root state).
  rewrite Hsel, bind_Ok.
  change (io (with_state w state now')) with (io w).
  rewrite Hhash, bind_Ok, Hfh, bind_Ok.
  unfold json_of_dict, as_object. rewrite bind_Ok.
  now rewrite detect_changes_same.
Qed.

Lemma select_from_state_eq (w : world) (root : Path)
    (fields meta : list (string * json)) (inc exc excs : list string) :
  obj_get fields "metadata" = Some (JObj meta) ->
  obj_get meta "include_patterns" = Some (json_of_strings inc) ->
  obj_get meta "exclude_patterns" = Some (json_of_strings exc) ->
  obj_get meta "exceptions" = Some (json_of_strings excs) ->
  select_from_state w root (JObj fields)
  = Ok (select_files root inc exc excs (load_gitignore (gitignore w)) (tree w)).
Proof.
  intros Hm Hi He Hx. unfold select_from_state, get_default.
  rewrite Hm. cbn [from_option id]. rewrite bind_Ok.
  rewrite Hi, He, Hx. cbn [from_option id].
  rewrite !bind_Ok, !as_str_list_strings, !bind_Ok. reflexivity.
Qed.


(** X21. [changes] run after [init], on the tree and the files as [init]
    found them, reports no change. *)
Theorem init_then_changes (w : world) (a : args) (code : Z) (state : json)
    (folders : list string) (now' : string) :
  cmd_init w a = Ok (code, Some state, folders) ->
  cmd_changes (with_state w state now') (arg_root a) = Ok (0%Z, Some NoChanges).
Proof.
  intros Hinit. unfold cmd_init in Hinit.
  destruct (negb (root_is_dir w)); [discriminate Hinit|].
  do 2 bind_inv Hinit. injection Hinit as _ <- _.
  eapply changes_after_save.
  - reflexivity.
  - eapply select_from_state_eq; reflexivity.
  - exact E.
  - reflexivity.
Qed.

Lemma init_then_changes_witness :
  exists code state folders,
    cmd_init demo_world
      {| arg_root := ["/"; "r"]; arg_include := None;
         arg_exclude := Some ["*.log"]; arg_exception := None |}
    = Ok (code, Some state, folders)
    /\ cmd_changes (with_state demo_world state "2026-03-03T00:00:00Z") ["/"; "r"]
       = Ok (0%Z, Some NoChanges).
Proof.
  eexists _, _, _. split; [vm_compute; reflexivity|].
  eapply (init_then_changes demo_world
           {| arg_root := ["/"; "r"]; arg_include := None;
              arg_exclude := Some ["*.log"]; arg_exception := None |} 0%Z).
  vm_compute. reflexivity.
Defined.








(** X24. A state without [metadata] is enough for [changes], which falls
    back on the default patterns, but not for [update]: after the hashing
    it raises [KeyError] and saves nothing. The tree has ordinary names. *)
Theorem update_requires_metadata (w : world) (root : Path)
    (fields : list (string * json)) :
  saved_state w = Some (JObj fields) ->
  fields <> [] ->
  obj_get fields "metadata" = None ->
  ordinary_tree (tree w) ->
  cmd_update w root = Raise KeyError
  /\ (forall saved_hashes,
        get_default (JObj fields) "file_hashes" (JObj []) = Ok (JObj saved_hashes) ->
        exists current_hashes,
          hash_files (io w)
            (select_files root ["**/*"] [] [] (load_gitignore (gitignore w))
               (tree w)) root = Ok current_hashes
          /\ cmd_changes w root
             = Ok (0%Z, Some (detect_changes current_hashes saved_hashes))).
Proof.
  intros Hstate Hne Hm Hord.
  assert (Ht : truthy (JObj fields) = true) by (destruct fields; [contradiction|reflexivity]).
  assert (Hsel : select_from_state w root (JObj fields)
                 = Ok (select_files root ["**/*"] [] []
                         (load_gitignore (gitignore w)) (tree w))).
  { unfold select_from_state, get_default. rewrite Hm. reflexivity. }
  set (files := select_files root ["**/*"] [] [] (load_gitignore (gitignore w))
                  (tree w)) in *.
  assert (Hbelow : Forall (fun f => exists rel, f = root ++ rel) files).
  { apply List.Forall_forall. intros f Hf.
    apply select_files_below in Hf as (rel & fn & _ & ->); [|exact Hord].
    eauto. }
  destruct (hash_files_total (io w) root files Hbelow) as (d & Hd).
  destruct (get_folders_total root files Hbelow) as (folders & Hf).
  split.
  - unfold cmd_update. rewrite Hstate, Ht. cbn [negb].
    rewrite Hsel, bind_Ok, Hd, bind_Ok, Hf, bind_Ok.
    unfold getitem. rewrite Hm. reflexivity.
  - intros saved_hashes Hfh. exists d. split; [exact Hd|].
    unfold cmd_changes. rewrite Hstate, Ht. cbn [negb].
    rewrite Hsel, bind_Ok, Hd, bind_Ok, Hfh. reflexivity.
Qed.

Lemma update_requires_metadata_witness :
  cmd_update
    {| tree := demo_tree; root_is_dir := true; gitignore := None; io := demo_io;
       saved_state := Some (JObj [("file_hashes", JObj [])]);
       now := "2026-02-02T00:00:00Z" |} ["/"; "r"]
  = Raise KeyError.
Proof.
  apply (update_requires_metadata
           {| tree := demo_tree; root_is_dir := true; gitignore := None;
              io := demo_io;
              saved_state := Some (JObj [("file_hashes", JObj [])]);
              now := "2026-02-02T00:00:00Z" |} ["/"; "r"]
           [("file_hashes", JObj [])]).
  - reflexivity.
  - discriminate.
  - reflexivity.
  - exact demo_tree_ordinary.
Defined.

(** ** load_gitignore, further *)

Lemma lstrip_head (s : string) (c : ascii) (t : string) :
  lstrip s = String c t -> is_space c = false.
Proof.
  induction s as [|x s IH]; simpl; [discriminate|].
  destruct (is_space x) eqn:E; [exact IH|]. now intros [= <- <-].
Qed.

Lemma lstrip_fixed (c : ascii) (t : string) :
  is_space c = false -> lstrip (String c t) = String c t.
Proof. intros H. simpl. now rewrite H. Qed.

Lemma rstrip_cons (c : ascii) (s : string) :
  rstrip (String c s)
  = match rstrip s with
    | "" => if is_space c then "" else String c ""
    | t => String c t
    end.
Proof. reflexivity. Qed.

Lemma rstrip_idem (s : string) : rstrip (rstrip s) = rstrip s.
Proof.
  induction s as [|c s IH]; [reflexivity|].
  rewrite rstrip_cons. destruct (rstrip s) as [|d t] eqn:E.
  - destruct (is_space c) eqn:Ec; [reflexivity|].
    rewrite rstrip_cons. simpl rstrip. now rewrite Ec.
  - rewrite rstrip_cons, IH. reflexivity.
Qed.

Lemma rstrip_head (c : ascii) (s : string) :
  rstrip (String c s) = "" \/ exists t, rstrip (String c s) = String c t.
Proof.
  rewrite rstrip_cons. destruct (rstrip s); [|eauto].
  destruct (is_space c); eauto.
Qed.

Lemma strip_idem (s : string) : strip (strip s) = strip s.
Proof.
  unfold strip. destruct (lstrip s) as [|c u] eqn:E; [reflexivity|].
  apply lstrip_head in E.
  destruct (rstrip_head c u) as [->|(t & Ht)]; [reflexivity|].
  rewrite Ht, lstrip_fixed by exact E. rewrite <- Ht. apply rstrip_idem.
Qed.

Lemma contains_char_lstrip (c : ascii) (s : string) :
  contains_char c s = false -> contains_char c (lstrip s) = false.
Proof.
  induction s as [|x s IH]; [auto|]. intros H. simpl.
  destruct (is_space x); [|exact H]. apply IH.
  rewrite contains_char_cons in H. now apply orb_false_iff in H as [_ H].
Qed.

Lemma contains_char_rstrip (c : ascii) (s : string) :
  contains_char c s = false -> contains_char c (rstrip s) = false.
Proof.
  induction s as [|x s IH]; [auto|]. intros H.
  rewrite contains_char_cons in H. apply orb_false_iff in H as [Hx H].
  rewrite rstrip_cons. specialize (IH H). destruct (rstrip s) as [|d t].
  - destruct (is_space x); [reflexivity|].
    now rewrite contains_char_cons, Hx.
  - now rewrite contains_char_cons, Hx, IH.
Qed.

Lemma split_go_pieces (sep : ascii) (cur s piece : string) :
  contains_char sep cur = false ->
  In piece (split_go sep cur s) -> contains_char sep piece = false.
Proof.
  revert cur. induction s as [|c s IH]; intros cur Hcur; simpl.
  - now intros [<-|[]].
  - destruct (Ascii.eqb c sep) eqn:E.
    + intros [<-|Hin]; [exact Hcur|]. now apply (IH "").
    + apply IH. rewrite contains_char_app, Hcur.
      rewrite contains_char_cons, Ascii.eqb_sym, E. reflexivity.
Qed.

(** X25. Every pattern that [load_gitignore] returns is a line of the file
    with the white space around it removed: it is not empty, it does not
    begin with the comment sign, it has no white space at either end and it
    holds no newline. A blank line or a comment, indented or not, gives no
    pattern, and so does a file that does not exist. *)
Theorem gitignore_patterns_clean (text : option string) (pattern : string) :
  In pattern (load_gitignore text) ->
  pattern <> ""
  /\ startswith pattern "#" = false
  /\ strip pattern = pattern
  /\ contains_char newline pattern = false.
Proof.
  unfold load_gitignore. destruct text as [t|]; [|intros []].
  intros Hin. apply filter_In in Hin as (Hin & Hf).
  apply andb_true_iff in Hf as (Hne & Hc).
  apply negb_true_iff in Hne, Hc. apply String.eqb_neq in Hne.
  apply in_map_iff in Hin as (line & <- & Hline).
  split; [exact Hne|]. split; [exact Hc|]. split; [apply strip_idem|].
  unfold strip. apply contains_char_rstrip, contains_char_lstrip.
  unfold text_lines, split in Hline.
  now apply split_go_pieces in Hline.
Qed.

Lemma gitignore_patterns_clean_witness :
  "dist/" <> ""
  /\ startswith "dist/" "#" = false
  /\ strip "dist/" = "dist/"
  /\ contains_char newline "dist/" = false.
Proof.
  apply (gitignore_patterns_clean
           (Some ("  # build" +:+ String newline ("  dist/ " +:+ String "013"
                    (String newline (String newline ("*.log"))))))).
  vm_compute. auto.
Defined.

Example gitignore_indented_comment :
  load_gitignore
    (Some ("  # build" +:+ String newline ("  dist/ " +:+ String "013"
             (String newline (String newline ("*.log"))))))
  = ["dist/"; "*.log"].
Proof. vm_compute. reflexivity. Qed.

(** ** One wildcard *)

Lemma lits_app (s t : string) : lits (s +:+ t) = lits s ++ lits t.
Proof.
  unfold lits. induction s as [|c s IH]; [reflexivity|].
  rewrite append_cons. cbn [list_ascii_of_string map app]. now rewrite IH.
Qed.

Lemma tok_replace_go_lits (c : ascii) (old : list ascii) (new : tok)
    (s : string) (ts : list tok) :
  contains_char c s = false ->
  tok_replace_go (c :: old) new 0 (lits s ++ ts)
  = lits s ++ tok_replace_go (c :: old) new 0 ts.
Proof.
  unfold lits. induction s as [|x s IH]; intros Hc; [reflexivity|].
  rewrite contains_char_cons in Hc. apply orb_false_iff in Hc as [Hx Hs].
  cbn [list_ascii_of_string map app tok_replace_go tok_prefix].
  rewrite Hx. cbn [andb]. f_equal. now apply IH.
Qed.

Lemma tok_prefix_lits (c : ascii) (old : list ascii) (s : string) :
  contains_char c s = false -> tok_prefix (c :: old) (lits s) = false.
Proof.
  destruct s as [|x s]; [reflexivity|]. rewrite contains_char_cons.
  intros H. apply orb_false_iff in H as [Hx _].
  unfold lits. cbn [list_ascii_of_string map tok_prefix]. now rewrite Hx.
Qed.

Lemma tok_replace_go_nil (old : list ascii) (new : tok) (s : string) :
  match old with [] => False | c :: _ => contains_char c s = false end ->
  tok_replace_go old new 0 (lits s) = lits s.
Proof.
  destruct old as [|c old]; [contradiction|]. intros Hc.
  rewrite <- (app_nil_r (lits s)) at 1.
  rewrite tok_replace_go_lits by exact Hc. now rewrite app_nil_r.
Qed.

Lemma tok_prefix_cons (c c' : ascii) (old : list ascii) (ts : list tok) :
  tok_prefix (c :: old) (TLit c' :: ts) = Ascii.eqb c c' && tok_prefix old ts.
Proof. reflexivity. Qed.

Lemma tok_replace_go_cons (old : list ascii) (new : tok) (t : tok)
    (ts : list tok) :
  tok_replace_go old new 0 (t :: ts)
  = if tok_prefix old (t :: ts)
    then new :: tok_replace_go old new (length old - 1) ts
    else t :: tok_replace_go old new 0 ts.
Proof. reflexivity. Qed.

(** The pieces of a pattern with one star between two runs of plain
    characters. *)
Lemma glob_pieces_star (s1 s2 : string) :
  wildcard_free s1 -> wildcard_free s2 ->
  glob_pieces (s1 +:+ String "*" s2) = lits s1 ++ TStar :: lits s2.
Proof.
  intros [Hs1 Hq1] [Hs2 Hq2]. unfold glob_pieces, tok_replace.
  rewrite lits_app. cbn [list_ascii_of_string].
  change (lits (String "*" s2)) with (TLit "*" :: lits s2).
  assert (Hpass : forall old new,
            tok_replace_go ("*"%char :: "*"%char :: old) new 0
              (lits s1 ++ TLit "*" :: lits s2)
            = lits s1 ++ TLit "*" :: lits s2).
  { intros old new. rewrite tok_replace_go_lits by exact Hs1. f_equal.
    rewrite tok_replace_go_cons, tok_prefix_cons.
    rewrite tok_prefix_lits by exact Hs2. rewrite andb_false_r. f_equal.
    now apply (tok_replace_go_nil ("*"%char :: "*"%char :: old)). }
  rewrite !Hpass.
  rewrite tok_replace_go_lits by exact Hs1.
  rewrite tok_replace_go_cons, tok_prefix_cons.
  change (Ascii.eqb "*" "*" && tok_prefix [] (lits s2)) with true. cbv iota.
  change (length ["*"%char] - 1) with 0.
  rewrite (tok_replace_go_nil ["*"%char]) by exact Hs2.
  rewrite tok_replace_go_lits by exact Hq1. f_equal.
  rewrite tok_replace_go_cons.
  change (tok_prefix ["?"%char] (TStar :: lits s2)) with false. cbv iota.
  f_equal. now apply (tok_replace_go_nil ["?"%char]).
Qed.

Lemma glob_pieces_quest (s1 s2 : string) :
  wildcard_free s1 -> wildcard_free s2 ->
  glob_pieces (s1 +:+ String "?" s2) = lits s1 ++ TQuest :: lits s2.
Proof.
  intros [Hs1 Hq1] [Hs2 Hq2]. unfold glob_pieces, tok_replace.
  assert (Hstar : contains_char "*" (s1 +:+ String "?" s2) = false).
  { rewrite contains_char_app, Hs1, contains_char_cons, Hs2. reflexivity. }
  cbn [list_ascii_of_string].
  rewrite !tok_replace_go_nil by exact Hstar.
  rewrite lits_app. change (lits (String "?" s2)) with (TLit "?" :: lits s2).
  rewrite tok_replace_go_lits by exact Hq1. f_equal.
  rewrite tok_replace_go_cons, tok_prefix_cons.
  change (Ascii.eqb "?" "?" && tok_prefix [] (lits s2)) with true. cbv iota.
  change (length ["?"%char] - 1) with 0.
  f_equal. now apply (tok_replace_go_nil ["?"%char]).
Qed.

Lemma last_char_endswith (s : string) (c : ascii) :
  last_char s = Some c -> endswith s (String c "") = true.
Proof.
  induction s as [|x s IH]; [discriminate|].
  rewrite endswith_cons.
  destruct (String.eqb (String x s) (String c "")) eqn:E; [reflexivity|].
  destruct s as [|y s]; [|exact IH].
  intros [= ->]. rewrite String.eqb_refl in E. discriminate E.
Qed.

Lemma endswith_wild (s1 s2 : string) (x : ascii) :
  x <> "/"%char -> endswith s2 "/" = false ->
  endswith (s1 +:+ String x s2) "/" = false.
Proof.
  intros Hx Hs2. destruct (endswith (s1 +:+ String x s2) "/") eqn:E;
    [|reflexivity].
  apply endswith_last in E. rewrite last_char_app in E by discriminate.
  destruct s2 as [|y s2].
  - simpl in E. congruence.
  - change (last_char (String x (String y s2))) with (last_char (String y s2)) in E.
    apply last_char_endswith in E. congruence.
Qed.

Lemma startswith_wild (s1 s2 : string) (x : ascii) :
  x <> "/"%char -> startswith s1 "/" = false ->
  startswith (s1 +:+ String x s2) "/" = false.
Proof.
  intros Hx Hs1. destruct s1 as [|c s1].
  - rewrite append_nil, startswith_cons. apply Ascii.eqb_neq. congruence.
  - rewrite append_cons, startswith_cons. now rewrite startswith_cons in Hs1.
Qed.

(** X26. A star stays within one segment of the path. A pattern made of
    plain characters, one star and plain characters again, without a
    leading and without a trailing slash, matches exactly the paths that
    have, after a segment boundary, the first run, then any characters but
    a slash, then the second run up to the end of the path (or the newline
    that ends it). *)
Theorem star_pattern (s1 s2 path : string) :
  wildcard_free s1 -> wildcard_free s2 ->
  startswith s1 "/" = false -> endswith s2 "/" = false ->
  (matches {| patterns := [s1 +:+ String "*" s2] |} path = true
   <-> exists pre u tail,
         path = pre +:+ s1 +:+ u +:+ s2 +:+ tail
         /\ (pre = "" \/ exists pre', pre = pre' +:+ "/")
         /\ contains_char "/" u = false
         /\ at_eol tail = true).
Proof.
  intros Hw1 Hw2 Hs He. rewrite matches_single.
  unfold pattern_matches, pattern_pieces.
  rewrite startswith_wild, endswith_wild, app_nil_r, glob_pieces_star
    by (assumption || discriminate).
  split.
  - intros (pre & rest & -> & Hpre & Hm).
    apply glob_match_literal in Hm as (tail0 & -> & Hm).
    inversion Hm as [| | |u ts' s' Hu Hm'| | |]; subst.
    rewrite <- (app_nil_r (lits s2)) in Hm'.
    apply glob_match_literal in Hm' as (tail & -> & Ht).
    apply glob_match_nil in Ht. exists pre, u, tail.
    split; [reflexivity|]. split; [|auto].
    destruct Hpre as [->|(_ & H)]; auto.
  - intros (pre & u & tail & -> & Hpre & Hu & Ht).
    exists pre, (s1 +:+ u +:+ s2 +:+ tail). split; [reflexivity|]. split.
    + destruct Hpre as [->|H]; auto.
    + apply glob_match_literal. exists (u +:+ s2 +:+ tail).
      split; [reflexivity|]. apply glob_star; [exact Hu|].
      rewrite <- (app_nil_r (lits s2)). apply glob_match_literal.
      exists tail. split; [reflexivity|]. now apply glob_match_nil.
Qed.

Lemma star_pattern_witness :
  (matches {| patterns := ["src/*.py"] |} "src/a/b.py" = true
   <-> exists pre u tail,
         "src/a/b.py" = pre +:+ "src/" +:+ u +:+ ".py" +:+ tail
         /\ (pre = "" \/ exists pre', pre = pre' +:+ "/")
         /\ contains_char "/" u = false
         /\ at_eol tail = true).
Proof.
  apply (star_pattern "src/" ".py" "src/a/b.py");
    (split; reflexivity) || reflexivity.
Defined.

Example star_within_segment :
  matches {| patterns := ["src/*.py"] |} "src/a/b.py" = false
  /\ matches {| patterns := ["src/*.py"] |} "lib/src/b.py" = true
  /\ matches {| patterns := ["*.log"] |} "a/b/c.log" = true.
Proof. vm_compute. auto. Qed.

(** X27. A question mark stands for any one character but a newline, a
    slash included. A pattern made of plain characters, one question mark
    and plain characters again, without a leading and without a trailing
    slash, matches exactly the paths that have, after a segment boundary,
    the first run, one character, then the second run up to the end of the
    path (or the newline that ends it). *)
Theorem question_pattern (s1 s2 path : string) :
  wildcard_free s1 -> wildcard_free s2 ->
  startswith s1 "/" = false -> endswith s2 "/" = false ->
  (matches {| patterns := [s1 +:+ String "?" s2] |} path = true
   <-> exists pre c tail,
         path = pre +:+ s1 +:+ String c s2 +:+ tail
         /\ (pre = "" \/ exists pre', pre = pre' +:+ "/")
         /\ c <> newline
         /\ at_eol tail = true).
Proof.
  intros Hw1 Hw2 Hs He. rewrite matches_single.
  unfold pattern_matches, pattern_pieces.
  rewrite startswith_wild, endswith_wild, app_nil_r, glob_pieces_quest
    by (assumption || discriminate).
  split.
  - intros (pre & rest & -> & Hpre & Hm).
    apply glob_match_literal in Hm as (tail0 & -> & Hm).
    inversion Hm as [| |c ts' s' Hc Hm'| | | |]; subst.
    rewrite <- (app_nil_r (lits s2)) in Hm'.
    apply glob_match_literal in Hm' as (tail & -> & Ht).
    apply glob_match_nil in Ht. exists pre, c, tail.
    split; [now rewrite append_cons|]. split; [|auto].
    destruct Hpre as [->|(_ & H)]; auto.
  - intros (pre & c & tail & -> & Hpre & Hc & Ht).
    exists pre, (s1 +:+ String c s2 +:+ tail). split; [reflexivity|]. split.
    + destruct Hpre as [->|H]; auto.
    + apply glob_match_literal. exists (String c (s2 +:+ tail)).
      split; [now rewrite append_cons|]. apply glob_quest; [exact Hc|].
      rewrite <- (app_nil_r (lits s2)). apply glob_match_literal.
      exists tail. split; [reflexivity|]. now apply glob_match_nil.
Qed.

Lemma question_pattern_witness :
  matches {| patterns := ["a?b.txt"] |} "a/b.txt" = true.
Proof.
  apply (question_pattern "a" "b.txt" "a/b.txt");
    try ((split; reflexivity) || reflexivity).
  exists "", "/"%char, "". split; [reflexivity|]. split; [now left|].
  split; [discriminate|reflexivity].
Defined.

(** ** A leading double star *)

Lemma glob_pieces_dirs (p : string) :
  glob_pieces ("**/" +:+ p) = TDirs :: glob_pieces p.
Proof.
  unfold glob_pieces, tok_replace.
  change (lits ("**/" +:+ p))
    with (TLit "*" :: TLit "*" :: TLit "/" :: lits p).
  change (tok_replace_go (list_ascii_of_string "**/") TDirs 0
            (TLit "*" :: TLit "*" :: TLit "/" :: lits p))
    with (TDirs :: tok_replace_go (list_ascii_of_string "**/") TDirs 0 (lits p)).
  reflexivity.
Qed.

(** X28. In front of a pattern that does not begin with a slash, [**/]
    changes nothing: the pattern is looked for after every segment boundary
    anyway, so [**/*.py] matches the paths that [*.py] matches. *)
Theorem leading_dirs_redundant (p path : string) :
  p <> "" -> startswith p "/" = false ->
  matches {| patterns := ["**/" +:+ p] |} path
  = matches {| patterns := [p] |} path.
Proof.
  intros Hne Hs. apply Bool.eq_iff_eq_true. rewrite !matches_single.
  unfold pattern_matches, pattern_pieces.
  assert (He : endswith ("**/" +:+ p) "/" = endswith p "/").
  { destruct p as [|c p]; [contradiction|]. reflexivity. }
  change (startswith ("**/" +:+ p) "/") with false.
  rewrite He, Hs, glob_pieces_dirs. cbn [app]. split.
  - intros (pre & rest & -> & Hpre & Hm).
    inversion Hm as [| | | | |ts' s' Hm'|u ts' s' Hu Hm']; subst.
    + exists pre, rest. auto.
    + exists (pre +:+ u +:+ "/"), s'. split; [now rewrite !append_assoc|].
      split; [|exact Hm']. right. split; [reflexivity|].
      exists (pre +:+ u). now rewrite append_assoc.
  - intros (pre & rest & -> & Hpre & Hm). exists pre, rest.
    split; [reflexivity|]. split.
    + destruct Hpre as [->|(_ & H)]; auto.
    + now apply glob_dirs_none.
Qed.

Lemma leading_dirs_redundant_witness :
  matches {| patterns := ["**/" +:+ "*.py"] |} "src/a.py"
  = matches {| patterns := ["*.py"] |} "src/a.py".
Proof. apply leading_dirs_redundant; [discriminate|reflexivity]. Defined.

(** ** Update after init *)

(** X29. [update] run on the state that [init] saved, with the tree and the
    files as [init] found them, succeeds and saves that state with only the
    time of the run replaced. *)
Theorem init_then_update (w : world) (a : args) (code : Z) (state : json)
    (folders : list string) (now' : string) :
  cmd_init w a = Ok (code, Some state, folders) ->
  exists fields meta,
    state = JObj fields
    /\ obj_get fields "metadata" = Some (JObj meta)
    /\ cmd_update (with_state w state now') (arg_root a)
       = Ok (0%Z,
             Some (JObj (obj_set fields "metadata"
                           (JObj (obj_set meta "last_run" (JStr now')))))).
Proof.
  intros Hinit. unfold cmd_init in Hinit.
  destruct (negb (root_is_dir w)); [discriminate Hinit|].
  do 2 bind_inv Hinit. injection Hinit as _ <- _.
  eexists _, _. split; [reflexivity|]. split; [reflexivity|].
  unfold cmd_update.
  cbn [with_state saved_state gitignore tree io now].
  change (negb (truthy (JObj _))) with false. cbv iota.
  erewrite select_from_state_eq by reflexivity.
  cbn [with_state saved_state gitignore tree io now].
  rewrite bind_Ok, E, bind_Ok, E0, bind_Ok.
  reflexivity.
Qed.

Lemma init_then_update_witness :
  exists state folders fields meta,
    cmd_init demo_world
      {| arg_root := ["/"; "r"]; arg_include := None;
         arg_exclude := Some ["*.log"]; arg_exception := None |}
    = Ok (0%Z, Some state, folders)
    /\ state = JObj fields
    /\ obj_get fields "metadata" = Some (JObj meta)
    /\ cmd_update (with_state demo_world state "2026-03-03T00:00:00Z") ["/"; "r"]
       = Ok (0%Z,
             Some (JObj (obj_set fields "metadata"
                           (JObj (obj_set meta "last_run"
                                    (JStr "2026-03-03T00:00:00Z")))))).
Proof.
  assert (Hrun : exists state folders,
            cmd_init demo_world
              {| arg_root := ["/"; "r"]; arg_include := None;
                 arg_exclude := Some ["*.log"]; arg_exception := None |}
            = Ok (0%Z, Some state, folders))
    by (eexists _, _; vm_compute; reflexivity).
  destruct Hrun as (state & folders & Hrun).
  destruct (init_then_update demo_world _ 0%Z state _ "2026-03-03T00:00:00Z" Hrun)
    as (fields & meta & H1 & H2 & H3).
  exists state, folders, fields, meta. auto.
Defined.
